(** * Metro line routing: the CNF encoder and the solution decoder

    A shallow embedding of [src/encode.py] and [src/decode.py].

    The encoder is a Python script whose module-level state (the variable
    map, the id counter and the clause list) is threaded here through a small
    state-and-error monad; an uncaught Python exception ([KeyError],
    [IndexError], [ValueError]) is the failure of that monad.  Python
    dictionaries keep insertion order and the script iterates over them, so
    they are association lists with in-place update.  Integers are [Z]. *)

From Stdlib Require Import ZArith List String Bool Lia.
From Stdlib Require Import DecimalString DecimalPos DecimalZ.
From stdpp Require Import base list strings.

Open Scope string_scope.
Open Scope list_scope.
Open Scope Z_scope.

(* ------------------------------------------------------------------ *)
(** ** Python values *)

(** [str(z)] for an integer. *)
Definition str (z : Z) : string := NilZero.string_of_int (Z.to_int z).

(** [sep.join(parts)]. *)
Definition join (sep : string) (parts : list string) : string :=
  String.concat sep parts.

(** [l[i]], with Python's negative indices; [None] is [IndexError]. *)
Definition py_index {A} (l : list A) (i : Z) : option A :=
  let n := Z.of_nat (length l) in
  if decide (0 <= i < n) then l !! Z.to_nat i
  else if decide (- n <= i < 0) then l !! Z.to_nat (n + i)
  else None.

(** [range(a, b)]. *)
Definition range (a b : Z) : list Z := seqZ a (b - a).

(** [enumerate(l)]. *)
Definition enumerate {A} (l : list A) : list (Z * A) :=
  zip (seqZ 0 (Z.of_nat (length l))) l.

(** The pairs [(l[i], l[j])] with [i < j], in the order of the nested loops
    [for i in range(len(l)): for j in range(i + 1, len(l))]. *)
Fixpoint index_pairs {A} (l : list A) : list (A * A) :=
  match l with
  | [] => []
  | x :: rest => map (pair x) rest ++ index_pairs rest
  end.

(** [itertools.combinations(l, r)] for [r >= 0], in its lexicographic order. *)
Fixpoint comb {A} (l : list A) (r : nat) : list (list A) :=
  match r with
  | O => [[]]
  | S r' =>
      match l with
      | [] => []
      | x :: rest => map (cons x) (comb rest r') ++ comb rest r
      end
  end.

(** [itertools.combinations(l, r)]; a negative [r] raises [ValueError]. *)
Definition combinations {A} (l : list A) (r : Z) : option (list (list A)) :=
  if decide (r < 0) then None else Some (comb l (Z.to_nat r)).

(* ------------------------------------------------------------------ *)
(** ** Insertion-ordered dictionaries *)

Module Dict.
Section Dict.
Context {K V : Type} `{EqDecision K}.

Definition t := list (K * V).

Definition empty : t := [].

(** [d.get(k)] *)
Fixpoint get (d : t) (k : K) : option V :=
  match d with
  | [] => None
  | (k', v) :: d' => if decide (k' = k) then Some v else get d' k
  end.

(** [d[k] = v]: an existing key keeps its position. *)
Fixpoint set (d : t) (k : K) (v : V) : t :=
  match d with
  | [] => [(k, v)]
  | (k', v') :: d' =>
      if decide (k' = k) then (k, v) :: d' else (k', v') :: set d' k v
  end.

(** [d.items()] *)
Definition items (d : t) : list (K * V) := d.

Definition keys (d : t) : list K := map fst d.
End Dict.
Arguments t : clear implicits.
End Dict.

(* ------------------------------------------------------------------ *)
(** ** Constants of the two scripts *)

Inductive Dir := DirR | DirL | DirU | DirD.

#[global] Instance Dir_eq_dec : EqDecision Dir.
Proof. solve_decision. Defined.

(** The one-letter token of a direction. *)
Definition dir_token (d : Dir) : string :=
  match d with DirR => "R" | DirL => "L" | DirU => "U" | DirD => "D" end.

Definition DIRS (d : Dir) : Z * Z :=
  match d with
  | DirR => (1, 0) | DirL => (-1, 0) | DirU => (0, -1) | DirD => (0, 1)
  end.

Definition DIRS_LIST : list Dir := [DirR; DirL; DirU; DirD].

Definition REV_DIRS (d : Dir) : Dir :=
  match d with DirR => DirL | DirL => DirR | DirU => DirD | DirD => DirU end.

(** A Python [set], given by the list of its elements in some order; the
    order in which a set stores its elements can change from run to run. *)
Definition STRAIGHT_PAIRS : list (Dir * Dir) :=
  [(DirR, DirL); (DirL, DirR); (DirU, DirD); (DirD, DirU)].

Definition cell := (Z * Z)%type.

(** The destination of the unit step from [(x, y)] in direction [d]. *)
Definition step (x y : Z) (d : Dir) : cell :=
  let '(dx, dy) := DIRS d in (x + dx, y + dy).

(** [0 <= nx < N and 0 <= ny < M] *)
Definition in_grid (N M : Z) (c : cell) : bool :=
  bool_decide (0 <= c.1 < N) && bool_decide (0 <= c.2 < M).

(* ------------------------------------------------------------------ *)
(** ** The encoder's state and its monad *)

Definition clause := list Z.

Record state := mkState {
  var_to_id : Dict.t string Z;
  id_to_var : Dict.t string string;
  next_var : Z;
  clauses : list clause
}.

Definition init_state : state := mkState Dict.empty Dict.empty 1 [].

(** A computation that reads and updates the state, or raises. *)
Definition Enc (A : Type) : Type := state -> option (A * state).

Definition ret {A} (a : A) : Enc A := fun s => Some (a, s).

Definition bind {A B} (m : Enc A) (f : A -> Enc B) : Enc B :=
  fun s => match m s with
           | Some (a, s') => f a s'
           | None => None
           end.

Definition raise {A} : Enc A := fun _ => None.

(** A lookup that raises when it finds nothing. *)
Definition lift {A} (o : option A) : Enc A :=
  match o with Some a => ret a | None => raise end.

Declare Scope enc_scope.
Delimit Scope enc_scope with enc.
Notation "'do' x <- m ; k" := (bind m (fun x => k))
  (at level 10, x name, m at level 100, k at level 200, only parsing)
  : enc_scope.
Notation "m ;; k" := (bind m (fun _ => k))
  (at level 100, k at level 200, only parsing, right associativity)
  : enc_scope.
Open Scope enc_scope.

(** [for x in l: body(x)] *)
Fixpoint for_each {A} (l : list A) (body : A -> Enc unit) : Enc unit :=
  match l with
  | [] => ret tt
  | x :: rest => body x ;; for_each rest body
  end.

(** A loop that also updates a local value [b]. *)
Fixpoint foldM {A B} (body : A -> B -> Enc B) (l : list A) (b : B) : Enc B :=
  match l with
  | [] => ret b
  | x :: rest => do b' <- body x b ; foldM body rest b'
  end.

(** [[f(x) for x in l]] *)
Fixpoint mapM {A B} (f : A -> Enc B) (l : list A) : Enc (list B) :=
  match l with
  | [] => ret []
  | x :: rest => do y <- f x ; do ys <- mapM f rest ; ret (y :: ys)
  end.

Definition add_clause (lits : clause) : Enc unit :=
  fun s => Some (tt, mkState (var_to_id s) (id_to_var s) (next_var s)
                             (clauses s ++ [lits])).

Definition new_var (name : string) : Enc Z :=
  fun s =>
    match Dict.get (var_to_id s) name with
    | Some vid => Some (vid, s)
    | None =>
        let vid := next_var s in
        Some (vid, mkState (Dict.set (var_to_id s) name vid)
                           (Dict.set (id_to_var s) (str vid) name)
                           (next_var s + 1)
                           (clauses s))
    end.

(** Python's truth value of [d.get(key)]: [None] and [0] are false. *)
Definition truthy (o : option Z) : bool :=
  match o with Some v => negb (v =? 0) | None => false end.

(* ------------------------------------------------------------------ *)
(** ** Cardinality helpers *)

Definition at_most_one (var_list : list Z) : Enc unit :=
  for_each (index_pairs var_list) (fun '(vi, vj) => add_clause [- vi; - vj]).

Definition exactly_k_if_L (l_var : Z) (e_vars : list Z) (k : Z) : Enc unit :=
  let n := Z.of_nat (length e_vars) in
  (if decide (n > k) then
     do subsets <- lift (combinations e_vars (k + 1)) ;
     for_each subsets (fun subset => add_clause ([- l_var] ++ map Z.opp subset))
   else ret tt) ;;
  (if decide (k > 0) then
     do subsets <- lift (combinations e_vars (n - k + 1)) ;
     for_each subsets (fun subset => add_clause ([- l_var] ++ subset))
   else ret tt).

(** The name [f"{prefix}_{i}_{j}"] of a counter variable. *)
Definition aux_name (prefix : string) (i j : Z) : string :=
  prefix +:+ "_" +:+ str i +:+ "_" +:+ str j.

(** [seq_matrix[i][j]] *)
Definition cell_of (seq_matrix : list (list Z)) (i j : Z) : Enc Z :=
  do row <- lift (py_index seq_matrix i) ; lift (py_index row j).

Definition _initialize_base_constraints
    (variables : list Z) (seq_matrix : list (list Z)) (k : Z) : Enc unit :=
  do first_var <- lift (py_index variables 0) ;
  do s00 <- cell_of seq_matrix 0 0 ;
  add_clause [- first_var; s00] ;;
  for_each (range 1 (k + 1)) (fun j =>
    do s0j <- cell_of seq_matrix 0 j ;
    add_clause [- s0j]).

Definition _propagate_constraints
    (i : Z) (variables : list Z) (seq_matrix : list (list Z)) (k : Z) : Enc unit :=
  for_each (range 0 (k + 1)) (fun j =>
    do p <- cell_of seq_matrix (i - 1) j ;
    do c <- cell_of seq_matrix i j ;
    add_clause [- p; c]) ;;
  (do vi <- lift (py_index variables i) ;
   do si0 <- cell_of seq_matrix i 0 ;
   add_clause [- vi; si0]) ;;
  for_each (range 1 (k + 1)) (fun j =>
    do vi <- lift (py_index variables i) ;
    do p <- cell_of seq_matrix (i - 1) (j - 1) ;
    do c <- cell_of seq_matrix i j ;
    add_clause [- vi; - p; c]).

Definition add_at_most_k_constraint
    (variables : list Z) (k : Z) (prefix : string) : Enc unit :=
  let num_vars := Z.of_nat (length variables) in
  if decide (num_vars <= k) then ret tt
  else
    do sequential_matrix <-
      mapM (fun i => mapM (fun j => new_var (aux_name prefix i j))
                          (range 0 (k + 1)))
           (range 0 num_vars) ;
    _initialize_base_constraints variables sequential_matrix k ;;
    for_each (range 1 num_vars) (fun i =>
      _propagate_constraints i variables sequential_matrix k) ;;
    (do last <- cell_of sequential_matrix (num_vars - 1) k ;
     add_clause [- last]).

(* ------------------------------------------------------------------ *)
(** ** The problem description and the variable tables *)

(** The in-memory problem description that lines 34-69 of [encode.py] build
    from the [.city] file.  [p_lines_spec] has one [(start, end)] pair per
    line; the loader leaves [p_popular] empty when the mode is 1. *)
Record problem := mkProblem {
  p_mode : Z;
  p_N : Z;
  p_M : Z;
  p_K : Z;
  p_J : Z;
  p_lines_spec : list (cell * cell);
  p_popular : list cell
}.

Record tables := mkTables {
  L_vars : Dict.t (Z * Z * Z) Z;
  E_vars : Dict.t (Z * Z * Z * Dir) Z;
  T_vars : Dict.t (Z * Z * Z) Z;
  S_vars : Dict.t (Z * Z * Z) Z;
  cells_lines : Dict.t cell (list Z)
}.

Definition empty_tables : tables :=
  mkTables Dict.empty Dict.empty Dict.empty Dict.empty Dict.empty.

Definition set_L (t : tables) key v : tables :=
  mkTables (Dict.set (L_vars t) key v) (E_vars t) (T_vars t) (S_vars t)
           (cells_lines t).
Definition set_E (t : tables) key v : tables :=
  mkTables (L_vars t) (Dict.set (E_vars t) key v) (T_vars t) (S_vars t)
           (cells_lines t).
Definition set_T (t : tables) key v : tables :=
  mkTables (L_vars t) (E_vars t) (Dict.set (T_vars t) key v) (S_vars t)
           (cells_lines t).
Definition set_S (t : tables) key v : tables :=
  mkTables (L_vars t) (E_vars t) (T_vars t) (Dict.set (S_vars t) key v)
           (cells_lines t).

(** [cells_lines.setdefault(c, []).append(v)] *)
Definition append_cell (t : tables) (c : cell) (v : Z) : tables :=
  let old := default [] (Dict.get (cells_lines t) c) in
  mkTables (L_vars t) (E_vars t) (T_vars t) (S_vars t)
           (Dict.set (cells_lines t) c (old ++ [v])).

Definition lname (k x y : Z) : string :=
  "L_" +:+ str k +:+ "_" +:+ str x +:+ "_" +:+ str y.
Definition tname (k x y : Z) : string :=
  "T_" +:+ str k +:+ "_" +:+ str x +:+ "_" +:+ str y.
Definition sname (k x y : Z) : string :=
  "S_" +:+ str k +:+ "_" +:+ str x +:+ "_" +:+ str y.
Definition ename (k x y : Z) (d : Dir) : string :=
  "E_" +:+ str k +:+ "_" +:+ str x +:+ "_" +:+ str y +:+ "_" +:+ dir_token d.

(** The body of the innermost loop of the variable definitions, for line
    [k] and cell [(x, y)].  The value appended to [cells_lines] is
    [L_vars[(k, x, y)]], which the line before has just set to [l]. *)
Definition define_cell (N M k : Z) (start end_ : cell) (x y : Z)
    (t : tables) : Enc tables :=
  do l <- new_var (lname k x y) ;
  let t := set_L t (k, x, y) l in
  let t := append_cell t (x, y) l in
  do t <- (if decide ((x, y) <> start /\ (x, y) <> end_)
           then do tv <- new_var (tname k x y) ; ret (set_T t (k, x, y) tv)
           else ret t) ;
  do sv <- new_var (sname k x y) ;
  let t := set_S t (k, x, y) sv in
  foldM (fun d t =>
           if in_grid N M (step x y d)
           then do e <- new_var (ename k x y d) ; ret (set_E t (k, x, y, d) e)
           else ret t)
        DIRS_LIST t.

Definition define_variables (N M : Z) (lines_spec : list (cell * cell))
    : Enc tables :=
  foldM (fun ks t =>
           let '(k, (start, end_)) := ks in
           foldM (fun x t =>
                    foldM (fun y t => define_cell N M k start end_ x y t)
                          (range 0 M) t)
                 (range 0 N) t)
        (enumerate lines_spec) empty_tables.

(* ------------------------------------------------------------------ *)
(** ** The constraints *)

(** One iteration of the pair loop of [enforce_turn_constraints]. *)
Definition turn_pair_clause (STRAIGHT_PAIRS : list (Dir * Dir))
    (E_vars : Dict.t (Z * Z * Z * Dir) Z)
    (k x y l_var t_var : Z) (pr : Dir * Dir) : Enc unit :=
  let '(D1, D2) := pr in
  let e1 := Dict.get E_vars (k, x, y, D1) in
  let e2 := Dict.get E_vars (k, x, y, D2) in
  if truthy e1 && truthy e2 then
    do v1 <- lift e1 ;
    do v2 <- lift e2 ;
    let is_straight_move := bool_decide ((D1, D2) ∈ STRAIGHT_PAIRS) in
    if negb is_straight_move
    then add_clause [- l_var; - v1; - v2; t_var]
    else add_clause [- l_var; - v1; - v2; - t_var]
  else ret tt.

(** The loop over [T_vars.items()] for line [k]; it returns
    [turn_vars_for_line]. *)
Definition turn_items_loop (STRAIGHT_PAIRS : list (Dir * Dir))
    (T_vars L_vars : Dict.t (Z * Z * Z) Z)
    (E_vars : Dict.t (Z * Z * Z * Dir) Z) (k : Z) : Enc (list Z) :=
  foldM (fun item turn_vars_for_line =>
           let '((line_k, x, y), t_var) := item in
           if decide (line_k <> k) then ret turn_vars_for_line
           else
             let turn_vars_for_line := turn_vars_for_line ++ [t_var] in
             do l_var <- lift (Dict.get L_vars (k, x, y)) ;
             add_clause [- t_var; l_var] ;;
             for_each (index_pairs DIRS_LIST)
                      (turn_pair_clause STRAIGHT_PAIRS E_vars k x y l_var
                                        t_var) ;;
             ret turn_vars_for_line)
        (Dict.items T_vars) [].

Definition enforce_turn_constraints (lines_spec : list (cell * cell))
    (T_vars L_vars : Dict.t (Z * Z * Z) Z)
    (E_vars : Dict.t (Z * Z * Z * Dir) Z)
    (STRAIGHT_PAIRS : list (Dir * Dir)) (J : Z) : Enc unit :=
  for_each (enumerate lines_spec) (fun ks =>
    let k := ks.1 in
    do turn_vars_for_line <-
      turn_items_loop STRAIGHT_PAIRS T_vars L_vars E_vars k ;
    if decide (turn_vars_for_line <> [])
    then add_at_most_k_constraint turn_vars_for_line J ("s_k" +:+ str k)
    else ret tt).

Definition enforce_unique_occupancy (cells_lines : Dict.t cell (list Z))
    : Enc unit :=
  for_each (Dict.items cells_lines) (fun item =>
    let vids := item.2 in
    if decide (Z.of_nat (length vids) > 1) then at_most_one vids else ret tt).

(** [[E_vars[(k, x, y, d)] for d in DIRS_LIST if (k, x, y, d) in E_vars]] *)
Definition incident (E_vars : Dict.t (Z * Z * Z * Dir) Z) (k x y : Z)
    : list Z :=
  omap (fun d => Dict.get E_vars (k, x, y, d)) DIRS_LIST.

Definition continuity_cell (L_vars : Dict.t (Z * Z * Z) Z)
    (E_vars : Dict.t (Z * Z * Z * Dir) Z) (k : Z) (start end_ : cell)
    (x y : Z) : Enc unit :=
  let lvid := Dict.get L_vars (k, x, y) in
  if negb (truthy lvid) then ret tt
  else
    do lvid <- lift lvid ;
    let incident_edges := incident E_vars k x y in
    if decide ((x, y) = start \/ (x, y) = end_)
    then exactly_k_if_L lvid incident_edges 1
    else
      exactly_k_if_L lvid incident_edges 2 ;;
      for_each incident_edges (fun evid => add_clause [lvid; - evid]).

Definition enforce_path_continuity (lines_spec : list (cell * cell))
    (L_vars : Dict.t (Z * Z * Z) Z) (E_vars : Dict.t (Z * Z * Z * Dir) Z)
    (N M : Z) : Enc unit :=
  for_each (enumerate lines_spec) (fun ks =>
    let '(k, (start, end_)) := ks in
    (do ls <- lift (Dict.get L_vars (k, start.1, start.2)) ;
     add_clause [ls]) ;;
    (do le <- lift (Dict.get L_vars (k, end_.1, end_.2)) ;
     add_clause [le]) ;;
    for_each (range 0 N) (fun x =>
      for_each (range 0 M) (fun y =>
        continuity_cell L_vars E_vars k start end_ x y))).

Definition enforce_popular_cell_constraint (mode : Z) (popular : list cell)
    (cells_lines : Dict.t cell (list Z)) : Enc unit :=
  if decide (mode <> 2 \/ popular = []) then ret tt
  else
    for_each popular (fun pc =>
      let vids := default [] (Dict.get cells_lines pc) in
      if decide (vids <> []) then add_clause vids
      else add_clause [1] ;; add_clause [-1]).

Definition enforce_edge_location_consistency
    (E_vars : Dict.t (Z * Z * Z * Dir) Z) (L_vars : Dict.t (Z * Z * Z) Z)
    : Enc unit :=
  for_each (Dict.items E_vars) (fun item =>
    let '((k, x, y, D), evid) := item in
    do loc_var <- lift (Dict.get L_vars (k, x, y)) ;
    let '(nx, ny) := step x y D in
    add_clause [- evid; loc_var] ;;
    (do ln <- lift (Dict.get L_vars (k, nx, ny)) ;
     add_clause [- evid; ln]) ;;
    let revD := REV_DIRS D in
    let rev_evid := Dict.get E_vars (k, nx, ny, revD) in
    if truthy rev_evid then
      do r <- lift rev_evid ;
      add_clause [- evid; r] ;;
      add_clause [- r; evid]
    else add_clause [- evid]).

Definition connectivity_step (S_vars : Dict.t (Z * Z * Z) Z)
    (E_vars : Dict.t (Z * Z * Z * Dir) Z) (k x y : Z) (D : Dir) : Enc unit :=
  let e_var := Dict.get E_vars (k, x, y, D) in
  if truthy e_var then
    do e <- lift e_var ;
    let '(nx, ny) := step x y D in
    do s <- lift (Dict.get S_vars (k, x, y)) ;
    do sn <- lift (Dict.get S_vars (k, nx, ny)) ;
    add_clause [- s; - e; sn]
  else ret tt.

Definition enforce_path_connectivity (lines_spec : list (cell * cell))
    (S_vars : Dict.t (Z * Z * Z) Z) (E_vars : Dict.t (Z * Z * Z * Dir) Z)
    (L_vars : Dict.t (Z * Z * Z) Z) (N M : Z) : Enc unit :=
  for_each (enumerate lines_spec) (fun ks =>
    let '(k, (start, end_)) := ks in
    (do s0 <- lift (Dict.get S_vars (k, start.1, start.2)) ;
     add_clause [s0]) ;;
    for_each (range 0 N) (fun x =>
      for_each (range 0 M) (fun y =>
        for_each DIRS_LIST (connectivity_step S_vars E_vars k x y))) ;;
    for_each (range 0 N) (fun x =>
      for_each (range 0 M) (fun y =>
        do l_var <- lift (Dict.get L_vars (k, x, y)) ;
        do s_var <- lift (Dict.get S_vars (k, x, y)) ;
        add_clause [- l_var; s_var]))).

Definition apply_all_constraints (mode : Z) (t : tables)
    (lines_spec : list (cell * cell)) (STRAIGHT_PAIRS : list (Dir * Dir))
    (J : Z) (popular : list cell) (N M : Z) : Enc unit :=
  enforce_unique_occupancy (cells_lines t) ;;
  enforce_edge_location_consistency (E_vars t) (L_vars t) ;;
  enforce_path_continuity lines_spec (L_vars t) (E_vars t) N M ;;
  enforce_turn_constraints lines_spec (T_vars t) (L_vars t) (E_vars t)
                           STRAIGHT_PAIRS J ;;
  enforce_path_connectivity lines_spec (S_vars t) (E_vars t) (L_vars t) N M ;;
  enforce_popular_cell_constraint mode popular (cells_lines t).

(* ------------------------------------------------------------------ *)
(** ** The whole encoder and its two output files *)

(** The script from the variable definitions to the last constraint, run
    with the set [STRAIGHT_PAIRS] stored in the order [straight_pairs].  A
    mode other than 1 or 2 stops the script ([SystemExit]) before anything
    else. *)
Definition encoder_on (straight_pairs : list (Dir * Dir)) (p : problem)
    : Enc tables :=
  if decide (p_mode p = 1 \/ p_mode p = 2) then
    do t <- define_variables (p_N p) (p_M p) (p_lines_spec p) ;
    apply_all_constraints (p_mode p) t (p_lines_spec p) straight_pairs
                          (p_J p) (p_popular p) (p_N p) (p_M p) ;;
    ret t
  else raise.

Definition encoder (p : problem) : Enc tables := encoder_on STRAIGHT_PAIRS p.

Definition run_encoder (p : problem) : option (tables * state) :=
  encoder p init_state.

Definition newline : string := String (Ascii.ascii_of_nat 10) EmptyString.

(** The text written to the [.satinput] file. *)
Definition satinput_text (num_vars num_clauses : Z) (cls : list clause)
    : string :=
  fold_left
    (fun acc c => acc +:+ join " " (map str c) +:+ " 0" +:+ newline)
    cls
    ("p cnf " +:+ str num_vars +:+ " " +:+ str num_clauses +:+ newline).

(** The value handed to [json.dump] for the [.varmap.json] file. *)
Record metadata := mkMetadata {
  md_var_to_id : Dict.t string Z;
  md_id_to_var : Dict.t string string;
  md_N : Z;
  md_M : Z;
  md_K : Z;
  md_J : Z;
  md_mode : Z;
  md_lines : list (cell * cell);
  md_popular : list cell
}.

Record output := mkOutput {
  out_num_vars : Z;
  out_clauses : list clause;
  out_satinput : string;
  out_metadata : metadata
}.

Definition write_output (p : problem) (s : state) : output :=
  let num_vars := next_var s - 1 in
  let num_clauses := Z.of_nat (length (clauses s)) in
  mkOutput num_vars (clauses s)
    (satinput_text num_vars num_clauses (clauses s))
    (mkMetadata (var_to_id s) (id_to_var s) (p_N p) (p_M p) (p_K p) (p_J p)
                (p_mode p) (p_lines_spec p) (p_popular p)).

(** A run of [encode.py]: [None] when the script dies before it writes its
    files. *)
Definition encode (p : problem) : option output :=
  match run_encoder p with
  | Some (_, s) => Some (write_output p s)
  | None => None
  end.

(** The same run when the set [STRAIGHT_PAIRS] is stored in the order
    [straight_pairs]. *)
Definition encode_on (straight_pairs : list (Dir * Dir)) (p : problem)
    : option output :=
  match encoder_on straight_pairs p init_state with
  | Some (_, s) => Some (write_output p s)
  | None => None
  end.

(** The scenario N=3, M=1, K=1, J=0 of the specification. *)
Definition straight_line : problem :=
  mkProblem 1 3 1 1 0 [((0, 0), (2, 0))] [].

(* ------------------------------------------------------------------ *)
(** ** The decoder *)

(** An edge variable asserted by the solver: [(k, x, y, D)]. *)
Definition edge := (Z * Z * Z * Dir)%type.

(** What lines 29-63 of [decode.py] extract from the solver's output file:
    either the [UNSAT] marker on the first line, or the set [E_true] of the
    edge variables among the positive literals.  [E_true] is a Python [set];
    it is given here by the list of its elements in the order in which a
    [for] loop over the set meets them. *)
Inductive solver_output :=
  | UNSAT
  | SAT (E_true : list edge).

Definition adjacency := Dict.t cell (list (cell * Dir)).

Definition build_adjacency_list_for_line (k : Z) (E_true : list edge)
    : adjacency :=
  fold_left
    (fun (adjacency : adjacency) (e : edge) =>
       let '(kk, x, y, D) := e in
       if decide (kk <> k) then adjacency
       else
         let '(nx, ny) := step x y D in
         let adjacency :=
           match Dict.get adjacency (x, y) with
           | None => Dict.set adjacency (x, y) []
           | Some _ => adjacency
           end in
         Dict.set adjacency (x, y)
                  (default [] (Dict.get adjacency (x, y)) ++ [((nx, ny), D)]))
    E_true Dict.empty.

(** The state of the search: the queue and the visited set. *)
Definition bfs_state := (list (cell * list Dir) * list cell)%type.

(** The [for] loop over the neighbours of the current cell. *)
Definition bfs_visit (path_so_far : list Dir)
    (neighbors : list (cell * Dir)) (st : bfs_state) : bfs_state :=
  fold_left
    (fun (st : bfs_state) (nb : cell * Dir) =>
       let '(queue, visited) := st in
       let '(next_pos, direction) := nb in
       if decide (next_pos ∈ visited) then st
       else (queue ++ [(next_pos, path_so_far ++ [direction])],
             visited ++ [next_pos]))
    neighbors st.

(** The [while] loop, bounded by [fuel] iterations.  The outer [None] means
    that the bound was reached; the inner value is what the function
    returns. *)
Fixpoint bfs_loop (fuel : nat) (adj : adjacency) (end_ : cell)
    (st : bfs_state) : option (option (list Dir)) :=
  match fuel with
  | O => None
  | S fuel' =>
      match st.1 with
      | [] => Some None
      | (current, path_so_far) :: queue =>
          if decide (current = end_) then Some (Some path_so_far)
          else
            let neighbors := default [] (Dict.get adj current) in
            bfs_loop fuel' adj end_
                     (bfs_visit path_so_far neighbors (queue, st.2))
      end
  end.

(** Every iteration but the first pops a cell that some adjacency entry put
    in the queue, once; so the loop runs at most this many times. *)
Definition bfs_bound (adj : adjacency) : nat :=
  S (S (length (concat (map snd adj)))).

Definition perform_bfs_search (adj : adjacency) (start end_ : cell)
    : option (list Dir) :=
  match bfs_loop (bfs_bound adj) adj end_ ([(start, [])], [start]) with
  | Some r => r
  | None => None
  end.

Definition find_path_bfs (k : Z) (start end_ : cell) (E_true : list edge)
    : option (list Dir) :=
  let adjacency_list := build_adjacency_list_for_line k E_true in
  perform_bfs_search adjacency_list start end_.

(** The line written for a path: [" ".join(path + ["0"])]. *)
Definition path_line (path : list Dir) : string :=
  join " " (map dir_token path ++ ["0"]).

(** The main decoding loop over [range(K)].  The result is
    [(all_paths_found, output_lines)]; [None] is the [IndexError] of
    [lines_spec[k]]. *)
Fixpoint decoding_loop (ks : list Z) (lines_spec : list (cell * cell))
    (E_true : list edge) (output_lines : list string)
    : option (bool * list string) :=
  match ks with
  | [] => Some (true, output_lines)
  | k :: rest =>
      match py_index lines_spec k with
      | None => None
      | Some (start, end_) =>
          match find_path_bfs k start end_ E_true with
          | None => Some (false, output_lines)
          | Some path =>
              decoding_loop rest lines_spec E_true
                            (output_lines ++ [path_line path])
          end
      end
  end.

(** What a run of [decode.py] leaves behind: the lines written to the output
    file and the exit status. *)
Record decoded := mkDecoded {
  written : list string;
  exit_status : Z
}.

(** The text of the output file: every line followed by a newline. *)
Definition file_text (d : decoded) : string :=
  fold_left (fun acc l => acc +:+ l +:+ newline) (written d) "".

(** A run of [decode.py] on the metadata [K], [lines_spec] and on the
    solver's output; [None] when the script dies before it writes. *)
Definition decode (K : Z) (lines_spec : list (cell * cell))
    (sat : solver_output) : option decoded :=
  match sat with
  | UNSAT => Some (mkDecoded ["0"] 0)
  | SAT E_true =>
      match decoding_loop (range 0 K) lines_spec E_true [] with
      | None => None
      | Some (all_paths_found, output_lines) =>
          if all_paths_found then Some (mkDecoded output_lines 0)
          else Some (mkDecoded ["0"] 0)
      end
  end.

(* ------------------------------------------------------------------ *)
(** ** Assignments, paths and reachability *)

(** A truth assignment to the variable ids. *)
Definition assignment := Z -> bool.

(** The value of a signed literal. *)
Definition lit_true (a : assignment) (l : Z) : bool :=
  if decide (0 < l) then a l else negb (a (- l)).

Definition clause_sat (a : assignment) (c : clause) : bool :=
  existsb (lit_true a) c.

Definition cnf_sat (a : assignment) (cls : list clause) : bool :=
  forallb (clause_sat a) cls.

(** How many of the variables of a list are true. *)
Definition count_true (a : assignment) (vars : list Z) : Z :=
  Z.of_nat (length (filter (fun v => a v = true) vars)).

(** The truth value of a table entry; an absent variable counts as false. *)
Definition holds {K} `{EqDecision K} (a : assignment) (d : Dict.t K Z)
    (key : K) : bool :=
  match Dict.get d key with Some v => a v | None => false end.

(** The cells visited when walking [dirs] from [c], [c] included. *)
Fixpoint walk (c : cell) (dirs : list Dir) : list cell :=
  match dirs with
  | [] => [c]
  | d :: rest => c :: walk (step c.1 c.2 d) rest
  end.

(** The edge variables of line [k] along that walk, and their reverses. *)
Fixpoint path_edges (k : Z) (c : cell) (dirs : list Dir) : list edge :=
  match dirs with
  | [] => []
  | d :: rest => (k, c.1, c.2, d) :: path_edges k (step c.1 c.2 d) rest
  end.

Fixpoint rev_edges (k : Z) (c : cell) (dirs : list Dir) : list edge :=
  match dirs with
  | [] => []
  | d :: rest =>
      let n := step c.1 c.2 d in
      (k, n.1, n.2, REV_DIRS d) :: rev_edges k n rest
  end.

(** The turn variables of line [k], as [enforce_turn_constraints] collects
    them from [T_vars]. *)
Definition turn_vars_of_line (T_vars : Dict.t (Z * Z * Z) Z) (k : Z)
    : list Z :=
  map snd (filter (fun item => item.1.1.1 = k) (Dict.items T_vars)).

(** Cell [c] is reached from [start] by following edge variables of line [k]
    that the assignment makes true. *)
Inductive reachable (a : assignment) (E_vars : Dict.t (Z * Z * Z * Dir) Z)
    (k : Z) (start : cell) : cell -> Prop :=
  | reach_start : reachable a E_vars k start start
  | reach_step c d :
      reachable a E_vars k start c ->
      holds a E_vars (k, c.1, c.2, d) = true ->
      reachable a E_vars k start (step c.1 c.2 d).

(** Two directions that are neither equal nor opposite. *)
Definition perpendicular (d1 d2 : Dir) : Prop :=
  d1 <> d2 /\ d1 <> REV_DIRS d2.

(** All the [(neighbour, direction)] entries of an adjacency relation. *)
Definition adj_entries (adj : adjacency) : list (cell * Dir) :=
  concat (map snd adj).

(** What bounds the remaining iterations of the search: the queue, plus the
    entries whose target has not been visited yet. *)
Definition bfs_measure (adj : adjacency) (st : bfs_state) : nat :=
  (length st.1 +
   length (filter (fun nb : cell * Dir => nb.1 ∉ st.2) (adj_entries adj)))%nat.

(** The entries that [build_adjacency_list_for_line] files under cell [c]. *)
Definition neighbours_of (k : Z) (E_true : list edge) (c : cell)
    : list (cell * Dir) :=
  omap (fun e : edge =>
          let '(kk, x, y, D) := e in
          if decide (kk = k /\ (x, y) = c) then Some (step x y D, D)
          else None)
       E_true.

(** What the line of index [k] contributes when its path is found. *)
Definition line_found (lines_spec : list (cell * cell)) (E_true : list edge)
    (k : Z) (l : string) : Prop :=
  exists s e p,
    py_index lines_spec k = Some (s, e) /\
    find_path_bfs k s e E_true = Some p /\ l = path_line p.

(** The steps [(cell, direction, next cell)] of the walk of [dirs] from
    [c]. *)
Fixpoint path_steps (c : cell) (dirs : list Dir) : list (cell * Dir * cell) :=
  match dirs with
  | [] => []
  | d :: rest =>
      let n := step c.1 c.2 d in (c, d, n) :: path_steps n rest
  end.

(** The true edge variables of line [k] form the simple path that walks
    [dirs] from [s] to [e]: the walk visits no cell twice and ends at [e],
    every edge variable along it is true, and line [k] has no other true edge
    variable than these and their reverses. *)
Definition forms_path (E_true : list edge) (k : Z) (s e : cell)
    (dirs : list Dir) : Prop :=
  NoDup (walk s dirs) /\
  last (walk s dirs) = Some e /\
  (forall ed, ed ∈ path_edges k s dirs -> ed ∈ E_true) /\
  (forall ed : edge, ed ∈ E_true -> ed.1.1.1 = k ->
     ed ∈ path_edges k s dirs \/ ed ∈ rev_edges k s dirs).

(* ------------------------------------------------------------------ *)
(** ** Invariants of the encoder's state *)

(** The variable map is a bijection between the names seen so far and the
    ids [1 .. next_var - 1], and [id_to_var] is its inverse, keyed by the
    decimal text of the id. *)
Record wf (s : state) : Prop := mkWf {
  wf_next : 1 <= next_var s;
  wf_range : forall name vid,
    Dict.get (var_to_id s) name = Some vid -> 1 <= vid < next_var s;
  wf_dense : forall vid,
    1 <= vid < next_var s ->
    exists name, Dict.get (var_to_id s) name = Some vid;
  wf_inj : forall n1 n2 vid,
    Dict.get (var_to_id s) n1 = Some vid ->
    Dict.get (var_to_id s) n2 = Some vid -> n1 = n2;
  wf_inverse : forall key name,
    Dict.get (id_to_var s) key = Some name <->
    exists vid, key = str vid /\ Dict.get (var_to_id s) name = Some vid
}.

(** State [s'] comes after [s]: clauses were only appended, and the
    invariant and the ids handed out so far are kept. *)
Definition ext (s s' : state) : Prop :=
  clauses s `prefix_of` clauses s' /\
  (forall name vid,
     Dict.get (var_to_id s) name = Some vid ->
     Dict.get (var_to_id s') name = Some vid) /\
  (wf s -> wf s').

(** A computation that only moves the state forward. *)
Definition Mono {A} (m : Enc A) : Prop :=
  forall s a s', m s = Some (a, s') -> ext s s'.

(** A computation that never raises. *)
Definition Total {A} (m : Enc A) : Prop :=
  forall s, is_Some (m s).

(** The assignment satisfies the clauses emitted so far. *)
Definition sat (a : assignment) (s : state) : Prop :=
  cnf_sat a (clauses s) = true.

(* ------------------------------------------------------------------ *)
(** ** What the variable definitions leave in the tables *)

(** One iteration of the loops of the variable definitions: the line, as
    [enumerate] gives it, then [x], then [y]. *)
Definition item := (Z * (cell * cell) * Z * Z)%type.

Definition item_k (it : item) : Z := it.1.1.1.
Definition item_start (it : item) : cell := it.1.1.2.1.
Definition item_end (it : item) : cell := it.1.1.2.2.
Definition item_x (it : item) : Z := it.1.2.
Definition item_y (it : item) : Z := it.2.

(** The iterations of the three nested loops, in order. *)
Definition all_cells (N M : Z) (lines_spec : list (cell * cell)) : list item :=
  flat_map (fun ksx => map (pair ksx) (range 0 M))
    (flat_map (fun ks => map (pair ks) (range 0 N)) (enumerate lines_spec)).

(** Line [k] went through cell [(x, y)] in the iterations [done]. *)
Definition visited_by (done : list item) (k x y : Z) : Prop :=
  exists st en, (k, (st, en), x, y) ∈ done.

(** The tables after the iterations [done]: which keys they hold, and that
    every entry is the id of its name in the variable map. *)
Record tables_inv (N M : Z) (done : list item) (t : tables) (s : state)
    : Prop := mkTablesInv {
  inv_L : forall k x y,
    is_Some (Dict.get (L_vars t) (k, x, y)) <-> visited_by done k x y;
  inv_S : forall k x y,
    is_Some (Dict.get (S_vars t) (k, x, y)) <-> visited_by done k x y;
  inv_T : forall k x y,
    is_Some (Dict.get (T_vars t) (k, x, y)) <->
    exists st en, (k, (st, en), x, y) ∈ done /\ (x, y) <> st /\ (x, y) <> en;
  inv_E : forall k x y d,
    is_Some (Dict.get (E_vars t) (k, x, y, d)) <->
    visited_by done k x y /\ in_grid N M (step x y d) = true;
  inv_nL : forall k x y v,
    Dict.get (L_vars t) (k, x, y) = Some v ->
    Dict.get (var_to_id s) (lname k x y) = Some v;
  inv_nS : forall k x y v,
    Dict.get (S_vars t) (k, x, y) = Some v ->
    Dict.get (var_to_id s) (sname k x y) = Some v;
  inv_nT : forall k x y v,
    Dict.get (T_vars t) (k, x, y) = Some v ->
    Dict.get (var_to_id s) (tname k x y) = Some v;
  inv_nE : forall k x y d v,
    Dict.get (E_vars t) (k, x, y, d) = Some v ->
    Dict.get (var_to_id s) (ename k x y d) = Some v;
  inv_cl : forall c v,
    v ∈ default [] (Dict.get (cells_lines t) c) <->
    exists k, visited_by done k c.1 c.2 /\
              Dict.get (var_to_id s) (lname k c.1 c.2) = Some v
}.

(** The loop over the directions in [define_cell]. *)
Definition define_edges (N M k x y : Z) (ds : list Dir) (t : tables)
    : Enc tables :=
  foldM (fun d t =>
           if in_grid N M (step x y d)
           then do e <- new_var (ename k x y d) ; ret (set_E t (k, x, y, d) e)
           else ret t)
        ds t.

(** A problem description on which the script runs to its end: a known
    mode, a turn budget that is not negative, and line ends inside the
    grid. *)
Definition well_formed (p : problem) : Prop :=
  (p_mode p = 1 \/ p_mode p = 2) /\
  0 <= p_J p /\
  forall st en,
    (st, en) ∈ p_lines_spec p ->
    in_grid (p_N p) (p_M p) st = true /\ in_grid (p_N p) (p_M p) en = true.

(** The entry [seq_matrix[i][j]] of a counter matrix, 0 when there is
    none. *)
Definition entry (seq_matrix : list (list Z)) (i j : Z) : Z :=
  default 0 (row ← py_index seq_matrix i; py_index row j).

(** A scenario-2 description whose popular cell lies outside its 1x2 grid. *)
Definition popular_outside : problem :=
  mkProblem 2 1 2 1 0 [((0, 0), (0, 1))] [(5, 5)].

(** A scenario-2 description whose popular cell lies inside its 1x2 grid. *)
Definition popular_inside : problem :=
  mkProblem 2 1 2 1 0 [((0, 0), (0, 1))] [(0, 1)].

(** An assignment for [straight_line]: the three cells occupied and
    reached, the edges of the path R, R true in both directions, no turn. *)
Definition straight_assignment : assignment :=
  fun v => bool_decide (v ∈ [1; 4; 9; 3; 7; 8; 11; 2; 6; 10]).

(** The tables and the state at the end of a run of the encoder, empty when
    the script raised. *)
Definition final_tables (p : problem) : tables :=
  (default (empty_tables, init_state) (run_encoder p)).1.
Definition final_state (p : problem) : state :=
  (default (empty_tables, init_state) (run_encoder p)).2.

(** One line from (0,0) to (1,0) on a grid 2 wide and 3 high, with a turn
    budget of 4: the [.city] file [1 / 2 3 1 4 / 0 0 1 0]. *)
Definition cycle_problem : problem :=
  mkProblem 1 2 3 1 4 [((0, 0), (1, 0))] [].

(** An assignment for [cycle_problem]: the path (0,0) -> (1,0), and next to
    it the closed loop through (0,1), (1,1), (1,2), (0,2); every cell is
    occupied, every [reach] variable is true, the four cells of the loop are
    turns. *)
Definition cycle_assignment : assignment :=
  fun v => bool_decide
    (v ∈ [1; 5; 11; 16; 20; 26;
          3; 18;
          8; 23; 10; 15; 25; 30; 14; 29;
          6; 12; 21; 27;
          2; 7; 13; 17; 22; 28]).

(* ------------------------------------------------------------------ *)
(** ** Further problem descriptions and invariants of the search *)

(** Two lines on a 2x2 grid, side by side, with no turn allowed: the [.city]
    file [1 / 2 2 2 0 / 0 0 1 0 / 0 1 1 1]. *)
Definition two_lines : problem :=
  mkProblem 1 2 2 2 0 [((0, 0), (1, 0)); ((0, 1), (1, 1))] [].

(** An assignment for [two_lines]: line 0 runs along the top row and line 1
    along the bottom row. *)
Definition two_lines_assignment : assignment :=
  fun v => bool_decide
    (v ∈ [1; 10; 3; 12; 2; 11;
          24; 33; 26; 35; 25; 34]).

(** A queue entry [(c, p)] of the search for line [k] from [start]: [p]
    walks from the start to [c] along true edge variables, through visited
    cells, and meets no cell twice. *)
Definition good_entry (k : Z) (E_true : list edge) (start : cell)
    (visited : list cell) (c : cell) (p : list Dir) : Prop :=
  last (walk start p) = Some c /\
  (forall ed, ed ∈ path_edges k start p -> ed ∈ E_true) /\
  (forall x, x ∈ walk start p -> x ∈ visited) /\
  NoDup (walk start p).

Definition good_queue (k : Z) (E_true : list edge) (start : cell)
    (st : bfs_state) : Prop :=
  forall c p, (c, p) ∈ st.1 -> good_entry k E_true start st.2 c p.

(** Every visited cell is still in the queue, or it is not the end and all
    its neighbours are visited. *)
Definition closed (k : Z) (E_true : list edge) (start end_ : cell)
    (st : bfs_state) : Prop :=
  start ∈ st.2 /\
  forall c, c ∈ st.2 ->
    (exists p, (c, p) ∈ st.1) \/
    (c <> end_ /\
     forall nb d, (nb, d) ∈ neighbours_of k E_true c -> nb ∈ st.2).

(** The visited cells of the search for line [k] were reached: no cell is
    listed twice, and each one is the start or the destination of a true edge
    variable that leaves a visited cell. *)
Definition reached (k : Z) (E_true : list edge) (start : cell)
    (v : list cell) : Prop :=
  NoDup v /\
  forall c, c ∈ v ->
    c = start \/
    exists c' d, c' ∈ v /\ (k, c'.1, c'.2, d) ∈ E_true /\
                 c = step c'.1 c'.2 d.

(** The number of directions in which an edge leaves a cell, and its sum
    over a list of cells. *)
Definition degree (on : cell -> Dir -> bool) (c : cell) : Z :=
  Z.b2z (on c DirR) + Z.b2z (on c DirL) + Z.b2z (on c DirU)
  + Z.b2z (on c DirD).

Definition degree_sum (on : cell -> Dir -> bool) (v : list cell) : Z :=
  foldr (fun c acc => degree on c + acc) 0 v.

(** The keys of a table whose variable an assignment makes true. *)
Definition true_keys {K} `{EqDecision K} (a : assignment) (d : Dict.t K Z)
    : list K :=
  filter (fun key => holds a d key = true) (Dict.keys d).

(** The paths that the decoder finds, line by line. *)
Definition found_paths (lines_spec : list (cell * cell)) (E_true : list edge)
    : list (list Dir) :=
  imap (fun k ln => default [] (find_path_bfs (Z.of_nat k) ln.1 ln.2 E_true))
       lines_spec.

(** The number of changes of direction along a path. *)
Fixpoint turns (dirs : list Dir) : Z :=
  match dirs with
  | d1 :: rest =>
      match rest with
      | d2 :: _ => (if decide (d1 = d2) then 0 else 1) + turns rest
      | [] => 0
      end
  | [] => 0
  end.

(** The cells at which the walk of [dirs] from [c] changes direction. *)
Fixpoint turn_cells (c : cell) (dirs : list Dir) : list cell :=
  match dirs with
  | d1 :: rest =>
      let n := step c.1 c.2 d1 in
      match rest with
      | d2 :: _ => (if decide (d1 = d2) then [] else [n]) ++ turn_cells n rest
      | [] => []
      end
  | [] => []
  end.

(** A clause that a DIMACS file can hold: it is not empty, and each of its
    literals is a variable below [bound], with a sign. *)
Definition clause_ok (bound : Z) (c : clause) : Prop :=
  c <> [] /\ Forall (fun l => 1 <= Z.abs l < bound) c.

(** Every clause emitted so far only mentions variables that were handed
    out, or the variable 1. *)
Definition lits_ok (s : state) : Prop :=
  Forall (clause_ok (Z.max 2 (next_var s))) (clauses s).

(** The id [v] was handed out to some name. *)
Definition known (s : state) (v : Z) : Prop :=
  exists name, Dict.get (var_to_id s) name = Some v.

(** A literal over a known variable. *)
Definition lit_known (s : state) (l : Z) : Prop :=
  known s l \/ known s (- l).

(** The state [s] comes after [b], keeps the invariant of the variable map,
    and holds only well-formed clauses. *)
Definition inv_lits (b s : state) : Prop :=
  wf s /\ ext b s /\ lits_ok s.

(** The character that separates the parts of a variable name. *)
Definition underscore : Ascii.ascii := Ascii.ascii_of_nat 95.

(** Does the character [c] occur in the string? *)
Fixpoint has_char (c : Ascii.ascii) (s : string) : bool :=
  match s with
  | EmptyString => false
  | String c' s' => Ascii.eqb c' c || has_char c s'
  end.

(** The entries of the four variable tables, the name that the variable
    definitions give to each, and its id in the tables. *)
Inductive var_key :=
  | KeyL (k x y : Z)
  | KeyT (k x y : Z)
  | KeyS (k x y : Z)
  | KeyE (k x y : Z) (d : Dir).

Definition key_name (key : var_key) : string :=
  match key with
  | KeyL k x y => lname k x y
  | KeyT k x y => tname k x y
  | KeyS k x y => sname k x y
  | KeyE k x y d => ename k x y d
  end.

Definition table_id (t : tables) (key : var_key) : option Z :=
  match key with
  | KeyL k x y => Dict.get (L_vars t) (k, x, y)
  | KeyT k x y => Dict.get (T_vars t) (k, x, y)
  | KeyS k x y => Dict.get (S_vars t) (k, x, y)
  | KeyE k x y d => Dict.get (E_vars t) (k, x, y, d)
  end.

(* ================================================================== *)
(** * Properties *)

(** ** Dictionaries *)

Section DictFacts.
Context {K V : Type} `{EqDecision K}.
Implicit Types (d : Dict.t K V) (k : K) (v : V).

Lemma get_set_eq d k v : Dict.get (Dict.set d k v) k = Some v.
Proof.
  induction d as [|[k' v'] d IH]; simpl.
  - by rewrite decide_True.
  - destruct (decide (k' = k)) as [->|Hne]; simpl.
    + by rewrite decide_True.
    + by rewrite decide_False.
Qed.

Lemma get_set_ne d k k' v :
  k <> k' -> Dict.get (Dict.set d k v) k' = Dict.get d k'.
Proof.
  intros Hne. induction d as [|[k0 v0] d IH]; simpl.
  - by rewrite decide_False.
  - destruct (decide (k0 = k)) as [->|Hne0]; simpl.
    + by rewrite !decide_False.
    + destruct (decide (k0 = k')); auto.
Qed.

Lemma get_set d k k' v :
  Dict.get (Dict.set d k v) k' =
  if decide (k = k') then Some v else Dict.get d k'.
Proof.
  destruct (decide (k = k')) as [->|Hne].
  - apply get_set_eq.
  - by apply get_set_ne.
Qed.

Lemma get_Some_In d k v : Dict.get d k = Some v -> (k, v) ∈ d.
Proof.
  induction d as [|[k' v'] d IH]; simpl; [done|].
  destruct (decide (k' = k)) as [->|Hne].
  - intros [= ->]. apply list_elem_of_here.
  - intros Hg. apply list_elem_of_further. auto.
Qed.

Lemma get_None_keys d k : Dict.get d k = None <-> k ∉ Dict.keys d.
Proof.
  unfold Dict.keys. induction d as [|[k' v'] d IH]; simpl.
  - split; [intros _; apply not_elem_of_nil | done].
  - rewrite not_elem_of_cons. destruct (decide (k' = k)) as [->|Hne].
    + split; [done | intros [? _]; done].
    + rewrite IH. split; [intros ?; split; auto | intros [_ ?]; done].
Qed.

Lemma In_keys_get d k : k ∈ Dict.keys d -> is_Some (Dict.get d k).
Proof.
  intros Hin. destruct (Dict.get d k) eqn:E; [eauto|].
  apply get_None_keys in E. done.
Qed.

(** A key set on an absent key goes to the end. *)
Lemma set_fresh d k v :
  Dict.get d k = None -> Dict.set d k v = d ++ [(k, v)].
Proof.
  induction d as [|[k' v'] d IH]; simpl; [done|].
  destruct (decide (k' = k)); [done|]. intros Hg. by rewrite IH.
Qed.

Lemma keys_set_fresh d k v :
  Dict.get d k = None -> Dict.keys (Dict.set d k v) = Dict.keys d ++ [k].
Proof.
  intros Hg. rewrite set_fresh by done. unfold Dict.keys.
  by rewrite map_app.
Qed.

Lemma keys_set_present d k v :
  is_Some (Dict.get d k) -> Dict.keys (Dict.set d k v) = Dict.keys d.
Proof.
  unfold Dict.keys. induction d as [|[k' v'] d IH]; simpl.
  - intros [? ?]; done.
  - destruct (decide (k' = k)) as [->|Hne]; simpl; [done|].
    intros Hs. by rewrite IH.
Qed.

Lemma NoDup_keys_In_get d k v :
  NoDup (Dict.keys d) -> (k, v) ∈ d -> Dict.get d k = Some v.
Proof.
  unfold Dict.keys. induction d as [|[k' v'] d IH]; simpl.
  - intros _ Hin. by apply elem_of_nil in Hin.
  - intros Hnd Hin. apply NoDup_cons in Hnd as [Hni Hnd].
    apply elem_of_cons in Hin as [[= <- <-]|Hin].
    + by rewrite decide_True.
    + destruct (decide (k' = k)) as [->|Hne]; [|auto].
      exfalso. apply Hni. apply list_elem_of_fmap. by exists (k, v).
Qed.
End DictFacts.

(* ------------------------------------------------------------------ *)
(** ** The search of the decoder terminates within its bound *)

Section Bfs.
Variable adj : adjacency.
Variable end_ : cell.

Lemma get_adj_entries c l :
  Dict.get adj c = Some l -> forall nb, nb ∈ l -> nb ∈ adj_entries adj.
Proof.
  intros Hg nb Hnb. apply get_Some_In in Hg.
  unfold adj_entries. induction adj as [|[c' l'] d IH]; simpl.
  - by apply elem_of_nil in Hg.
  - apply elem_of_app. apply elem_of_cons in Hg as [[= <- <-]|Hin].
    + by left.
    + right. by apply IH.
Qed.

Lemma unvisited_le (es : list (cell * Dir)) (v : list cell) (c : cell) :
  (length (filter (fun nb : cell * Dir => nb.1 ∉ v ++ [c]) es)
   <= length (filter (fun nb : cell * Dir => nb.1 ∉ v) es))%nat.
Proof.
  induction es as [|e es IH]; simpl; [lia|].
  rewrite !filter_cons.
  destruct (decide (e.1 ∉ v ++ [c])) as [Hn|Hn];
    destruct (decide (e.1 ∉ v)) as [Hv|Hv]; simpl; try lia.
  exfalso. apply Hv. intros Hin. apply Hn. apply elem_of_app. by left.
Qed.

Lemma unvisited_lt (es : list (cell * Dir)) (v : list cell)
    (nb : cell * Dir) :
  nb ∈ es -> nb.1 ∉ v ->
  (length (filter (fun e : cell * Dir => e.1 ∉ v ++ [nb.1]) es)
   < length (filter (fun e : cell * Dir => e.1 ∉ v) es))%nat.
Proof.
  intros Hin Hnv. induction es as [|e es IH]; simpl.
  - by apply elem_of_nil in Hin.
  - rewrite !filter_cons. apply elem_of_cons in Hin as [<-|Hin].
    + rewrite decide_False.
      2:{ intros Hn. apply Hn. apply elem_of_app. right.
          apply list_elem_of_here. }
      rewrite decide_True by done. simpl.
      pose proof (unvisited_le es v nb.1). lia.
    + specialize (IH Hin).
      destruct (decide (e.1 ∉ v ++ [nb.1])) as [Hn|Hn];
        destruct (decide (e.1 ∉ v)) as [Hv|Hv]; simpl; try lia.
      exfalso. apply Hv. intros Hi. apply Hn. apply elem_of_app. by left.
Qed.

Lemma bfs_visit_measure path nbs st :
  (forall nb, nb ∈ nbs -> nb ∈ adj_entries adj) ->
  (bfs_measure adj (bfs_visit path nbs st) <= bfs_measure adj st)%nat.
Proof.
  revert st. induction nbs as [|[np d] nbs IH]; intros [q v] Hsub.
  - simpl. lia.
  - unfold bfs_visit. simpl fold_left.
    assert (Hrest : forall nb, nb ∈ nbs -> nb ∈ adj_entries adj).
    { intros nb Hnb. apply Hsub. by apply list_elem_of_further. }
    destruct (decide (np ∈ v)) as [Hv|Hv].
    + apply (IH (q, v) Hrest).
    + etransitivity; [apply (IH _ Hrest)|].
      unfold bfs_measure. simpl. rewrite length_app. simpl.
      assert (Hin : (np, d) ∈ adj_entries adj)
        by (apply Hsub; apply list_elem_of_here).
      pose proof (unvisited_lt (adj_entries adj) v (np, d) Hin Hv) as Hlt.
      simpl in Hlt. lia.
Qed.

(** With more fuel than the measure, the loop ends by itself. *)
Lemma bfs_loop_fuel fuel st :
  (bfs_measure adj st < fuel)%nat -> is_Some (bfs_loop fuel adj end_ st).
Proof.
  revert st. induction fuel as [|fuel IH]; intros [q v] Hm; [lia|].
  simpl. destruct q as [|[cur path] q]; [eauto|].
  destruct (decide (cur = end_)); [eauto|].
  apply IH.
  eapply Nat.le_lt_trans.
  - apply bfs_visit_measure. intros nb Hnb.
    destruct (Dict.get adj cur) as [l|] eqn:Hg; simpl in Hnb.
    + eapply get_adj_entries; eauto.
    + by apply elem_of_nil in Hnb.
  - unfold bfs_measure in *. simpl in *. lia.
Qed.

(** More fuel does not change a result. *)
Lemma bfs_loop_mono fuel fuel' st r :
  bfs_loop fuel adj end_ st = Some r -> (fuel <= fuel')%nat ->
  bfs_loop fuel' adj end_ st = Some r.
Proof.
  revert fuel' st. induction fuel as [|fuel IH]; intros fuel' st; [done|].
  destruct fuel' as [|fuel']; [lia|]. simpl.
  destruct st.1 as [|[cur path] q]; [done|].
  destruct (decide (cur = end_)); [done|].
  intros Hr Hle. apply IH; [done | lia].
Qed.

(** The bound of [perform_bfs_search] is never reached. *)
Lemma bfs_bound_enough start :
  is_Some (bfs_loop (bfs_bound adj) adj end_ ([(start, [])], [start])).
Proof.
  apply bfs_loop_fuel. unfold bfs_measure, bfs_bound. simpl.
  pose proof (length_filter (fun nb : cell * Dir => nb.1 ∉ [start])
                            (adj_entries adj)) as Hle.
  unfold adj_entries in *. lia.
Qed.

(** So a result found with any amount of fuel is the result of
    [perform_bfs_search]. *)
Lemma perform_bfs_search_fuel fuel start r :
  bfs_loop fuel adj end_ ([(start, [])], [start]) = Some r ->
  perform_bfs_search adj start end_ = r.
Proof.
  intros Hr. unfold perform_bfs_search.
  destruct (bfs_bound_enough start) as [r' Hr'].
  rewrite Hr'.
  pose proof (bfs_loop_mono _ (max fuel (bfs_bound adj)) _ _ Hr
                (Nat.le_max_l _ _)) as H1.
  pose proof (bfs_loop_mono _ (max fuel (bfs_bound adj)) _ _ Hr'
                (Nat.le_max_r _ _)) as H2.
  congruence.
Qed.
End Bfs.

(* ------------------------------------------------------------------ *)
(** ** The main loop of the decoder *)

Lemma py_index_nat {A} (l : list A) (i : nat) :
  (i < length l)%nat -> py_index l (Z.of_nat i) = l !! i.
Proof.
  intros Hi. unfold py_index.
  rewrite decide_True by lia. by rewrite Nat2Z.id.
Qed.

Lemma py_index_range {A} (l : list A) (k : Z) :
  0 <= k < Z.of_nat (length l) -> is_Some (py_index l k).
Proof.
  intros Hk. unfold py_index. rewrite decide_True by done.
  apply lookup_lt_is_Some. lia.
Qed.

Lemma decoding_loop_spec ks lines_spec E_true acc :
  (forall k, k ∈ ks -> is_Some (py_index lines_spec k)) ->
  exists b out,
    decoding_loop ks lines_spec E_true acc = Some (b, out) /\
    if b then
      exists lines, out = acc ++ lines /\
                    Forall2 (line_found lines_spec E_true) ks lines
    else
      exists k s e, k ∈ ks /\ py_index lines_spec k = Some (s, e) /\
                    find_path_bfs k s e E_true = None.
Proof.
  revert acc. induction ks as [|k ks IH]; intros acc Hidx; simpl.
  - exists true, acc. split; [done|]. exists []. by rewrite app_nil_r.
  - destruct (Hidx k (list_elem_of_here _ _)) as [[s e] Hk]. rewrite Hk.
    destruct (find_path_bfs k s e E_true) as [p|] eqn:Hp.
    + destruct (IH (acc ++ [path_line p])) as (b & out & Hrun & Hres).
      { intros k' Hk'. apply Hidx. by apply list_elem_of_further. }
      exists b, out. split; [done|]. destruct b.
      * destruct Hres as (lines & -> & Hall).
        exists (path_line p :: lines). split; [by rewrite <- app_assoc|].
        constructor; [|done]. by exists s, e, p.
      * destruct Hres as (k' & s' & e' & Hin & Hk' & Hnone).
        exists k', s', e'. split; [by apply list_elem_of_further | done].
    + exists false, acc. split; [done|].
      exists k, s, e. split; [apply list_elem_of_here | done].
Qed.

(** The loop over [range(K)] when the metadata holds [K] lines. *)
Lemma decoding_loop_range K lines_spec E_true :
  Z.to_nat K = length lines_spec ->
  exists b out,
    decoding_loop (range 0 K) lines_spec E_true [] = Some (b, out) /\
    if b then
      length out = length lines_spec /\
      forall (k : nat) s e,
        lines_spec !! k = Some (s, e) ->
        exists p, find_path_bfs (Z.of_nat k) s e E_true = Some p /\
                  out !! k = Some (path_line p)
    else
      exists (k : nat) s e,
        lines_spec !! k = Some (s, e) /\
        find_path_bfs (Z.of_nat k) s e E_true = None.
Proof.
  intros HK.
  destruct (decoding_loop_spec (range 0 K) lines_spec E_true []) as
    (b & out & Hrun & Hres).
  { intros k Hk. apply elem_of_seqZ in Hk. apply py_index_range. lia. }
  exists b, out. split; [done|]. destruct b.
  - destruct Hres as (lines & -> & Hall). simpl.
    pose proof (Forall2_length _ _ _ Hall) as Hlen.
    unfold range in Hlen. rewrite length_seqZ in Hlen.
    split; [lia|]. intros k s e Hk.
    assert (Hlt : (k < length lines_spec)%nat)
      by (apply lookup_lt_is_Some; eauto).
    assert (Hkk : range 0 K !! k = Some (Z.of_nat k)).
    { unfold range. apply lookup_seqZ. lia. }
    destruct (Forall2_lookup_l _ _ _ _ _ Hall Hkk) as (l & Hl & Hf).
    destruct Hf as (s' & e' & p & Hidx & Hp & ->).
    rewrite py_index_nat in Hidx by done.
    rewrite Hk in Hidx. injection Hidx as <- <-. by exists p.
  - destruct Hres as (k & s & e & Hin & Hidx & Hnone).
    apply elem_of_seqZ in Hin.
    exists (Z.to_nat k), s, e.
    rewrite <- (Z2Nat.id k) in Hidx by lia.
    rewrite py_index_nat in Hidx by lia.
    rewrite Z2Nat.id by lia. done.
Qed.

(** C10.  The decoder's output is all-or-nothing: run on metadata that holds
    [K] lines, [decode.py] always writes its file, and what it writes is
    either the single marker line ["0"] or exactly one direction-token line
    per line index, each the path found for that line; as soon as the path of
    one line is not found, the file holds the marker alone. *)
Theorem decode_all_or_nothing (K : Z) (lines_spec : list (cell * cell))
    (sat : solver_output) :
  Z.to_nat K = length lines_spec ->
  exists d,
    decode K lines_spec sat = Some d /\
    (written d = ["0"] \/
     exists E_true,
       sat = SAT E_true /\
       length (written d) = length lines_spec /\
       forall (k : nat) s e,
         lines_spec !! k = Some (s, e) ->
         exists p, find_path_bfs (Z.of_nat k) s e E_true = Some p /\
                   written d !! k = Some (path_line p)) /\
    (forall E_true (k : nat) s e,
       sat = SAT E_true ->
       lines_spec !! k = Some (s, e) ->
       find_path_bfs (Z.of_nat k) s e E_true = None ->
       written d = ["0"]).
Proof.
  intros HK. destruct sat as [|E_true]; simpl.
  - exists (mkDecoded ["0"] 0). split; [done|]. split; [by left | done].
  - destruct (decoding_loop_range K lines_spec E_true HK) as
      (b & out & -> & Hres).
    destruct b.
    + destruct Hres as [Hlen Hall].
      exists (mkDecoded out 0). split; [done|]. split.
      * right. exists E_true. done.
      * intros E' k s e [= <-] Hk Hnone.
        destruct (Hall k s e Hk) as (p & Hp & _). congruence.
    + exists (mkDecoded ["0"] 0). split; [done|]. split; [by left | done].
Qed.

Lemma decode_all_or_nothing_witness :
  exists d,
    decode 1 [((0, 0), (2, 0))] (SAT [(0, 0, 0, DirR)]) = Some d /\
    written d = ["0"].
Proof.
  destruct (decode_all_or_nothing 1 [((0, 0), (2, 0))]
              (SAT [(0, 0, 0, DirR)]) eq_refl) as (d & Hd & _ & Hfail).
  exists d. split; [exact Hd|].
  apply (Hfail [(0, 0, 0, DirR)] 0%nat (0, 0) (2, 0)); reflexivity.
Defined.

(** C3, as the code has it.  When the solver reports success but the true
    edge variables give no path for some line, the decoder writes the single
    marker line ["0"] and ends with status 0, exactly as it does in the
    [UNSAT] case: the two outcomes are the same result. *)
Theorem decode_inconsistency_is_unsat (K : Z)
    (lines_spec : list (cell * cell)) (E_true : list edge)
    (k : nat) (s e : cell) :
  Z.to_nat K = length lines_spec ->
  lines_spec !! k = Some (s, e) ->
  find_path_bfs (Z.of_nat k) s e E_true = None ->
  decode K lines_spec (SAT E_true) = Some (mkDecoded ["0"] 0) /\
  decode K lines_spec (SAT E_true) = decode K lines_spec UNSAT.
Proof.
  intros HK Hk Hnone.
  assert (Hd : decode K lines_spec (SAT E_true) = Some (mkDecoded ["0"] 0)).
  { simpl.
    destruct (decoding_loop_range K lines_spec E_true HK) as
      (b & out & -> & Hres).
    destruct b; [|done].
    destruct Hres as [_ Hall].
    destruct (Hall k s e Hk) as (p & Hp & _). congruence. }
  split; [exact Hd | by rewrite Hd].
Qed.

Lemma decode_inconsistency_is_unsat_witness :
  decode 1 [((0, 0), (2, 0))] (SAT [(0, 0, 0, DirR)])
  = decode 1 [((0, 0), (2, 0))] UNSAT.
Proof.
  apply (decode_inconsistency_is_unsat 1 [((0, 0), (2, 0))]
           [(0, 0, 0, DirR)] 0%nat (0, 0) (2, 0)); reflexivity.
Defined.

(** C3, as the claim states it, fails: here the solver's assignment has no
    path from (0,0) to (2,0) for line 0, and the decoder's result is the one
    of the [UNSAT] case. *)
Lemma decode_inconsistency_not_distinct :
  find_path_bfs 0 (0, 0) (2, 0) [(0, 0, 0, DirR)] = None /\
  ~ (decode 1 [((0, 0), (2, 0))] (SAT [(0, 0, 0, DirR)])
     <> decode 1 [((0, 0), (2, 0))] UNSAT).
Proof.
  split; [reflexivity|]. intros Hne. apply Hne. reflexivity.
Qed.

(* ------------------------------------------------------------------ *)
(** ** The decoder follows a simple path *)

Lemma step_rev (c : cell) (d : Dir) :
  let n := step c.1 c.2 d in step n.1 n.2 (REV_DIRS d) = c.
Proof.
  destruct c as [x y], d; unfold step; simpl; f_equal; lia.
Qed.

(** The entries under [c] are the steps of the true edges that leave [c]. *)
Lemma elem_of_neighbours_of k E_true c nb d :
  (nb, d) ∈ neighbours_of k E_true c <->
  (k, c.1, c.2, d) ∈ E_true /\ nb = step c.1 c.2 d.
Proof.
  unfold neighbours_of. rewrite list_elem_of_omap. split.
  - intros ([[[kk x] y] D] & Hin & Hsome).
    destruct (decide (kk = k /\ (x, y) = c)) as [[-> <-]|]; [|done].
    injection Hsome as <- <-. done.
  - intros [Hin ->]. exists (k, c.1, c.2, d). split; [done|].
    rewrite decide_True; [done|]. by destruct c.
Qed.

Lemma build_adjacency_fold k E_true (acc : adjacency) c :
  default [] (Dict.get
    (fold_left
       (fun (adjacency : adjacency) (e : edge) =>
          let '(kk, x, y, D) := e in
          if decide (kk <> k) then adjacency
          else
            let '(nx, ny) := step x y D in
            let adjacency :=
              match Dict.get adjacency (x, y) with
              | None => Dict.set adjacency (x, y) []
              | Some _ => adjacency
              end in
            Dict.set adjacency (x, y)
              (default [] (Dict.get adjacency (x, y)) ++ [((nx, ny), D)]))
       E_true acc) c)
  = default [] (Dict.get acc c) ++ neighbours_of k E_true c.
Proof.
  revert acc. induction E_true as [|[[[kk x] y] D] E IH]; intros acc.
  - simpl. by rewrite app_nil_r.
  - simpl fold_left. rewrite IH. unfold neighbours_of at 2. simpl omap.
    fold (neighbours_of k E c).
    destruct (decide (kk <> k)) as [Hne|Heq].
    + rewrite decide_False by (intros [? _]; done). done.
    + assert (kk = k) as -> by (destruct (decide (kk = k)); done).
      destruct (step x y D) as [nx ny] eqn:Hstep.
      set (acc2 := match Dict.get acc (x, y) with
                   | None => Dict.set acc (x, y) []
                   | Some _ => acc
                   end).
      assert (Hacc2 : forall c', default [] (Dict.get acc2 c')
                                 = default [] (Dict.get acc c')).
      { intros c'. unfold acc2.
        destruct (Dict.get acc (x, y)) eqn:Hg; [done|].
        rewrite get_set. case_decide as Hc; [|done].
        subst c'. by rewrite Hg. }
      rewrite get_set. case_decide as Hc.
      * subst c. rewrite decide_True by done. simpl.
        rewrite Hacc2, <- app_assoc. done.
      * rewrite decide_False by (intros [_ ?]; done).
        by rewrite Hacc2.
Qed.

Lemma build_adjacency_get k E_true c :
  default [] (Dict.get (build_adjacency_list_for_line k E_true) c)
  = neighbours_of k E_true c.
Proof. unfold build_adjacency_list_for_line. by rewrite build_adjacency_fold. Qed.

Lemma bfs_visit_skip path nbs (q : list (cell * list Dir)) (v : list cell) :
  (forall nb d, (nb, d) ∈ nbs -> nb ∈ v) ->
  bfs_visit path nbs (q, v) = (q, v).
Proof.
  induction nbs as [|[nb d] nbs IH]; intros Hall; [done|].
  unfold bfs_visit. simpl fold_left.
  rewrite decide_True by (eapply Hall; apply list_elem_of_here).
  apply IH. intros nb' d' Hin. eapply Hall. by apply list_elem_of_further.
Qed.

(** Visiting neighbours of which only [q1] is new queues [q1] once. *)
Lemma bfs_visit_single path nbs (v : list cell) (q1 : cell) (r0 : Dir) :
  (forall nb d, (nb, d) ∈ nbs -> (nb = q1 /\ d = r0) \/ nb ∈ v) ->
  (q1, r0) ∈ nbs ->
  q1 ∉ v ->
  bfs_visit path nbs ([], v) = ([(q1, path ++ [r0])], v ++ [q1]).
Proof.
  intros Hall Hin Hnv. induction nbs as [|[nb d] nbs IH].
  - by apply elem_of_nil in Hin.
  - unfold bfs_visit. simpl fold_left.
    destruct (decide (nb ∈ v)) as [Hv|Hv].
    + apply IH.
      * intros nb' d' Hin'. apply Hall. by apply list_elem_of_further.
      * apply elem_of_cons in Hin as [[= <- <-]|Hin]; done.
    + destruct (Hall nb d (list_elem_of_here _ _)) as [[-> ->]|]; [|done].
      simpl. apply bfs_visit_skip. intros nb' d' Hin'.
      destruct (Hall nb' d' (list_elem_of_further _ _ _ Hin'))
        as [[-> _]|Hv'].
      * apply elem_of_app. right. apply list_elem_of_here.
      * apply elem_of_app. by left.
Qed.

Lemma elem_of_tail {A} (x : A) (l : list A) : x ∈ tail l -> x ∈ l.
Proof.
  destruct l; simpl; [done|]. apply list_elem_of_further.
Qed.

Lemma walk_head c dirs : c ∈ walk c dirs.
Proof. destruct dirs; apply list_elem_of_here. Qed.

Lemma path_steps_walk c dirs a d b :
  (a, d, b) ∈ path_steps c dirs ->
  a ∈ walk c dirs /\ b ∈ walk c dirs /\ b = step a.1 a.2 d /\
  (b ∈ walk c dirs -> a <> c -> a <> c).
Proof.
  revert c. induction dirs as [|d0 dirs IH]; intros c Hin; simpl in *.
  - by apply elem_of_nil in Hin.
  - apply elem_of_cons in Hin as [[= -> -> ->]|Hin].
    + split; [apply list_elem_of_here|]. split; [|done].
      apply list_elem_of_further, walk_head.
    + destruct (IH _ Hin) as (Ha & Hb & Hs & _).
      split; [by apply list_elem_of_further|].
      split; [by apply list_elem_of_further|]. done.
Qed.

(** The target of a step of the walk is never the first cell of a walk
    without repetition. *)
Lemma path_steps_target c dirs a d b :
  (a, d, b) ∈ path_steps c dirs -> b ∈ tail (walk c dirs).
Proof.
  revert c. induction dirs as [|d0 dirs IH]; intros c Hin; simpl in *.
  - by apply elem_of_nil in Hin.
  - apply elem_of_cons in Hin as [[= -> -> ->]|Hin].
    + apply walk_head.
    + specialize (IH _ Hin). destruct dirs; simpl in *.
      * by apply elem_of_nil in IH.
      * by apply list_elem_of_further.
Qed.

Section Follow.
Variables (k : Z) (E_true : list edge) (end_ : cell).

Lemma bfs_loop_unfold fuel (adj : adjacency) st :
  bfs_loop (S fuel) adj end_ st =
  match st.1 with
  | [] => Some None
  | (current, path_so_far) :: queue =>
      if decide (current = end_) then Some (Some path_so_far)
      else bfs_loop fuel adj end_
             (bfs_visit path_so_far (default [] (Dict.get adj current))
                        (queue, st.2))
  end.
Proof. done. Qed.

(** From a cell of the path, with the cells before it visited and those
    after it not, the search walks the rest of the path. *)
Lemma bfs_follows rest : forall cur pre visited,
  NoDup (walk cur rest) ->
  last (walk cur rest) = Some end_ ->
  cur ∈ visited ->
  (forall c, c ∈ tail (walk cur rest) -> c ∉ visited) ->
  (forall a d b, (a, d, b) ∈ path_steps cur rest ->
                 (b, d) ∈ neighbours_of k E_true a) ->
  (forall c nb d, c ∈ walk cur rest -> (nb, d) ∈ neighbours_of k E_true c ->
     nb ∈ visited \/ (c, d, nb) ∈ path_steps cur rest \/
     exists d', (nb, d', c) ∈ path_steps cur rest) ->
  bfs_loop (S (length rest)) (build_adjacency_list_for_line k E_true)
           end_ ([(cur, pre)], visited)
  = Some (Some (pre ++ rest)).
Proof.
  induction rest as [|r0 rest IH];
    intros cur pre visited Hnd Hlast Hcur Hlater Hfwd Hnbs.
  - simpl in *. injection Hlast as <-.
    rewrite decide_True by done. by rewrite app_nil_r.
  - set (q1 := step cur.1 cur.2 r0).
    assert (Hwalk : walk cur (r0 :: rest) = cur :: walk q1 rest) by done.
    rewrite Hwalk in Hnd. apply NoDup_cons in Hnd as [Hcur_notin Hnd'].
    assert (Hend : end_ ∈ walk q1 rest).
    { rewrite Hwalk in Hlast. rewrite last_cons in Hlast.
      destruct (last (walk q1 rest)) as [z|] eqn:Hl.
      - injection Hlast as <-. apply last_Some in Hl as [l' ->].
        apply elem_of_app. right. apply list_elem_of_here.
      - apply last_None in Hl.
        pose proof (walk_head q1 rest) as Hh. rewrite Hl in Hh.
        by apply elem_of_nil in Hh. }
    rewrite bfs_loop_unfold. cbn [fst snd].
    rewrite decide_False by (intros ->; done).
    rewrite build_adjacency_get.
    rewrite (bfs_visit_single pre _ visited q1 r0).
    + replace (pre ++ r0 :: rest) with ((pre ++ [r0]) ++ rest)
        by (by rewrite <- app_assoc).
      apply IH.
      * done.
      * rewrite Hwalk, last_cons in Hlast.
        destruct (last (walk q1 rest)) eqn:Hl; [done|].
        apply last_None in Hl.
        pose proof (walk_head q1 rest) as Hh. rewrite Hl in Hh.
        by apply elem_of_nil in Hh.
      * apply elem_of_app. right. apply list_elem_of_here.
      * intros c Hc Hin. apply elem_of_app in Hin as [Hin|Hin].
        -- apply (Hlater c); [|done]. rewrite Hwalk. simpl.
           destruct rest; simpl in *;
             [by apply elem_of_nil in Hc | by apply list_elem_of_further].
        -- apply list_elem_of_singleton in Hin as ->.
           destruct rest as [|r1 rest]; simpl in Hc;
             [by apply elem_of_nil in Hc|].
           simpl in Hnd'. apply NoDup_cons in Hnd' as [Hq1 _]. done.
      * intros a d b Hin. apply Hfwd. simpl.
        by apply list_elem_of_further.
      * intros c nb d Hc Hin.
        destruct (Hnbs c nb d) as [Hv|[Hs|[d' Hs]]].
        -- rewrite Hwalk. by apply list_elem_of_further.
        -- done.
        -- left. apply elem_of_app. by left.
        -- simpl in Hs. apply elem_of_cons in Hs as [[= -> _ _]|Hs];
             [done | by right; left].
        -- simpl in Hs. apply elem_of_cons in Hs as [[= -> _ _]|Hs].
           ++ left. apply elem_of_app. by left.
           ++ right. right. by exists d'.
    + intros nb d Hin.
      destruct (Hnbs cur nb d) as [Hv|[Hs|[d' Hs]]].
      * apply walk_head.
      * done.
      * by right.
      * simpl in Hs. apply elem_of_cons in Hs as [[= -> ->]|Hs];
          [by left|].
        apply path_steps_walk in Hs as (Ha & _). done.
      * simpl in Hs. apply elem_of_cons in Hs as [[= _ _ Heq]|Hs].
        -- exfalso. apply Hcur_notin. fold q1 in Heq. rewrite Heq.
           apply walk_head.
        -- apply path_steps_target in Hs. exfalso. apply Hcur_notin.
           by apply elem_of_tail.
    + apply Hfwd. simpl. apply list_elem_of_here.
    + apply Hlater. rewrite Hwalk. simpl. apply walk_head.
Qed.
End Follow.

Lemma path_steps_edges k c dirs a d b :
  (a, d, b) ∈ path_steps c dirs ->
  (k, a.1, a.2, d) ∈ path_edges k c dirs /\ b = step a.1 a.2 d.
Proof.
  revert c. induction dirs as [|d0 dirs IH]; intros c Hin; simpl in *.
  - by apply elem_of_nil in Hin.
  - apply elem_of_cons in Hin as [[= -> -> ->]|Hin].
    + split; [apply list_elem_of_here | done].
    + destruct (IH _ Hin) as [He Hb].
      split; [by apply list_elem_of_further | done].
Qed.

Lemma path_edges_steps k c dirs x y d :
  (k, x, y, d) ∈ path_edges k c dirs ->
  ((x, y), d, step x y d) ∈ path_steps c dirs.
Proof.
  revert c. induction dirs as [|d0 dirs IH]; intros c Hin; simpl in *.
  - by apply elem_of_nil in Hin.
  - apply elem_of_cons in Hin as [[= -> -> ->]|Hin].
    + destruct c. apply list_elem_of_here.
    + apply list_elem_of_further. by apply IH.
Qed.

Lemma rev_edges_steps k c dirs x y d :
  (k, x, y, d) ∈ rev_edges k c dirs ->
  exists a d', (a, d', (x, y)) ∈ path_steps c dirs /\ d = REV_DIRS d'.
Proof.
  revert c. induction dirs as [|d0 dirs IH]; intros c Hin; simpl in *.
  - by apply elem_of_nil in Hin.
  - apply elem_of_cons in Hin as [[= -> -> ->]|Hin].
    + exists c, d0. split; [|done].
      destruct (step c.1 c.2 d0). apply list_elem_of_here.
    + destruct (IH _ Hin) as (a & d' & Hs & ->).
      exists a, d'. split; [by apply list_elem_of_further | done].
Qed.

(** On true edges that form a simple path, the search returns the
    directions of that path. *)
Lemma find_path_bfs_forms_path E_true k s e dirs :
  forms_path E_true k s e dirs -> find_path_bfs k s e E_true = Some dirs.
Proof.
  intros (Hnd & Hlast & Hfwd & Hall). unfold find_path_bfs.
  apply (perform_bfs_search_fuel _ _ (S (length dirs))).
  change (Some (Some dirs)) with (Some (Some ([] ++ dirs))).
  apply bfs_follows; try done.
  - apply list_elem_of_here.
  - intros c Hc Hin. apply list_elem_of_singleton in Hin as ->.
    destruct dirs as [|d0 dirs]; simpl in *; [by apply elem_of_nil in Hc|].
    apply NoDup_cons in Hnd as [Hs _]. done.
  - intros a d b Hin. apply (path_steps_edges k) in Hin as [He ->].
    apply elem_of_neighbours_of. split; [by apply Hfwd | done].
  - intros c nb d Hc Hin. apply elem_of_neighbours_of in Hin as [He ->].
    destruct (Hall _ He eq_refl) as [Hp|Hr].
    + right. left. apply path_edges_steps in Hp. by destruct c.
    + right. right. apply rev_edges_steps in Hr as (a & d' & Hs & ->).
      exists d'.
      pose proof (path_steps_edges k _ _ _ _ _ Hs) as [_ Hstep].
      pose proof (step_rev a d') as Hrev. simpl in Hrev.
      rewrite <- Hstep in Hrev. simpl in Hrev. rewrite Hrev.
      by destruct c.
Qed.

(** C5.  When, for every line, the true edge variables form one simple path
    from the line's start to its end, the decoder writes exactly one line of
    direction tokens per metro line, in index order 0..K-1, and the tokens of
    line [k] are the directions of the path of line [k]. *)
Theorem decode_reconstructs_paths (K : Z) (lines_spec : list (cell * cell))
    (E_true : list edge) (paths : list (list Dir)) :
  Z.to_nat K = length lines_spec ->
  length paths = length lines_spec ->
  (forall (k : nat) s e dirs,
     lines_spec !! k = Some (s, e) -> paths !! k = Some dirs ->
     forms_path E_true (Z.of_nat k) s e dirs) ->
  decode K lines_spec (SAT E_true)
  = Some (mkDecoded (map path_line paths) 0).
Proof.
  intros HK Hlen Hpaths.
  assert (Hfind : forall (k : nat) s e,
            lines_spec !! k = Some (s, e) ->
            exists dirs, paths !! k = Some dirs /\
                         find_path_bfs (Z.of_nat k) s e E_true = Some dirs).
  { intros k s e Hk.
    assert (Hlt : (k < length paths)%nat).
    { rewrite Hlen. apply lookup_lt_is_Some. eauto. }
    apply lookup_lt_is_Some in Hlt as [dirs Hd].
    exists dirs. split; [done|].
    apply find_path_bfs_forms_path. eauto. }
  simpl.
  destruct (decoding_loop_range K lines_spec E_true HK) as
    (b & out & -> & Hres).
  destruct b.
  - destruct Hres as [Hout Hall]. do 2 f_equal.
    apply (list_eq_same_length _ _ (length lines_spec)); [|done|].
    + by rewrite length_map.
    + intros i x y Hi Hx Hy.
      apply lookup_lt_is_Some in Hi as [[s e] Hk].
      destruct (Hall i s e Hk) as (p & Hp & Ho).
      destruct (Hfind i s e Hk) as (dirs & Hd & Hp').
      rewrite list_lookup_fmap, Hd in Hy. simpl in Hy. congruence.
  - destruct Hres as (k & s & e & Hk & Hnone).
    destruct (Hfind k s e Hk) as (dirs & _ & Hp). congruence.
Qed.

Lemma decode_reconstructs_paths_witness :
  decode 1 [((0, 0), (2, 0))]
         (SAT [(0, 2, 0, DirL); (0, 1, 0, DirR); (0, 0, 0, DirR);
               (0, 1, 0, DirL)])
  = Some (mkDecoded ["R R 0"] 0).
Proof.
  apply (decode_reconstructs_paths 1 [((0, 0), (2, 0))]
           [(0, 2, 0, DirL); (0, 1, 0, DirR); (0, 0, 0, DirR);
            (0, 1, 0, DirL)]
           [[DirR; DirR]]); [reflexivity | reflexivity |].
  intros [|k] s e dirs Hk Hd; [|discriminate].
  injection Hk as <- <-. injection Hd as <-.
  split; [|split; [reflexivity|split]].
  - apply (bool_decide_unpack _). vm_compute. exact I.
  - apply Forall_forall. apply (bool_decide_unpack _). vm_compute. exact I.
  - intros ed Hin _. revert ed Hin. apply Forall_forall.
    apply (bool_decide_unpack _). vm_compute. exact I.
Defined.

(* ------------------------------------------------------------------ *)
(** ** Running the encoder's monad *)

Lemma bind_inv {A B} (m : Enc A) (f : A -> Enc B) s b s2 :
  bind m f s = Some (b, s2) ->
  exists a s1, m s = Some (a, s1) /\ f a s1 = Some (b, s2).
Proof.
  unfold bind. destruct (m s) as [[a s1]|]; [|done]. eauto.
Qed.

Lemma bind_run {A B} (m : Enc A) (f : A -> Enc B) s a s1 :
  m s = Some (a, s1) -> bind m f s = f a s1.
Proof. unfold bind. by intros ->. Qed.

Lemma lift_inv {A} (o : option A) s a s' :
  lift o s = Some (a, s') -> o = Some a /\ s' = s.
Proof. destruct o; simpl; [|done]. unfold ret. by intros [= -> ->]. Qed.

Lemma ret_inv {A} (x : A) s a s' :
  ret x s = Some (a, s') -> a = x /\ s' = s.
Proof. unfold ret. by intros [= -> ->]. Qed.

Lemma add_clause_inv c s u s' :
  add_clause c s = Some (u, s') ->
  clauses s' = clauses s ++ [c] /\ next_var s' = next_var s /\
  var_to_id s' = var_to_id s /\ id_to_var s' = id_to_var s.
Proof. unfold add_clause. by intros [= <- <-]. Qed.

(** Takes apart the hypotheses that say that a computation ran. *)
Ltac inv_run :=
  repeat match goal with
    | H : bind _ _ _ = Some _ |- _ =>
        let a := fresh "a" in let s := fresh "s" in
        let H1 := fresh "Hrun" in
        apply bind_inv in H as (a & s & H1 & H)
    | H : lift _ _ = Some _ |- _ =>
        let E := fresh "Hget" in apply lift_inv in H as [E ->]
    | H : ret _ _ = Some _ |- _ => apply ret_inv in H as [-> ->]
    | H : raise _ = Some _ |- _ => discriminate H
    end.

(** ** The decimal text of an integer determines it *)

Lemma to_int_not_nil z :
  Z.to_int z <> Decimal.Pos Decimal.Nil /\
  Z.to_int z <> Decimal.Neg Decimal.Nil.
Proof.
  destruct z as [|p|p]; simpl; split; try discriminate; intros [= Hp];
    by apply DecimalPos.Unsigned.to_uint_nonnil in Hp.
Qed.

Lemma str_inj z1 z2 : str z1 = str z2 -> z1 = z2.
Proof.
  unfold str. intros Heq.
  apply (f_equal NilZero.int_of_string) in Heq.
  destruct (to_int_not_nil z1) as [H1 H1'].
  destruct (to_int_not_nil z2) as [H2 H2'].
  rewrite !NilZero.isi in Heq by done.
  injection Heq as Heq. apply (f_equal Z.of_int) in Heq.
  by rewrite !DecimalZ.of_to in Heq.
Qed.

(** ** The state only moves forward *)

Lemma ext_refl s : ext s s.
Proof. split; [done|]. split; done. Qed.

Lemma ext_trans s1 s2 s3 : ext s1 s2 -> ext s2 s3 -> ext s1 s3.
Proof.
  intros (Hp1 & Hn1 & Hw1) (Hp2 & Hn2 & Hw2).
  split; [by etransitivity|]. split; auto.
Qed.

Lemma ext_var s s' name vid :
  ext s s' -> Dict.get (var_to_id s) name = Some vid ->
  Dict.get (var_to_id s') name = Some vid.
Proof. intros (_ & Hv & _). apply Hv. Qed.

Lemma sat_ext a s s' : ext s s' -> sat a s' -> sat a s.
Proof.
  intros [[suffix Hp] _]. unfold sat, cnf_sat. rewrite Hp.
  rewrite forallb_app. by intros [? _]%andb_prop.
Qed.

Lemma sat_elem a s c : sat a s -> c ∈ clauses s -> clause_sat a c = true.
Proof.
  unfold sat, cnf_sat. rewrite forallb_forall. intros Hall Hin.
  apply Hall. by apply list_elem_of_In.
Qed.

Lemma ext_clause s s' c : ext s s' -> c ∈ clauses s -> c ∈ clauses s'.
Proof.
  intros [[suffix ->] _] Hin. apply elem_of_app. by left.
Qed.

Lemma new_var_wf name s vid s' :
  new_var name s = Some (vid, s') -> wf s -> wf s'.
Proof.
  unfold new_var. destruct (Dict.get (var_to_id s) name) as [v|] eqn:Hg.
  - by intros [= <- <-].
  - intros [= <- <-] [Hnext Hrange Hdense Hinj Hinv].
    constructor; simpl.
    + lia.
    + intros n v. rewrite get_set. case_decide.
      * intros [= <-]. lia.
      * intros Hn. apply Hrange in Hn. lia.
    + intros v Hv. destruct (decide (v = next_var s)) as [->|Hne].
      * exists name. by rewrite get_set_eq.
      * destruct (Hdense v) as [n Hn]; [lia|]. exists n.
        rewrite get_set_ne; [done|]. intros <-. congruence.
    + intros n1 n2 v. rewrite !get_set.
      repeat case_decide; subst; try done.
      * intros [= <-] Hn. apply Hrange in Hn. lia.
      * intros Hn [= <-]. apply Hrange in Hn. lia.
      * apply Hinj.
    + intros key nm. rewrite get_set. case_decide as Hk.
      * subst key. split.
        -- intros [= <-]. exists (next_var s). by rewrite get_set_eq.
        -- intros (v & Hv%str_inj & Hn). subst v.
           rewrite get_set in Hn. case_decide; [by subst|].
           apply Hrange in Hn. lia.
      * rewrite Hinv. split.
        -- intros (v & -> & Hn). exists v. split; [done|].
           rewrite get_set_ne; [done|]. intros <-. congruence.
        -- intros (v & -> & Hn). exists v. split; [done|].
           rewrite get_set in Hn. case_decide; [|done].
           injection Hn as <-. done.
Qed.

Lemma new_var_ext name s vid s' :
  new_var name s = Some (vid, s') -> ext s s'.
Proof.
  intros Hrun. split; [|split].
  - unfold new_var in Hrun.
    destruct (Dict.get (var_to_id s) name); injection Hrun as <- <-; done.
  - unfold new_var in Hrun. intros n v Hn.
    destruct (Dict.get (var_to_id s) name) eqn:Hg; injection Hrun as <- <-;
      simpl; [done|].
    rewrite get_set_ne; [done|]. intros <-. congruence.
  - by eapply new_var_wf.
Qed.

(** After [new_var], the name has the id that was returned. *)
Lemma new_var_get name s vid s' :
  new_var name s = Some (vid, s') ->
  Dict.get (var_to_id s') name = Some vid.
Proof.
  unfold new_var. destruct (Dict.get (var_to_id s) name) as [v|] eqn:Hg.
  - by intros [= <- <-].
  - intros [= <- <-]. simpl. apply get_set_eq.
Qed.

Lemma new_var_Total name : Total (new_var name).
Proof.
  intros s. unfold new_var. destruct (Dict.get (var_to_id s) name); eauto.
Qed.

(** The id returned by [new_var] is one of the ids handed out. *)
Lemma new_var_range name s vid s' :
  new_var name s = Some (vid, s') -> wf s -> 1 <= vid < next_var s'.
Proof.
  unfold new_var. destruct (Dict.get (var_to_id s) name) as [v|] eqn:Hg.
  - intros [= <- <-] Hwf. by eapply wf_range.
  - intros [= <- <-] Hwf. simpl. pose proof (wf_next _ Hwf). lia.
Qed.

Lemma add_clause_ext c s u s' : add_clause c s = Some (u, s') -> ext s s'.
Proof.
  unfold add_clause. intros [= <- <-]. split; [|split]; simpl.
  - by apply prefix_app_r.
  - done.
  - intros [? ? ? ? ?]. by constructor.
Qed.

Lemma Mono_ret {A} (x : A) : Mono (ret x).
Proof. intros s a s' [-> ->]%ret_inv. apply ext_refl. Qed.

Lemma Mono_raise {A} : Mono (@raise A).
Proof. intros s a s' H. discriminate H. Qed.

Lemma Mono_lift {A} (o : option A) : Mono (lift o).
Proof. intros s a s' [_ ->]%lift_inv. apply ext_refl. Qed.

Lemma Mono_bind {A B} (m : Enc A) (f : A -> Enc B) :
  Mono m -> (forall a, Mono (f a)) -> Mono (bind m f).
Proof.
  intros Hm Hf s b s' (a & s1 & H1 & H2)%bind_inv.
  eapply ext_trans; [by eapply Hm | by eapply Hf].
Qed.

Lemma Mono_add_clause c : Mono (add_clause c).
Proof. intros s a s'. apply add_clause_ext. Qed.

Lemma Mono_new_var name : Mono (new_var name).
Proof. intros s a s'. apply new_var_ext. Qed.

Lemma Mono_for_each {A} (l : list A) (body : A -> Enc unit) :
  (forall x, Mono (body x)) -> Mono (for_each l body).
Proof.
  intros Hb. induction l as [|x l IH]; simpl.
  - apply Mono_ret.
  - apply Mono_bind; [apply Hb | by intros _].
Qed.

Lemma Mono_foldM {A B} (body : A -> B -> Enc B) (l : list A) (b : B) :
  (forall x b, Mono (body x b)) -> Mono (foldM body l b).
Proof.
  intros Hb. revert b. induction l as [|x l IH]; intros b; simpl.
  - apply Mono_ret.
  - apply Mono_bind; [apply Hb | intros b'; apply IH].
Qed.

Lemma Mono_mapM {A B} (f : A -> Enc B) (l : list A) :
  (forall x, Mono (f x)) -> Mono (mapM f l).
Proof.
  intros Hf. induction l as [|x l IH]; simpl.
  - apply Mono_ret.
  - apply Mono_bind; [apply Hf|]. intros y.
    apply Mono_bind; [apply IH|]. intros ys. apply Mono_ret.
Qed.

(** Proves that a computation built from the combinators is [Mono]. *)
Create HintDb mono.

Ltac mono :=
  repeat first
    [ solve [auto 1 with mono nocore]
    | apply Mono_ret | apply Mono_raise | apply Mono_lift
    | apply Mono_add_clause | apply Mono_new_var
    | apply Mono_bind; [|intros ?]
    | apply Mono_for_each; intros ?
    | apply Mono_foldM; intros ? ?
    | apply Mono_mapM; intros ?
    | progress (intros; simpl)
    | match goal with
      | |- Mono (match ?x with _ => _ end) => destruct x
      | |- Mono (let '(_, _) := ?x in _) => destruct x
      end
    | assumption ].

(* ------------------------------------------------------------------ *)
(** ** Every step of the encoder moves the state forward *)

Lemma at_most_one_Mono l : Mono (at_most_one l).
Proof. unfold at_most_one. mono. Qed.
#[local] Hint Resolve at_most_one_Mono : mono.

Lemma exactly_k_if_L_Mono l_var e_vars k : Mono (exactly_k_if_L l_var e_vars k).
Proof. unfold exactly_k_if_L. mono. Qed.
#[local] Hint Resolve exactly_k_if_L_Mono : mono.

Lemma cell_of_Mono mtx i j : Mono (cell_of mtx i j).
Proof. unfold cell_of. mono. Qed.
#[local] Hint Resolve cell_of_Mono : mono.

Lemma _initialize_base_constraints_Mono vars mtx k :
  Mono (_initialize_base_constraints vars mtx k).
Proof. unfold _initialize_base_constraints. mono. Qed.
#[local] Hint Resolve _initialize_base_constraints_Mono : mono.

Lemma _propagate_constraints_Mono i vars mtx k :
  Mono (_propagate_constraints i vars mtx k).
Proof. unfold _propagate_constraints. mono. Qed.
#[local] Hint Resolve _propagate_constraints_Mono : mono.

Lemma add_at_most_k_constraint_Mono vars k prefix :
  Mono (add_at_most_k_constraint vars k prefix).
Proof. unfold add_at_most_k_constraint. mono. Qed.
#[local] Hint Resolve add_at_most_k_constraint_Mono : mono.

Lemma define_cell_Mono N M k start end_ x y t :
  Mono (define_cell N M k start end_ x y t).
Proof. unfold define_cell. mono. Qed.
#[local] Hint Resolve define_cell_Mono : mono.

Lemma define_variables_Mono N M lines_spec :
  Mono (define_variables N M lines_spec).
Proof. unfold define_variables. mono. Qed.
#[local] Hint Resolve define_variables_Mono : mono.

Lemma turn_pair_clause_Mono sp E k x y l t pr :
  Mono (turn_pair_clause sp E k x y l t pr).
Proof. unfold turn_pair_clause. mono. Qed.
#[local] Hint Resolve turn_pair_clause_Mono : mono.

Lemma turn_items_loop_Mono sp T L E k :
  Mono (turn_items_loop sp T L E k).
Proof. unfold turn_items_loop. mono. Qed.
#[local] Hint Resolve turn_items_loop_Mono : mono.

Lemma enforce_turn_constraints_Mono ls T L E sp J :
  Mono (enforce_turn_constraints ls T L E sp J).
Proof. unfold enforce_turn_constraints. mono. Qed.
#[local] Hint Resolve enforce_turn_constraints_Mono : mono.

Lemma enforce_unique_occupancy_Mono cl : Mono (enforce_unique_occupancy cl).
Proof. unfold enforce_unique_occupancy. mono. Qed.
#[local] Hint Resolve enforce_unique_occupancy_Mono : mono.

Lemma continuity_cell_Mono L E k start end_ x y :
  Mono (continuity_cell L E k start end_ x y).
Proof. unfold continuity_cell. mono. Qed.
#[local] Hint Resolve continuity_cell_Mono : mono.

Lemma enforce_path_continuity_Mono ls L E N M :
  Mono (enforce_path_continuity ls L E N M).
Proof. unfold enforce_path_continuity. mono. Qed.
#[local] Hint Resolve enforce_path_continuity_Mono : mono.

Lemma enforce_popular_cell_constraint_Mono mode popular cl :
  Mono (enforce_popular_cell_constraint mode popular cl).
Proof. unfold enforce_popular_cell_constraint. mono. Qed.
#[local] Hint Resolve enforce_popular_cell_constraint_Mono : mono.

Lemma enforce_edge_location_consistency_Mono E L :
  Mono (enforce_edge_location_consistency E L).
Proof. unfold enforce_edge_location_consistency. mono. Qed.
#[local] Hint Resolve enforce_edge_location_consistency_Mono : mono.

Lemma connectivity_step_Mono S E k x y D :
  Mono (connectivity_step S E k x y D).
Proof. unfold connectivity_step. mono. Qed.
#[local] Hint Resolve connectivity_step_Mono : mono.

Lemma enforce_path_connectivity_Mono ls S E L N M :
  Mono (enforce_path_connectivity ls S E L N M).
Proof. unfold enforce_path_connectivity. mono. Qed.
#[local] Hint Resolve enforce_path_connectivity_Mono : mono.

Lemma apply_all_constraints_Mono mode t ls sp J popular N M :
  Mono (apply_all_constraints mode t ls sp J popular N M).
Proof. unfold apply_all_constraints. mono. Qed.
#[local] Hint Resolve apply_all_constraints_Mono : mono.

Lemma encoder_Mono p : Mono (encoder p).
Proof. unfold encoder, encoder_on. mono. Qed.
#[local] Hint Resolve encoder_Mono : mono.

Lemma init_state_wf : wf init_state.
Proof.
  constructor; simpl; try done.
  - intros v Hv. lia.
  - intros key name. split; [done | intros (v & _ & H); done].
Qed.

Lemma run_encoder_wf p t s : run_encoder p = Some (t, s) -> wf s.
Proof.
  intros Hrun. apply encoder_Mono in Hrun as (_ & _ & Hwf).
  apply Hwf, init_state_wf.
Qed.

(** C9.  After encoding, the variable map is a bijection between the
    names that were instantiated and the ids [1 .. num_vars]: no two names
    share an id, every id from 1 to the number of variables belongs to a name
    (and no other id does), and [id_to_var] maps the decimal text of each id
    back to that one name. *)
Theorem encode_varmap_bijection (p : problem) (out : output) :
  encode p = Some out ->
  let v2i := md_var_to_id (out_metadata out) in
  let i2v := md_id_to_var (out_metadata out) in
  (forall n1 n2 vid,
     Dict.get v2i n1 = Some vid -> Dict.get v2i n2 = Some vid -> n1 = n2) /\
  (forall vid,
     1 <= vid <= out_num_vars out <-> exists name, Dict.get v2i name = Some vid) /\
  (forall vid name,
     Dict.get i2v (str vid) = Some name <-> Dict.get v2i name = Some vid) /\
  (forall key name,
     Dict.get i2v key = Some name -> exists vid, key = str vid).
Proof.
  unfold encode. destruct (run_encoder p) as [[t s]|] eqn:Hrun; [|done].
  intros [= <-]. simpl.
  pose proof (run_encoder_wf _ _ _ Hrun) as [Hnext Hrange Hdense Hinj Hinv].
  split; [exact Hinj|]. split; [|split].
  - intros vid. split.
    + intros Hv. apply Hdense. lia.
    + intros [name Hn]. apply Hrange in Hn. lia.
  - intros vid name. rewrite Hinv. split.
    + by intros (v & ->%str_inj & Hn).
    + intros Hn. by exists vid.
  - intros key name Hk. apply Hinv in Hk as (v & -> & _). by exists v.
Qed.

Lemma encode_varmap_bijection_witness :
  1 <= 12 <= 12 <->
  exists name,
    Dict.get
      [("L_0_0_0", 1); ("S_0_0_0", 2); ("E_0_0_0_R", 3); ("L_0_1_0", 4);
       ("T_0_1_0", 5); ("S_0_1_0", 6); ("E_0_1_0_R", 7); ("E_0_1_0_L", 8);
       ("L_0_2_0", 9); ("S_0_2_0", 10); ("E_0_2_0_L", 11);
       ("s_k0_0_0", 12)] name = Some 12.
Proof.
  pose proof (encode_varmap_bijection straight_line
                (default (mkOutput 0 [] "" (mkMetadata [] [] 0 0 0 0 0 [] []))
                         (encode straight_line))
                ltac:(vm_compute; reflexivity)) as (_ & Hdense & _).
  exact (Hdense 12).
Defined.

(* ------------------------------------------------------------------ *)
(** ** Loops *)

Lemma foldM_app {A B} (body : A -> B -> Enc B) l1 l2 b s :
  foldM body (l1 ++ l2) b s = bind (foldM body l1 b) (foldM body l2) s.
Proof.
  revert b s. induction l1 as [|x l1 IH]; intros b s; [reflexivity|].
  simpl. unfold bind. destruct (body x b s) as [[b1 s1]|]; [|reflexivity].
  apply IH.
Qed.

Lemma foldM_ext {A B} (f g : A -> B -> Enc B) l b s :
  (forall x b s, f x b s = g x b s) -> foldM f l b s = foldM g l b s.
Proof.
  intros Hfg. revert b s. induction l as [|x l IH]; intros b s;
    [reflexivity|].
  simpl. unfold bind. rewrite Hfg.
  destruct (g x b s) as [[b1 s1]|]; [|reflexivity]. apply IH.
Qed.

Lemma foldM_map {A B C} (h : C -> A) (body : A -> B -> Enc B) l b s :
  foldM body (map h l) b s = foldM (fun c => body (h c)) l b s.
Proof.
  revert b s. induction l as [|x l IH]; intros b s; [reflexivity|].
  simpl. unfold bind.
  destruct (body (h x) b s) as [[b1 s1]|]; [|reflexivity]. apply IH.
Qed.

(** Two nested loops are one loop over the pairs. *)
Lemma foldM_nested {A B C} (cs : A -> list C) (G : A -> C -> B -> Enc B)
    l b s :
  foldM (fun a b => foldM (G a) (cs a) b) l b s
  = foldM (fun ac b => G ac.1 ac.2 b)
          (flat_map (fun a => map (pair a) (cs a)) l) b s.
Proof.
  revert b s. induction l as [|a l IH]; intros b s; [reflexivity|].
  simpl. rewrite foldM_app. unfold bind. rewrite foldM_map. simpl.
  change (foldM (fun c b0 => G a c b0) (cs a) b s)
    with (foldM (G a) (cs a) b s).
  destruct (foldM (G a) (cs a) b s) as [[b1 s1]|]; [|reflexivity].
  apply IH.
Qed.

(** A loop keeps an invariant that tracks the iterations already done. *)
Lemma foldM_progress {A B} (body : A -> B -> Enc B)
    (I : list A -> B -> state -> Prop) (l : list A) :
  (forall done x rest b s b' s',
     l = done ++ x :: rest -> I done b s ->
     body x b s = Some (b', s') -> I (done ++ [x]) b' s') ->
  forall b s b' s',
    I [] b s -> foldM body l b s = Some (b', s') -> I l b' s'.
Proof.
  intros Hstep.
  assert (Hgen : forall rest done b s b' s',
            l = done ++ rest -> I done b s ->
            foldM body rest b s = Some (b', s') -> I l b' s').
  { induction rest as [|x rest IH]; intros done b s b' s' Hl HI Hrun.
    - simpl in Hrun. apply ret_inv in Hrun as [-> ->].
      rewrite app_nil_r in Hl. by subst.
    - simpl in Hrun. apply bind_inv in Hrun as (b1 & s1 & H1 & H2).
      apply (IH (done ++ [x]) b1 s1 b' s').
      + by rewrite <- app_assoc.
      + eapply Hstep; eauto.
      + done. }
  intros b s b' s' HI Hrun. by apply (Hgen l [] b s b' s').
Qed.

Lemma for_each_foldM {A} (l : list A) (body : A -> Enc unit) s :
  for_each l body s = foldM (fun x _ => body x) l tt s.
Proof.
  revert s. induction l as [|x l IH]; intros s; [reflexivity|].
  simpl. unfold bind.
  destruct (body x s) as [[[] s1]|]; [|reflexivity]. apply IH.
Qed.

(** Every iteration of a loop that ran did run, between the state at the
    start and the state at the end. *)
Lemma for_each_elem {A} (l : list A) (body : A -> Enc unit) s u s' x :
  (forall y, Mono (body y)) ->
  for_each l body s = Some (u, s') -> x ∈ l ->
  exists s1 s2, body x s1 = Some (tt, s2) /\ ext s s1 /\ ext s2 s'.
Proof.
  intros Hmono. revert s. induction l as [|y l IH]; intros s Hrun Hin.
  - by apply elem_of_nil in Hin.
  - simpl in Hrun. apply bind_inv in Hrun as ([] & s1 & H1 & H2).
    apply elem_of_cons in Hin as [->|Hin].
    + exists s, s1. split; [done|]. split; [apply ext_refl|].
      by apply (Mono_for_each l body Hmono) in H2.
    + destruct (IH _ H2 Hin) as (sa & sb & Hb & He1 & He2).
      exists sa, sb. split; [done|]. split; [|done].
      eapply ext_trans; [|done]. by apply Hmono in H1.
Qed.

Lemma foldM_elem {A B} (body : A -> B -> Enc B) l b s b' s' x :
  (forall y b, Mono (body y b)) ->
  foldM body l b s = Some (b', s') -> x ∈ l ->
  exists b1 s1 b2 s2,
    body x b1 s1 = Some (b2, s2) /\ ext s s1 /\ ext s2 s'.
Proof.
  intros Hmono. revert b s. induction l as [|y l IH]; intros b s Hrun Hin.
  - by apply elem_of_nil in Hin.
  - simpl in Hrun. apply bind_inv in Hrun as (b1 & s1 & H1 & H2).
    apply elem_of_cons in Hin as [->|Hin].
    + exists b, s, b1, s1. split; [done|]. split; [apply ext_refl|].
      by apply (Mono_foldM body l b1 Hmono) in H2.
    + destruct (IH _ _ H2 Hin) as (ba & sa & bb & sb & Hb & He1 & He2).
      exists ba, sa, bb, sb. split; [done|]. split; [|done].
      eapply ext_trans; [|done]. by apply Hmono in H1.
Qed.

(** ** Totality of loops *)

Lemma Total_ret {A} (x : A) : Total (ret x).
Proof. intros s. unfold ret. eauto. Qed.

Lemma Total_add_clause c : Total (add_clause c).
Proof. intros s. unfold add_clause. eauto. Qed.

Lemma Total_lift {A} (o : option A) : is_Some o -> Total (lift o).
Proof. intros [a ->] s. simpl. unfold ret. eauto. Qed.

Lemma Total_bind {A B} (m : Enc A) (f : A -> Enc B) :
  Total m -> (forall a, Total (f a)) -> Total (bind m f).
Proof.
  intros Hm Hf s. unfold bind. destruct (Hm s) as [[a s1] ->]. apply Hf.
Qed.

Lemma Total_for_each {A} (l : list A) (body : A -> Enc unit) :
  (forall x, x ∈ l -> Total (body x)) -> Total (for_each l body).
Proof.
  induction l as [|x l IH]; intros Hb; simpl.
  - apply Total_ret.
  - apply Total_bind.
    + apply Hb, list_elem_of_here.
    + intros _. apply IH. intros y Hy. by apply Hb, list_elem_of_further.
Qed.

Lemma Total_foldM {A B} (body : A -> B -> Enc B) l b :
  (forall x b, x ∈ l -> Total (body x b)) -> Total (foldM body l b).
Proof.
  revert b. induction l as [|x l IH]; intros b Hb; simpl.
  - apply Total_ret.
  - apply Total_bind.
    + apply Hb, list_elem_of_here.
    + intros b1. apply IH. intros y b2 Hy.
      by apply Hb, list_elem_of_further.
Qed.

(* ------------------------------------------------------------------ *)
(** ** The variable definitions *)

Lemma is_Some_get_set {K V} `{EqDecision K} (d : Dict.t K V) k k' v :
  is_Some (Dict.get (Dict.set d k v) k') <->
  k = k' \/ is_Some (Dict.get d k').
Proof.
  rewrite get_set. case_decide; split; eauto.
  intros [?|?]; done.
Qed.

Lemma visited_by_snoc done k st en x y k' x' y' :
  visited_by (done ++ [(k, (st, en), x, y)]) k' x' y' <->
  visited_by done k' x' y' \/ (k' = k /\ x' = x /\ y' = y).
Proof.
  unfold visited_by. split.
  - intros (st' & en' & Hin). apply elem_of_app in Hin as [Hin|Hin].
    + left. eauto.
    + apply list_elem_of_singleton in Hin. injection Hin as -> -> -> -> ->.
      by right.
  - intros [(st' & en' & Hin)|(-> & -> & ->)].
    + exists st', en'. apply elem_of_app. by left.
    + exists st, en. apply elem_of_app. right. apply list_elem_of_here.
Qed.

Lemma define_edges_spec N M k x y ds : forall t s t' s',
  define_edges N M k x y ds t s = Some (t', s') ->
  L_vars t' = L_vars t /\ T_vars t' = T_vars t /\ S_vars t' = S_vars t /\
  cells_lines t' = cells_lines t /\ ext s s' /\
  (forall key,
     is_Some (Dict.get (E_vars t') key) <->
     is_Some (Dict.get (E_vars t) key) \/
     exists d, d ∈ ds /\ key = (k, x, y, d) /\
               in_grid N M (step x y d) = true) /\
  (forall key v,
     Dict.get (E_vars t') key = Some v ->
     Dict.get (E_vars t) key = Some v \/
     exists d, key = (k, x, y, d) /\
               Dict.get (var_to_id s') (ename k x y d) = Some v).
Proof.
  induction ds as [|d ds IH]; intros t s t' s' Hrun.
  - apply ret_inv in Hrun as [-> ->].
    do 4 (split; [done|]). split; [apply ext_refl|]. split.
    + intros key. split; [by left|].
      intros [?|(d & Hd & _)]; [done | by apply elem_of_nil in Hd].
    + intros key v Hg. by left.
  - unfold define_edges in Hrun. simpl in Hrun.
    apply bind_inv in Hrun as (t1 & s1 & Hstep & Hrest).
    apply IH in Hrest as (HL & HT & HS & Hcl & Hext & Hdom & Hval).
    destruct (in_grid N M (step x y d)) eqn:Hgrid.
    + apply bind_inv in Hstep as (e & s0 & Hnew & Hret).
      apply ret_inv in Hret as [-> ->].
      pose proof (new_var_ext _ _ _ _ Hnew) as Hext0.
      pose proof (new_var_get _ _ _ _ Hnew) as Hget0.
      simpl in *. do 4 (split; [done|]).
      split; [by eapply ext_trans|]. split.
      * intros key. rewrite Hdom, is_Some_get_set. split.
        -- intros [[<-|Hold]|(d' & Hd' & -> & Hg)].
           ++ right. exists d. split; [apply list_elem_of_here | done].
           ++ by left.
           ++ right. exists d'. split; [by apply list_elem_of_further|done].
        -- intros [Hold|(d' & Hd' & -> & Hg)]; [by left; right|].
           apply elem_of_cons in Hd' as [->|Hd']; [by left; left|].
           right. by exists d'.
      * intros key v Hg. apply Hval in Hg as [Hg|Hg]; [|by right].
        rewrite get_set in Hg. case_decide as Hk; [|by left].
        injection Hg as <-. subst key. right. exists d. split; [done|].
        by eapply ext_var.
    + apply ret_inv in Hstep as [-> ->].
      do 5 (split; [done|]). split.
      * intros key. rewrite Hdom. split.
        -- intros [Hold|(d' & Hd' & -> & Hg)]; [by left|].
           right. exists d'. split; [by apply list_elem_of_further|done].
        -- intros [Hold|(d' & Hd' & -> & Hg)]; [by left|].
           apply elem_of_cons in Hd' as [->|Hd']; [congruence|].
           right. by exists d'.
      * done.
Qed.

Lemma elem_of_DIRS_LIST d : d ∈ DIRS_LIST.
Proof.
  unfold DIRS_LIST. destruct d; repeat first
    [ apply list_elem_of_here | apply list_elem_of_further ].
Qed.

(** One iteration of the variable definitions keeps the invariant. *)
Lemma define_cell_inv N M done k st en x y t s t' s' :
  tables_inv N M done t s ->
  define_cell N M k st en x y t s = Some (t', s') ->
  tables_inv N M (done ++ [(k, (st, en), x, y)]) t' s'.
Proof.
  intros [HL HS HT HE HnL HnS HnT HnE Hcl] Hrun.
  unfold define_cell in Hrun.
  apply bind_inv in Hrun as (l & s1 & Hl & Hrun).
  apply bind_inv in Hrun as (t2 & s2 & Ht & Hrun).
  apply bind_inv in Hrun as (sv & s3 & Hs & Hrun).
  change (define_edges N M k x y DIRS_LIST
            (set_S t2 (k, x, y) sv) s3 = Some (t', s')) in Hrun.
  apply define_edges_spec in Hrun
    as (EL & ET & ES & Ecl & Hext3 & Edom & Eval).
  simpl in EL, ET, ES, Ecl, Edom, Eval.
  pose proof (new_var_ext _ _ _ _ Hl) as Hext1.
  pose proof (new_var_get _ _ _ _ Hl) as Hgl.
  pose proof (new_var_ext _ _ _ _ Hs) as Hext2s.
  pose proof (new_var_get _ _ _ _ Hs) as Hgs.
  set (t1 := append_cell (set_L t (k, x, y) l) (x, y) l) in *.
  assert (Ht2 : L_vars t2 = L_vars t1 /\ S_vars t2 = S_vars t1 /\
                E_vars t2 = E_vars t1 /\ cells_lines t2 = cells_lines t1 /\
                ext s1 s2 /\
                (forall key,
                   is_Some (Dict.get (T_vars t2) key) <->
                   is_Some (Dict.get (T_vars t) key) \/
                   (key = (k, x, y) /\ (x, y) <> st /\ (x, y) <> en)) /\
                (forall key v,
                   Dict.get (T_vars t2) key = Some v ->
                   Dict.get (T_vars t) key = Some v \/
                   (key = (k, x, y) /\
                    Dict.get (var_to_id s2) (tname k x y) = Some v))).
  { destruct (decide ((x, y) <> st /\ (x, y) <> en)) as [Hne|Hne].
    - apply bind_inv in Ht as (tv & s0 & Hnew & Hret).
      apply ret_inv in Hret as [-> ->]. simpl.
      do 4 (split; [done|]).
      split; [by eapply new_var_ext|]. split.
      + intros key. rewrite is_Some_get_set. split.
        * intros [<-|?]; [by right | by left].
        * intros [?|[-> _]]; [by right | by left].
      + intros key v. rewrite get_set. case_decide as Hk; [|by left].
        intros [= <-]. subst key. right. split; [done|].
        by eapply new_var_get.
    - apply ret_inv in Ht as [-> ->].
      do 4 (split; [done|]). split; [apply ext_refl|]. split.
      + intros key. split; [by left|]. intros [?|[_ ?]]; done.
      + intros key v Hg. by left. }
  destruct Ht2 as (TL & TS & TE & Tcl & Hext2 & Tdom & Tval).
  clear Ht.
  assert (Hs1s' : ext s1 s')
    by (eapply ext_trans; [exact Hext2|]; eapply ext_trans; eauto).
  assert (Hss' : ext s s') by (eapply ext_trans; eauto).
  assert (Hs2s' : ext s2 s') by (eapply ext_trans; eauto).
  constructor.
  - intros k' x' y'. rewrite EL, TL. simpl.
    rewrite is_Some_get_set, visited_by_snoc, HL. split.
    + intros [[= <- <- <-]|?]; [by right | by left].
    + intros [?|(-> & -> & ->)]; [by right | by left].
  - intros k' x' y'. rewrite ES. rewrite is_Some_get_set, TS. simpl.
    rewrite visited_by_snoc, HS. split.
    + intros [[= <- <- <-]|?]; [by right | by left].
    + intros [?|(-> & -> & ->)]; [by right | by left].
  - intros k' x' y'. rewrite ET, Tdom, HT. split.
    + intros [(st' & en' & Hin & Hne)|[[= -> -> ->] Hne]].
      * exists st', en'. split; [|done]. apply elem_of_app. by left.
      * exists st, en. split; [|done]. apply elem_of_app. right.
        apply list_elem_of_here.
    + intros (st' & en' & Hin & Hne).
      apply elem_of_app in Hin as [Hin|Hin].
      * left. by exists st', en'.
      * apply list_elem_of_singleton in Hin.
        injection Hin as -> -> -> -> ->. by right.
  - intros k' x' y' d. rewrite Edom, TE. simpl.
    rewrite HE, visited_by_snoc. split.
    + intros [[Hv Hg]|(d' & _ & [= -> -> -> ->] & Hg)].
      * split; [by left | done].
      * split; [by right | done].
    + intros [[Hv|(-> & -> & ->)] Hg].
      * by left.
      * right. exists d. split; [apply elem_of_DIRS_LIST | done].
  - intros k' x' y' v. rewrite EL, TL. simpl. rewrite get_set.
    case_decide as Hk.
    + injection Hk as <- <- <-. intros [= <-].
      exact (ext_var _ _ _ _ Hs1s' Hgl).
    + intros Hg. eapply ext_var; [exact Hss'|]. by apply HnL.
  - intros k' x' y' v. rewrite ES, get_set, TS. simpl.
    case_decide as Hk.
    + injection Hk as <- <- <-. intros [= <-].
      exact (ext_var _ _ _ _ Hext3 Hgs).
    + intros Hg. eapply ext_var; [exact Hss'|]. by apply HnS.
  - intros k' x' y' v. rewrite ET. intros Hg.
    apply Tval in Hg as [Hg|[[= -> -> ->] Hg]].
    + eapply ext_var; [exact Hss'|]. by apply HnT.
    + exact (ext_var _ _ _ _ Hs2s' Hg).
  - intros k' x' y' d v Hg. apply Eval in Hg as [Hg|(d' & [= -> -> -> ->] & Hg)].
    + rewrite TE in Hg. simpl in Hg.
      eapply ext_var; [exact Hss'|]. by apply HnE.
    + done.
  - assert (Hold : forall k' c v,
              visited_by done k' c.1 c.2 ->
              Dict.get (var_to_id s') (lname k' c.1 c.2) = Some v ->
              Dict.get (var_to_id s) (lname k' c.1 c.2) = Some v).
    { intros k' c v Hv Hg. apply HL in Hv as [v0 Hv0].
      apply HnL in Hv0. pose proof (ext_var _ _ _ _ Hss' Hv0). congruence. }
    intros c v. rewrite Ecl, Tcl. simpl. rewrite get_set.
    case_decide as Hc.
    + subst c. simpl. rewrite elem_of_app, list_elem_of_singleton, Hcl.
      simpl. split.
      * intros [(k' & Hv & Hg)| ->].
        -- exists k'. split; [apply visited_by_snoc; by left|].
           exact (ext_var _ _ _ _ Hss' Hg).
        -- exists k. split; [apply visited_by_snoc; by right|].
           exact (ext_var _ _ _ _ Hs1s' Hgl).
      * intros (k' & Hv & Hg). apply visited_by_snoc in Hv as [Hv|(-> & _)].
        -- left. exists k'. split; [done|]. by apply (Hold k' (x, y)).
        -- right. pose proof (ext_var _ _ _ _ Hs1s' Hgl). congruence.
    + rewrite Hcl. split.
      * intros (k' & Hv & Hg). exists k'.
        split; [apply visited_by_snoc; by left|].
        exact (ext_var _ _ _ _ Hss' Hg).
      * intros (k' & Hv & Hg). apply visited_by_snoc in Hv as [Hv|(_ & Hx & Hy)].
        -- exists k'. split; [done|]. by apply Hold.
        -- exfalso. apply Hc. destruct c; simpl in *; congruence.
Qed.

Lemma define_variables_flat N M lines_spec s :
  define_variables N M lines_spec s
  = foldM (fun it t =>
             define_cell N M (item_k it) (item_start it) (item_end it)
                         (item_x it) (item_y it) t)
          (all_cells N M lines_spec) empty_tables s.
Proof.
  unfold define_variables, all_cells.
  rewrite <- (foldM_nested (fun _ => range 0 M)
                (fun (ksx : Z * (cell * cell) * Z) y t =>
                   define_cell N M ksx.1.1 ksx.1.2.1 ksx.1.2.2 ksx.2 y t)).
  rewrite <- (foldM_nested (fun _ => range 0 N)
                (fun (ks : Z * (cell * cell)) x t =>
                   foldM (fun y t =>
                            define_cell N M ks.1 ks.2.1 ks.2.2 x y t)
                         (range 0 M) t)).
  apply foldM_ext. intros [k [st en]] t s0. reflexivity.
Qed.

Lemma empty_tables_inv N M s : tables_inv N M [] empty_tables s.
Proof.
  constructor; simpl; try done.
  - intros k x y. split; [by intros [? ?]|].
    intros (st & en & Hin). by apply elem_of_nil in Hin.
  - intros k x y. split; [by intros [? ?]|].
    intros (st & en & Hin). by apply elem_of_nil in Hin.
  - intros k x y. split; [by intros [? ?]|].
    intros (st & en & Hin & _). by apply elem_of_nil in Hin.
  - intros k x y d. split; [by intros [? ?]|].
    intros [(st & en & Hin) _]. by apply elem_of_nil in Hin.
  - intros c v. split; [intros Hin; by apply elem_of_nil in Hin|].
    intros (k & (st & en & Hin) & _). by apply elem_of_nil in Hin.
Qed.

(** The tables after the variable definitions. *)
Lemma define_variables_inv N M lines_spec s t s' :
  define_variables N M lines_spec s = Some (t, s') ->
  tables_inv N M (all_cells N M lines_spec) t s'.
Proof.
  rewrite define_variables_flat. intros Hrun.
  eapply (foldM_progress _ (tables_inv N M)); [|apply empty_tables_inv|done].
  intros done [[[k [st en]] x] y] rest b s0 b' s0' _ Hinv Hstep.
  by eapply define_cell_inv.
Qed.

Lemma elem_of_enumerate {A} (l : list A) (k : Z) (x : A) :
  (k, x) ∈ enumerate l <-> exists i : nat, k = Z.of_nat i /\ l !! i = Some x.
Proof.
  unfold enumerate. rewrite list_elem_of_lookup. split.
  - intros [i Hi]. apply lookup_zip_with_Some in Hi
      as (k' & x' & [= <- <-] & Hk & Hx).
    apply lookup_seqZ in Hk as [-> _]. exists i. split; [lia | done].
  - intros (i & -> & Hx). exists i. apply lookup_zip_with_Some.
    exists (Z.of_nat i), x. split; [done|]. split; [|done].
    apply lookup_seqZ. split; [lia|].
    apply lookup_lt_Some in Hx. lia.
Qed.

Lemma elem_of_range a b k : k ∈ range a b <-> a <= k < b.
Proof. unfold range. rewrite elem_of_seqZ. lia. Qed.

Lemma elem_of_all_cells N M lines_spec (it : item) :
  it ∈ all_cells N M lines_spec <->
  (item_k it, (item_start it, item_end it)) ∈ enumerate lines_spec /\
  0 <= item_x it < N /\ 0 <= item_y it < M.
Proof.
  destruct it as [[[k [st en]] x] y].
  unfold all_cells, item_k, item_start, item_end, item_x, item_y. simpl.
  rewrite list_elem_of_In, in_flat_map. split.
  - intros ([ks x'] & Hin & Hy). apply in_map_iff in Hy as (y' & [= -> -> ->] & Hy).
    apply in_flat_map in Hin as (ks' & Hks & Hx).
    apply in_map_iff in Hx as (x'' & [= -> ->] & Hx).
    rewrite <- list_elem_of_In in Hks. rewrite <- list_elem_of_In in Hx.
    rewrite <- list_elem_of_In in Hy.
    apply elem_of_range in Hx. apply elem_of_range in Hy. done.
  - intros (Hks & Hx & Hy). exists (k, (st, en), x). split.
    + apply in_flat_map. exists (k, (st, en)).
      split; [by apply list_elem_of_In|].
      apply in_map, list_elem_of_In, elem_of_range. done.
    + apply in_map, list_elem_of_In, elem_of_range. done.
Qed.

Lemma visited_by_all_cells N M lines_spec k x y :
  visited_by (all_cells N M lines_spec) k x y <->
  (exists st en, (k, (st, en)) ∈ enumerate lines_spec) /\
  0 <= x < N /\ 0 <= y < M.
Proof.
  unfold visited_by. split.
  - intros (st & en & Hin). apply elem_of_all_cells in Hin as (Hk & Hx & Hy).
    split; [by exists st, en | done].
  - intros ((st & en & Hk) & Hx & Hy). exists st, en.
    by apply elem_of_all_cells.
Qed.

(** A line index has one entry in [enumerate]. *)
Lemma enumerate_functional {A} (l : list A) k x x' :
  (k, x) ∈ enumerate l -> (k, x') ∈ enumerate l -> x = x'.
Proof.
  intros (i & -> & Hi)%elem_of_enumerate (i' & Hk & Hi')%elem_of_enumerate.
  assert (i = i') as -> by lia. congruence.
Qed.

(* ------------------------------------------------------------------ *)
(** ** The constraints never raise on a well-formed problem *)

Lemma Total_if {A} (b : bool) (m1 m2 : Enc A) :
  (b = true -> Total m1) -> (b = false -> Total m2) ->
  Total (if b then m1 else m2).
Proof. destruct b; auto. Qed.

Lemma Total_decide {A} (P : Prop) `{Decision P} (m1 m2 : Enc A) :
  (P -> Total m1) -> (~ P -> Total m2) ->
  Total (if decide P then m1 else m2).
Proof. destruct (decide P); auto. Qed.

Lemma truthy_is_Some o : truthy o = true -> is_Some o.
Proof. destruct o; [eauto | done]. Qed.

Lemma in_grid_spec N M (c : cell) :
  in_grid N M c = true <-> 0 <= c.1 < N /\ 0 <= c.2 < M.
Proof.
  unfold in_grid. rewrite andb_true_iff, !bool_decide_eq_true. done.
Qed.

Lemma at_most_one_Total l : Total (at_most_one l).
Proof.
  unfold at_most_one. apply Total_for_each. intros [vi vj] _.
  apply Total_add_clause.
Qed.

Lemma enforce_unique_occupancy_Total cl :
  Total (enforce_unique_occupancy cl).
Proof.
  unfold enforce_unique_occupancy. apply Total_for_each. intros item _.
  apply Total_decide; intros _; [apply at_most_one_Total | apply Total_ret].
Qed.

Lemma enforce_popular_cell_constraint_Total mode popular cl :
  Total (enforce_popular_cell_constraint mode popular cl).
Proof.
  unfold enforce_popular_cell_constraint.
  apply Total_decide; intros _; [apply Total_ret|].
  apply Total_for_each. intros pc _. apply Total_decide; intros _.
  - apply Total_add_clause.
  - apply Total_bind; [apply Total_add_clause|].
    intros _. apply Total_add_clause.
Qed.

Lemma exactly_k_if_L_Total l_var e_vars k :
  0 <= k -> k - 1 <= Z.of_nat (length e_vars) ->
  Total (exactly_k_if_L l_var e_vars k).
Proof.
  intros Hk Hn. unfold exactly_k_if_L. apply Total_bind.
  - apply Total_decide; intros _; [|apply Total_ret].
    apply Total_bind.
    + apply Total_lift. unfold combinations.
      rewrite decide_False by lia. eauto.
    + intros subsets. apply Total_for_each. intros subset _.
      apply Total_add_clause.
  - intros _. apply Total_decide; intros _; [|apply Total_ret].
    apply Total_bind.
    + apply Total_lift. unfold combinations.
      rewrite decide_False by lia. eauto.
    + intros subsets. apply Total_for_each. intros subset _.
      apply Total_add_clause.
Qed.

Section TablesFacts.
Context (N M : Z) (lines_spec : list (cell * cell)) (t : tables) (s1 : state).
Hypothesis Hinv : tables_inv N M (all_cells N M lines_spec) t s1.

Lemma L_vars_present k st en x y :
  (k, (st, en)) ∈ enumerate lines_spec -> 0 <= x < N -> 0 <= y < M ->
  is_Some (Dict.get (L_vars t) (k, x, y)).
Proof.
  intros Hk Hx Hy. apply (inv_L _ _ _ _ _ Hinv).
  apply visited_by_all_cells. split; [by exists st, en | done].
Qed.

Lemma S_vars_present k st en x y :
  (k, (st, en)) ∈ enumerate lines_spec -> 0 <= x < N -> 0 <= y < M ->
  is_Some (Dict.get (S_vars t) (k, x, y)).
Proof.
  intros Hk Hx Hy. apply (inv_S _ _ _ _ _ Hinv).
  apply visited_by_all_cells. split; [by exists st, en | done].
Qed.

Lemma E_vars_key k x y d :
  is_Some (Dict.get (E_vars t) (k, x, y, d)) ->
  (exists st en, (k, (st, en)) ∈ enumerate lines_spec) /\
  (0 <= x < N /\ 0 <= y < M) /\
  in_grid N M (step x y d) = true.
Proof.
  intros [Hv Hg]%(inv_E _ _ _ _ _ Hinv).
  apply visited_by_all_cells in Hv as (Hk & Hx & Hy). done.
Qed.

Lemma E_vars_present k st en x y d :
  (k, (st, en)) ∈ enumerate lines_spec -> 0 <= x < N -> 0 <= y < M ->
  in_grid N M (step x y d) = true ->
  is_Some (Dict.get (E_vars t) (k, x, y, d)).
Proof.
  intros Hk Hx Hy Hg. apply (inv_E _ _ _ _ _ Hinv). split; [|done].
  apply visited_by_all_cells. split; [by exists st, en | done].
Qed.

Lemma T_vars_key k x y :
  is_Some (Dict.get (T_vars t) (k, x, y)) <->
  exists st en, (k, (st, en)) ∈ enumerate lines_spec /\
                (0 <= x < N /\ 0 <= y < M) /\
                (x, y) <> st /\ (x, y) <> en.
Proof.
  rewrite (inv_T _ _ _ _ _ Hinv). split.
  - intros (st & en & Hin & Hne). exists st, en.
    apply elem_of_all_cells in Hin as (Hk & Hx & Hy). done.
  - intros (st & en & Hk & [Hx Hy] & Hne). exists st, en.
    split; [|done]. by apply elem_of_all_cells.
Qed.

(** Every table entry is an id that was handed out, so it is positive. *)
Lemma L_vars_pos k x y v :
  wf s1 -> Dict.get (L_vars t) (k, x, y) = Some v -> 1 <= v.
Proof.
  intros Hwf Hg. apply (inv_nL _ _ _ _ _ Hinv) in Hg.
  apply (wf_range _ Hwf) in Hg. lia.
Qed.

Lemma S_vars_pos k x y v :
  wf s1 -> Dict.get (S_vars t) (k, x, y) = Some v -> 1 <= v.
Proof.
  intros Hwf Hg. apply (inv_nS _ _ _ _ _ Hinv) in Hg.
  apply (wf_range _ Hwf) in Hg. lia.
Qed.

Lemma T_vars_pos k x y v :
  wf s1 -> Dict.get (T_vars t) (k, x, y) = Some v -> 1 <= v.
Proof.
  intros Hwf Hg. apply (inv_nT _ _ _ _ _ Hinv) in Hg.
  apply (wf_range _ Hwf) in Hg. lia.
Qed.

Lemma E_vars_pos k x y d v :
  wf s1 -> Dict.get (E_vars t) (k, x, y, d) = Some v -> 1 <= v.
Proof.
  intros Hwf Hg. apply (inv_nE _ _ _ _ _ Hinv) in Hg.
  apply (wf_range _ Hwf) in Hg. lia.
Qed.

(** The clause of a popular cell lists the occupied variables of all the
    lines at that cell. *)
Lemma cells_lines_spec (c : cell) v :
  v ∈ default [] (Dict.get (cells_lines t) c) <->
  exists k, Dict.get (L_vars t) (k, c.1, c.2) = Some v.
Proof.
  rewrite (inv_cl _ _ _ _ _ Hinv). split.
  - intros (k & Hv & Hg). exists k.
    apply (inv_L _ _ _ _ _ Hinv) in Hv as [v0 Hv0].
    pose proof (inv_nL _ _ _ _ _ Hinv _ _ _ _ Hv0). congruence.
  - intros (k & Hg). exists k. split.
    + apply (inv_L _ _ _ _ _ Hinv). eauto.
    + by apply (inv_nL _ _ _ _ _ Hinv).
Qed.

Lemma cells_lines_nonempty (c : cell) :
  default [] (Dict.get (cells_lines t) c) <> [] <->
  lines_spec <> [] /\ in_grid N M c = true.
Proof.
  split.
  - intros Hne.
    destruct (default [] (Dict.get (cells_lines t) c)) as [|v l] eqn:Hd;
      [done|].
    assert (Hv : v ∈ default [] (Dict.get (cells_lines t) c))
      by (rewrite Hd; apply list_elem_of_here).
    apply (inv_cl _ _ _ _ _ Hinv) in Hv as (k & Hv & _).
    apply visited_by_all_cells in Hv as ((st & en & Hk) & Hx & Hy).
    split; [|by apply in_grid_spec].
    intros ->. by apply elem_of_nil in Hk.
  - intros [Hls Hg]. apply in_grid_spec in Hg as [Hx Hy].
    destruct lines_spec as [|[st en] ls] eqn:Hl; [done|].
    assert (Hk : (0, (st, en)) ∈ enumerate lines_spec).
    { rewrite Hl. apply elem_of_enumerate. by exists 0%nat. }
    rewrite <- Hl in Hinv.
    assert (Hs : is_Some (Dict.get (L_vars t) (0, c.1, c.2))).
    { apply (inv_L _ _ _ _ _ Hinv). apply visited_by_all_cells.
      split; [by exists st, en | done]. }
    destruct Hs as [v Hv].
    assert (Hin : v ∈ default [] (Dict.get (cells_lines t) c)).
    { apply (inv_cl _ _ _ _ _ Hinv). exists 0. split.
      - apply visited_by_all_cells. split; [by exists st, en | done].
      - by apply (inv_nL _ _ _ _ _ Hinv). }
    intros Hnil. rewrite Hnil in Hin. by apply elem_of_nil in Hin.
Qed.
End TablesFacts.

Lemma elem_of_dict_is_Some {K V} `{EqDecision K} (d : Dict.t K V) k v :
  (k, v) ∈ Dict.items d -> is_Some (Dict.get d k).
Proof.
  intros Hin. apply In_keys_get. unfold Dict.keys.
  apply list_elem_of_fmap. by exists (k, v).
Qed.

Lemma omap_nonempty {A B} (f : A -> option B) (l : list A) x :
  x ∈ l -> is_Some (f x) -> (1 <= length (omap f l))%nat.
Proof.
  intros Hin [y Hy].
  assert (Hy' : y ∈ omap f l) by (apply list_elem_of_omap; eauto).
  destruct (omap f l); [by apply elem_of_nil in Hy' | simpl; lia].
Qed.

(** In a grid with two different cells, every cell has a neighbour. *)
Lemma neighbour_in_grid N M (c c' : cell) :
  in_grid N M c = true -> in_grid N M c' = true -> c <> c' ->
  exists d, in_grid N M (step c.1 c.2 d) = true.
Proof.
  intros [Hx Hy]%in_grid_spec [Hx' Hy']%in_grid_spec Hne.
  destruct c as [x y], c' as [x' y']; simpl in *.
  destruct (decide (x = x')) as [->|Hxx].
  - assert (y <> y') by congruence.
    destruct (decide (y < y')).
    + exists DirD. apply in_grid_spec. simpl. lia.
    + exists DirU. apply in_grid_spec. simpl. lia.
  - destruct (decide (x < x')).
    + exists DirR. apply in_grid_spec. simpl. lia.
    + exists DirL. apply in_grid_spec. simpl. lia.
Qed.

Section EncoderTotal.
Context (N M : Z) (lines_spec : list (cell * cell)) (t : tables) (s1 : state).
Hypothesis Hinv : tables_inv N M (all_cells N M lines_spec) t s1.
Hypothesis Hends : forall st en,
  (st, en) ∈ lines_spec ->
  in_grid N M st = true /\ in_grid N M en = true.

Lemma enumerate_ends k st en :
  (k, (st, en)) ∈ enumerate lines_spec ->
  in_grid N M st = true /\ in_grid N M en = true.
Proof.
  intros (i & _ & Hi)%elem_of_enumerate. apply Hends.
  by eapply list_elem_of_lookup_2.
Qed.

Lemma enforce_edge_location_consistency_Total :
  Total (enforce_edge_location_consistency (E_vars t) (L_vars t)).
Proof.
  unfold enforce_edge_location_consistency. apply Total_for_each.
  intros [[[[k x] y] D] evid] Hin.
  apply elem_of_dict_is_Some in Hin.
  apply (E_vars_key _ _ _ _ _ Hinv) in Hin
    as ((st & en & Hk) & [Hx Hy] & Hg).
  apply Total_bind.
  { apply Total_lift. by eapply L_vars_present. }
  intros loc_var. destruct (step x y D) as [nx ny] eqn:Hstep.
  apply in_grid_spec in Hg as [Hnx Hny]. simpl in Hnx, Hny.
  apply Total_bind; [apply Total_add_clause|]. intros _.
  apply Total_bind.
  { apply Total_bind.
    - apply Total_lift. by eapply L_vars_present.
    - intros ln. apply Total_add_clause. }
  intros _. apply Total_if; intros Htr.
  - apply Total_bind; [by apply Total_lift, truthy_is_Some|].
    intros r. apply Total_bind; [apply Total_add_clause|].
    intros _. apply Total_add_clause.
  - apply Total_add_clause.
Qed.

Lemma incident_nonempty k st en x y :
  (k, (st, en)) ∈ enumerate lines_spec -> 0 <= x < N -> 0 <= y < M ->
  (x, y) <> st ->
  (1 <= length (incident (E_vars t) k x y))%nat.
Proof.
  intros Hk Hx Hy Hne.
  destruct (enumerate_ends _ _ _ Hk) as [Hst _].
  destruct (neighbour_in_grid N M (x, y) st) as [d Hd]; [|done|done|].
  { by apply in_grid_spec. }
  unfold incident. apply (omap_nonempty _ _ d); [apply elem_of_DIRS_LIST|].
  by eapply E_vars_present.
Qed.

Lemma continuity_cell_Total k st en x y :
  (k, (st, en)) ∈ enumerate lines_spec -> 0 <= x < N -> 0 <= y < M ->
  Total (continuity_cell (L_vars t) (E_vars t) k st en x y).
Proof.
  intros Hk Hx Hy. unfold continuity_cell.
  destruct (truthy (Dict.get (L_vars t) (k, x, y))) eqn:Htr; simpl;
    [|apply Total_ret].
  apply Total_bind; [by apply Total_lift, truthy_is_Some|].
  intros lvid. apply Total_decide; intros Hend.
  - apply exactly_k_if_L_Total; lia.
  - apply Total_bind.
    + apply exactly_k_if_L_Total; [lia|].
      pose proof (incident_nonempty k st en x y Hk Hx Hy) as Hn.
      assert ((x, y) <> st) by (intros ?; apply Hend; by left).
      specialize (Hn H). lia.
    + intros _. apply Total_for_each. intros evid _.
      apply Total_add_clause.
Qed.

Lemma enforce_path_continuity_Total :
  Total (enforce_path_continuity lines_spec (L_vars t) (E_vars t) N M).
Proof.
  unfold enforce_path_continuity. apply Total_for_each.
  intros [k [st en]] Hk.
  destruct (enumerate_ends _ _ _ Hk) as [[Hsx Hsy]%in_grid_spec
                                          [Hex Hey]%in_grid_spec].
  apply Total_bind.
  { apply Total_bind; [|intros ?; apply Total_add_clause].
    apply Total_lift. by eapply L_vars_present. }
  intros _. apply Total_bind.
  { apply Total_bind; [|intros ?; apply Total_add_clause].
    apply Total_lift. by eapply L_vars_present. }
  intros _. apply Total_for_each. intros x Hx%elem_of_range.
  apply Total_for_each. intros y Hy%elem_of_range.
  by apply continuity_cell_Total.
Qed.

Lemma connectivity_step_Total k x y D :
  Total (connectivity_step (S_vars t) (E_vars t) k x y D).
Proof.
  unfold connectivity_step. apply Total_if; intros Htr; [|apply Total_ret].
  apply truthy_is_Some in Htr.
  pose proof (E_vars_key _ _ _ _ _ Hinv _ _ _ _ Htr)
    as ((st & en & Hk) & [Hx Hy] & Hg).
  apply Total_bind; [by apply Total_lift|]. intros e.
  destruct (step x y D) as [nx ny] eqn:Hstep.
  apply in_grid_spec in Hg as [Hnx Hny]. simpl in Hnx, Hny.
  apply Total_bind; [apply Total_lift; by eapply S_vars_present|].
  intros s. apply Total_bind; [apply Total_lift; by eapply S_vars_present|].
  intros sn. apply Total_add_clause.
Qed.

Lemma enforce_path_connectivity_Total :
  Total (enforce_path_connectivity lines_spec (S_vars t) (E_vars t)
                                   (L_vars t) N M).
Proof.
  unfold enforce_path_connectivity. apply Total_for_each.
  intros [k [st en]] Hk.
  destruct (enumerate_ends _ _ _ Hk) as [[Hsx Hsy]%in_grid_spec _].
  apply Total_bind.
  { apply Total_bind; [|intros ?; apply Total_add_clause].
    apply Total_lift. by eapply S_vars_present. }
  intros _. apply Total_bind.
  { apply Total_for_each. intros x _. apply Total_for_each. intros y _.
    apply Total_for_each. intros D _. apply connectivity_step_Total. }
  intros _. apply Total_for_each. intros x Hx%elem_of_range.
  apply Total_for_each. intros y Hy%elem_of_range.
  apply Total_bind; [apply Total_lift; by eapply L_vars_present|].
  intros l. apply Total_bind; [apply Total_lift; by eapply S_vars_present|].
  intros s. apply Total_add_clause.
Qed.

Lemma turn_pair_clause_Total sp k x y l tv pr :
  Total (turn_pair_clause sp (E_vars t) k x y l tv pr).
Proof.
  unfold turn_pair_clause. destruct pr as [D1 D2].
  apply Total_if; intros Htr; [|apply Total_ret].
  apply andb_prop in Htr as [H1%truthy_is_Some H2%truthy_is_Some].
  apply Total_bind; [by apply Total_lift|]. intros v1.
  apply Total_bind; [by apply Total_lift|]. intros v2.
  apply Total_if; intros _; apply Total_add_clause.
Qed.

Lemma turn_items_loop_Total sp k :
  Total (turn_items_loop sp (T_vars t) (L_vars t) (E_vars t) k).
Proof.
  unfold turn_items_loop. apply Total_foldM.
  intros [[[line_k x] y] tv] acc Hin.
  apply Total_decide; intros Hk; [apply Total_ret|].
  assert (line_k = k) as -> by (destruct (decide (line_k = k)); done).
  apply elem_of_dict_is_Some in Hin.
  apply (T_vars_key _ _ _ _ _ Hinv) in Hin
    as (st & en & Hk' & [Hx Hy] & _).
  apply Total_bind; [apply Total_lift; by eapply L_vars_present|].
  intros l. apply Total_bind; [apply Total_add_clause|]. intros _.
  apply Total_bind; [|intros _; apply Total_ret].
  apply Total_for_each. intros pr _. apply turn_pair_clause_Total.
Qed.
End EncoderTotal.

(* ------------------------------------------------------------------ *)
(** ** The sequential counter *)

Lemma lit_true_pos a v : 1 <= v -> lit_true a v = a v.
Proof. intros Hv. unfold lit_true. by rewrite decide_True by lia. Qed.

Lemma lit_true_neg a v : 1 <= v -> lit_true a (- v) = negb (a v).
Proof.
  intros Hv. unfold lit_true. rewrite decide_False by lia.
  by rewrite Z.opp_involutive.
Qed.

Lemma count_true_app a l1 l2 :
  count_true a (l1 ++ l2) = count_true a l1 + count_true a l2.
Proof. unfold count_true. rewrite filter_app, length_app. lia. Qed.

Lemma count_true_single a x :
  count_true a [x] = if a x then 1 else 0.
Proof.
  unfold count_true. rewrite filter_cons. destruct (a x) eqn:Hx.
  - rewrite decide_True by done. done.
  - rewrite decide_False by congruence. done.
Qed.

Lemma count_true_le a l : 0 <= count_true a l <= Z.of_nat (length l).
Proof.
  unfold count_true. pose proof (length_filter (fun v => a v = true) l). lia.
Qed.

(** What the clauses of the counter say, and why they bound the count:
    [e i j] is the value of the matrix entry, which is true as soon as [j+1]
    of the first [i+1] variables are. *)
Lemma seq_counter_sound (a : assignment) (vars : list Z) (k : Z)
    (e : Z -> Z -> bool) :
  let len := Z.of_nat (length vars) in
  0 <= k ->
  (forall x0, vars !! 0%nat = Some x0 -> a x0 = true -> e 0 0 = true) ->
  (forall i j, 1 <= i < len -> 0 <= j <= k ->
     e (i - 1) j = true -> e i j = true) ->
  (forall i xi, 1 <= i < len -> vars !! Z.to_nat i = Some xi ->
     a xi = true -> e i 0 = true) ->
  (forall i j xi, 1 <= i < len -> 1 <= j <= k ->
     vars !! Z.to_nat i = Some xi -> a xi = true ->
     e (i - 1) (j - 1) = true -> e i j = true) ->
  (vars <> [] -> e (len - 1) k = false) ->
  count_true a vars <= k.
Proof.
  intros len Hk HB HP1 HP2 HP3 HF.
  assert (Hmain : forall i : nat, (i < length vars)%nat ->
            forall j, 0 <= j <= k ->
              j + 1 <= count_true a (take (S i) vars) ->
              e (Z.of_nat i) j = true).
  { induction i as [|i IH]; intros Hi j Hj Hc.
    - destruct vars as [|x0 vars']; [simpl in Hi; lia|].
      simpl in Hc. rewrite take_0, count_true_single in Hc.
      destruct (a x0) eqn:Hx; [|lia].
      assert (j = 0) as -> by lia. by apply (HB x0).
    - destruct (lookup_lt_is_Some_2 vars (S i) Hi) as [x Hx].
      rewrite (take_S_r _ _ _ Hx), count_true_app, count_true_single in Hc.
      assert (Hi' : 1 <= Z.of_nat (S i) < len) by (unfold len; lia).
      assert (Hpred : Z.of_nat (S i) - 1 = Z.of_nat i) by lia.
      destruct (decide (j + 1 <= count_true a (take (S i) vars))) as [Hc'|Hc'].
      + apply HP1; [done | done|]. rewrite Hpred. apply IH; [lia|done|done].
      + destruct (a x) eqn:Hax; [|lia].
        destruct (decide (j = 0)) as [->|Hj0].
        * apply (HP2 _ x); [done| |done]. by rewrite Nat2Z.id.
        * apply (HP3 _ _ x); [done|lia| |done|].
          -- by rewrite Nat2Z.id.
          -- rewrite Hpred. apply IH; [lia|lia|lia]. }
  destruct (decide (vars = [])) as [->|Hne].
  - unfold count_true. simpl. lia.
  - destruct (decide (count_true a vars <= k)) as [|Hgt]; [done|].
    exfalso. specialize (HF Hne).
    assert (Hlen : (0 < length vars)%nat)
      by (destruct vars; [done | simpl; lia]).
    assert (Htrue : e (len - 1) k = true).
    { replace (len - 1) with (Z.of_nat (length vars - 1))
        by (unfold len; lia).
      apply Hmain; [lia|lia|].
      replace (S (length vars - 1)) with (length vars) by lia.
      rewrite firstn_all. lia. }
    congruence.
Qed.

(** ** List comprehensions *)

Lemma mapM_inv {A B} (f : A -> Enc B) (I : state -> Prop)
    (P : A -> B -> Prop) l :
  (forall x s y s', I s -> f x s = Some (y, s') -> I s' /\ P x y) ->
  forall s r s',
    I s -> mapM f l s = Some (r, s') -> I s' /\ Forall2 P l r.
Proof.
  intros Hf. induction l as [|x l IH]; intros s r s' HI Hrun; simpl in Hrun.
  - apply ret_inv in Hrun as [-> ->]. split; [done | constructor].
  - apply bind_inv in Hrun as (y & s1 & Hy & Hrun).
    apply bind_inv in Hrun as (ys & s2 & Hys & Hrun).
    apply ret_inv in Hrun as [-> ->].
    destruct (Hf _ _ _ _ HI Hy) as [HI1 HP].
    destruct (IH _ _ _ HI1 Hys) as [HI2 Hall].
    split; [done | by constructor].
Qed.

Lemma Total_mapM {A B} (f : A -> Enc B) l :
  (forall x, Total (f x)) -> Total (mapM f l).
Proof.
  intros Hf. induction l as [|x l IH]; simpl; [apply Total_ret|].
  apply Total_bind; [apply Hf|]. intros y.
  apply Total_bind; [apply IH|]. intros ys. apply Total_ret.
Qed.

Lemma py_index_elem {A} (l : list A) i x : py_index l i = Some x -> x ∈ l.
Proof.
  unfold py_index. repeat case_decide; try done;
    intros Hx; by eapply list_elem_of_lookup_2.
Qed.

Lemma py_index_Z {A} (l : list A) i :
  0 <= i -> py_index l i = l !! Z.to_nat i.
Proof.
  intros Hi. unfold py_index. case_decide as H1; [done|].
  rewrite decide_False by lia. symmetry. apply lookup_ge_None. lia.
Qed.

Lemma cell_of_inv mtx i j s v s' :
  cell_of mtx i j s = Some (v, s') ->
  s' = s /\ v = entry mtx i j /\ exists row, row ∈ mtx /\ v ∈ row.
Proof.
  unfold cell_of. intros Hrun.
  apply bind_inv in Hrun as (row & s0 & Hrow & Hv).
  apply lift_inv in Hrow as [Hrow ->]. apply lift_inv in Hv as [Hv ->].
  split; [done|]. split.
  - unfold entry. rewrite Hrow. simpl. by rewrite Hv.
  - exists row. split; by eapply py_index_elem.
Qed.

Lemma cell_of_Total mtx i j n w :
  Z.of_nat (length mtx) = n ->
  Forall (fun row => Z.of_nat (length row) = w) mtx ->
  0 <= i < n -> 0 <= j < w ->
  Total (cell_of mtx i j).
Proof.
  intros Hn Hrows Hi Hj s. unfold cell_of, bind.
  destruct (py_index_range mtx i) as [row Hrow]; [lia|].
  rewrite Hrow. simpl.
  assert (Hlen : Z.of_nat (length row) = w).
  { eapply (proj1 (Forall_forall _ _) Hrows). by eapply py_index_elem. }
  destruct (py_index_range row j) as [v Hv]; [lia|].
  rewrite Hv. simpl. unfold ret. eauto.
Qed.

Lemma add_clause_sat a c s u s' s'' :
  add_clause c s = Some (u, s') -> ext s' s'' -> sat a s'' ->
  clause_sat a c = true.
Proof.
  intros Hrun Hext Hsat. apply add_clause_inv in Hrun as (Hc & _).
  apply (sat_elem a s''); [done|]. eapply ext_clause; [done|].
  rewrite Hc. apply elem_of_app. right. apply list_elem_of_here.
Qed.

Lemma clause_neg1 a p : clause_sat a [- p] = true -> 1 <= p -> a p = false.
Proof.
  unfold clause_sat. simpl. intros Hc Hp. rewrite lit_true_neg in Hc by done.
  destruct (a p); simpl in Hc; done.
Qed.

Lemma clause_imp1 a p c :
  clause_sat a [- p; c] = true -> 1 <= p -> 1 <= c ->
  a p = true -> a c = true.
Proof.
  unfold clause_sat. simpl. intros Hc Hp Hq Hap.
  rewrite lit_true_neg, lit_true_pos, Hap in Hc by done.
  simpl in Hc. by rewrite orb_false_r in Hc.
Qed.

Lemma clause_imp2 a x p c :
  clause_sat a [- x; - p; c] = true -> 1 <= x -> 1 <= p -> 1 <= c ->
  a x = true -> a p = true -> a c = true.
Proof.
  unfold clause_sat. simpl. intros Hc Hx Hp Hq Hax Hap.
  rewrite !lit_true_neg, lit_true_pos, Hax, Hap in Hc by done.
  simpl in Hc. by rewrite orb_false_r in Hc.
Qed.

Section CounterRun.
Context (a : assignment) (vars : list Z) (mtx : list (list Z)) (k : Z).
Hypothesis Hvars : Forall (fun v => 1 <= v) vars.
Hypothesis Hmtx : Forall (Forall (fun v => 1 <= v)) mtx.

Lemma vars_pos i x : py_index vars i = Some x -> 1 <= x.
Proof.
  intros Hx%py_index_elem. by eapply (proj1 (Forall_forall _ _) Hvars).
Qed.

Lemma cell_of_pos i j s v s' :
  cell_of mtx i j s = Some (v, s') ->
  s' = s /\ v = entry mtx i j /\ 1 <= v.
Proof.
  intros (-> & -> & row & Hrow & Hv)%cell_of_inv.
  split; [done|]. split; [done|].
  eapply (proj1 (Forall_forall _ _)); [|exact Hv].
  by eapply (proj1 (Forall_forall _ _) Hmtx).
Qed.

Lemma initialize_base_sat s u s' :
  _initialize_base_constraints vars mtx k s = Some (u, s') -> sat a s' ->
  forall x0, vars !! 0%nat = Some x0 -> a x0 = true ->
             a (entry mtx 0 0) = true.
Proof.
  unfold _initialize_base_constraints. intros Hrun Hsat x0 Hx0 Hax.
  apply bind_inv in Hrun as (first_var & s0 & Hf & Hrun).
  apply lift_inv in Hf as [Hf ->].
  apply bind_inv in Hrun as (s00 & s0 & Hc & Hrun).
  apply cell_of_pos in Hc as (-> & -> & Hpos).
  apply bind_inv in Hrun as ([] & s1 & Hcl & Hrun).
  assert (Hext : ext s1 s').
  { revert Hrun. apply Mono_for_each. intros j. mono. }
  pose proof (add_clause_sat _ _ _ _ _ _ Hcl Hext Hsat) as Hcs.
  rewrite py_index_Z in Hf by lia.
  change (Z.to_nat 0) with 0%nat in Hf.
  assert (first_var = x0) as -> by congruence.
  apply (clause_imp1 _ _ _ Hcs); [|done|done].
  eapply (proj1 (Forall_forall _ _) Hvars). by eapply list_elem_of_lookup_2.
Qed.

Lemma propagate_sat i s u s' :
  0 <= i ->
  _propagate_constraints i vars mtx k s = Some (u, s') -> sat a s' ->
  (forall j, 0 <= j <= k ->
     a (entry mtx (i - 1) j) = true -> a (entry mtx i j) = true) /\
  (forall xi, vars !! Z.to_nat i = Some xi -> a xi = true ->
     a (entry mtx i 0) = true) /\
  (forall j xi, 1 <= j <= k -> vars !! Z.to_nat i = Some xi ->
     a xi = true -> a (entry mtx (i - 1) (j - 1)) = true ->
     a (entry mtx i j) = true).
Proof.
  unfold _propagate_constraints. intros Hi Hrun Hsat.
  apply bind_inv in Hrun as ([] & s1 & Hloop1 & Hrun).
  apply bind_inv in Hrun as ([] & s2 & Hmid & Hloop2).
  assert (Hext2 : ext s2 s').
  { revert Hloop2. apply Mono_for_each. intros j. mono. }
  assert (Hext1 : ext s1 s2) by (revert Hmid; mono).
  split; [|split].
  - intros j Hj Hp.
    eapply (for_each_elem _ _ _ _ _ j) in Hloop1
      as (sa & sb & Hbody & _ & Hextb);
      [|intros; mono|apply elem_of_range; lia].
    apply bind_inv in Hbody as (p & s0 & Hcp & Hbody).
    apply cell_of_pos in Hcp as (-> & -> & Hpp).
    apply bind_inv in Hbody as (c & s0 & Hcc & Hbody).
    apply cell_of_pos in Hcc as (-> & -> & Hpc).
    eapply clause_imp1; [|exact Hpp|exact Hpc|exact Hp].
    eapply add_clause_sat; [exact Hbody| |exact Hsat].
    eapply ext_trans; [exact Hextb|]. by eapply ext_trans.
  - intros xi Hxi Hax.
    apply bind_inv in Hmid as (vi & s0 & Hv & Hmid).
    apply lift_inv in Hv as [Hv ->].
    apply bind_inv in Hmid as (c & s0 & Hcc & Hmid).
    apply cell_of_pos in Hcc as (-> & -> & Hpc).
    pose proof (vars_pos _ _ Hv) as Hpv.
    rewrite py_index_Z in Hv by done.
    assert (vi = xi) as -> by congruence.
    eapply clause_imp1; [|exact Hpv|exact Hpc|exact Hax].
    eapply add_clause_sat; [exact Hmid|exact Hext2|exact Hsat].
  - intros j xi Hj Hxi Hax Hp.
    eapply (for_each_elem _ _ _ _ _ j) in Hloop2
      as (sa & sb & Hbody & _ & Hextb);
      [|intros; mono|apply elem_of_range; lia].
    apply bind_inv in Hbody as (vi & s0 & Hv & Hbody).
    apply lift_inv in Hv as [Hv ->].
    apply bind_inv in Hbody as (p & s0 & Hcp & Hbody).
    apply cell_of_pos in Hcp as (-> & -> & Hpp).
    apply bind_inv in Hbody as (c & s0 & Hcc & Hbody).
    apply cell_of_pos in Hcc as (-> & -> & Hpc).
    pose proof (vars_pos _ _ Hv) as Hpv.
    rewrite py_index_Z in Hv by done.
    assert (vi = xi) as -> by congruence.
    eapply clause_imp2; [|exact Hpv|exact Hpp|exact Hpc|exact Hax|exact Hp].
    eapply add_clause_sat; [exact Hbody|exact Hextb|exact Hsat].
Qed.
End CounterRun.

Lemma Forall2_const_r {A B} (Q : B -> Prop) (l : list A) (r : list B) :
  Forall2 (fun _ y => Q y) l r -> Forall Q r.
Proof. induction 1; constructor; done. Qed.

(** The matrix that [add_at_most_k_constraint] builds: its shape, and that
    its entries are ids handed out by [new_var]. *)
Lemma counter_matrix_spec prefix (n k : Z) s mtx s' :
  wf s ->
  mapM (fun i => mapM (fun j => new_var (aux_name prefix i j))
                      (range 0 (k + 1)))
       (range 0 n) s = Some (mtx, s') ->
  wf s' /\
  length mtx = length (range 0 n) /\
  Forall (fun row => length row = length (range 0 (k + 1)) /\
                     Forall (fun v => 1 <= v) row) mtx.
Proof.
  intros Hwf Hrun.
  apply (mapM_inv _ wf
           (fun _ row => length row = length (range 0 (k + 1)) /\
                         Forall (fun v => 1 <= v) row)) in Hrun
    as [Hwf' Hall]; [|intros i s0 row s0' Hwf0 Hrow|done].
  - split; [done|]. split.
    + symmetry. by eapply Forall2_length.
    + by eapply Forall2_const_r.
  - apply (mapM_inv _ wf (fun _ v => 1 <= v)) in Hrow
      as [Hwf1 Hrow]; [|intros j s1 v s1' Hwf1 Hv|done].
    + split; [done|]. split.
      * symmetry. by eapply Forall2_length.
      * by eapply Forall2_const_r.
    + split; [by eapply new_var_wf|].
      pose proof (new_var_range _ _ _ _ Hv Hwf1). lia.
Qed.

(** Soundness of the counter: an assignment that satisfies its clauses makes
    at most [k] of the variables true. *)
Lemma add_at_most_k_constraint_sound a vars k prefix s u s' :
  wf s -> Forall (fun v => 1 <= v) vars -> 0 <= k ->
  add_at_most_k_constraint vars k prefix s = Some (u, s') ->
  sat a s' ->
  count_true a vars <= k.
Proof.
  intros Hwf Hvars Hk Hrun Hsat. unfold add_at_most_k_constraint in Hrun.
  destruct (decide (Z.of_nat (length vars) <= k)) as [Hle|Hgt].
  { pose proof (count_true_le a vars). lia. }
  apply bind_inv in Hrun as (mtx & sa & Hm & Hrun).
  apply counter_matrix_spec in Hm as (Hwfa & _ & Hrows); [|done].
  assert (Hmtx : Forall (Forall (fun v => 1 <= v)) mtx).
  { eapply Forall_impl; [exact Hrows|]. by intros row [_ ?]. }
  apply bind_inv in Hrun as ([] & sb & Hinit & Hrun).
  apply bind_inv in Hrun as ([] & sc & Hloop & Hfin).
  assert (Hextc : ext sc s') by (revert Hfin; mono).
  assert (Hextb : ext sb sc).
  { revert Hloop. apply Mono_for_each. intros i. mono. }
  assert (Hsatc : sat a sc) by (by eapply sat_ext).
  assert (Hsatb : sat a sb) by (by eapply sat_ext).
  apply (seq_counter_sound a vars k (fun i j => a (entry mtx i j)));
    [done| | | | |].
  - by eapply initialize_base_sat.
  - intros i j Hi Hj.
    eapply (for_each_elem _ _ _ _ _ i) in Hloop
      as (s1 & s2 & Hbody & _ & Hext2);
      [|intros; mono|apply elem_of_range; lia].
    eapply propagate_sat in Hbody as (HP1 & _ & _); [by apply HP1|done|done|lia|].
    eapply sat_ext; [exact Hext2 | done].
  - intros i xi Hi.
    eapply (for_each_elem _ _ _ _ _ i) in Hloop
      as (s1 & s2 & Hbody & _ & Hext2);
      [|intros; mono|apply elem_of_range; lia].
    eapply propagate_sat in Hbody as (_ & HP2 & _); [by apply HP2|done|done|lia|].
    eapply sat_ext; [exact Hext2 | done].
  - intros i j xi Hi Hj.
    eapply (for_each_elem _ _ _ _ _ i) in Hloop
      as (s1 & s2 & Hbody & _ & Hext2);
      [|intros; mono|apply elem_of_range; lia].
    eapply propagate_sat in Hbody as (_ & _ & HP3); [by apply HP3|done|done|lia|].
    eapply sat_ext; [exact Hext2 | done].
  - intros _.
    apply bind_inv in Hfin as (last & s0 & Hc & Hcl).
    apply (cell_of_pos _ Hmtx) in Hc as (-> & -> & Hpos).
    eapply clause_neg1; [|exact Hpos].
    eapply add_clause_sat; [exact Hcl|apply ext_refl|done].
Qed.

Lemma Total_bind_post {A B} (m : Enc A) (f : A -> Enc B) (P : A -> Prop) :
  Total m -> (forall s a s', m s = Some (a, s') -> P a) ->
  (forall a, P a -> Total (f a)) -> Total (bind m f).
Proof.
  intros Hm HP Hf s. unfold bind. destruct (Hm s) as [[a s1] Hrun].
  rewrite Hrun. apply Hf. by eapply HP.
Qed.

Lemma counter_matrix_shape prefix (n k : Z) s mtx s' :
  0 <= n -> 0 <= k + 1 ->
  mapM (fun i => mapM (fun j => new_var (aux_name prefix i j))
                      (range 0 (k + 1)))
       (range 0 n) s = Some (mtx, s') ->
  Z.of_nat (length mtx) = n /\
  Forall (fun row => Z.of_nat (length row) = k + 1) mtx.
Proof.
  intros Hn Hk Hrun.
  apply (mapM_inv _ (fun _ => True)
           (fun _ row => Z.of_nat (length row) = k + 1)) in Hrun
    as [_ Hall]; [|intros i s0 row s0' _ Hrow|done].
  - split.
    + apply Forall2_length in Hall. rewrite <- Hall.
      unfold range. rewrite length_seqZ. lia.
    + by eapply Forall2_const_r.
  - split; [done|].
    apply (mapM_inv _ (fun _ => True) (fun _ _ => True)) in Hrow
      as [_ Hrow]; [|done|done].
    apply Forall2_length in Hrow. rewrite <- Hrow.
    unfold range. rewrite length_seqZ. lia.
Qed.

Lemma add_at_most_k_constraint_Total vars k prefix :
  0 <= k -> Total (add_at_most_k_constraint vars k prefix).
Proof.
  intros Hk. unfold add_at_most_k_constraint.
  apply Total_decide; intros Hn; [apply Total_ret|].
  set (n := Z.of_nat (length vars)) in *.
  eapply (Total_bind_post _ _
            (fun mtx => Z.of_nat (length mtx) = n /\
                        Forall (fun row => Z.of_nat (length row) = k + 1)
                               mtx)).
  - apply Total_mapM. intros i. apply Total_mapM. intros j.
    apply new_var_Total.
  - intros s mtx s' Hrun. eapply counter_matrix_shape; [| |exact Hrun]; lia.
  - intros mtx [Hlen Hrows].
    assert (Hcell : forall i j, 0 <= i < n -> 0 <= j < k + 1 ->
                                Total (cell_of mtx i j)).
    { intros i j Hi Hj. by eapply cell_of_Total. }
    assert (Hvar : forall i, 0 <= i < n -> Total (lift (py_index vars i))).
    { intros i Hi. apply Total_lift. apply py_index_range. fold n. lia. }
    apply Total_bind.
    { unfold _initialize_base_constraints.
      apply Total_bind; [apply Hvar; lia|]. intros x0.
      apply Total_bind; [apply Hcell; lia|]. intros s00.
      apply Total_bind; [apply Total_add_clause|]. intros _.
      apply Total_for_each. intros j Hj%elem_of_range.
      apply Total_bind; [apply Hcell; lia|]. intros c.
      apply Total_add_clause. }
    intros _. apply Total_bind.
    { apply Total_for_each. intros i Hi%elem_of_range.
      unfold _propagate_constraints. apply Total_bind.
      { apply Total_for_each. intros j Hj%elem_of_range.
        apply Total_bind; [apply Hcell; lia|]. intros p.
        apply Total_bind; [apply Hcell; lia|]. intros c.
        apply Total_add_clause. }
      intros _. apply Total_bind.
      { apply Total_bind; [apply Hvar; lia|]. intros vi.
        apply Total_bind; [apply Hcell; lia|]. intros c.
        apply Total_add_clause. }
      intros _. apply Total_for_each. intros j Hj%elem_of_range.
      apply Total_bind; [apply Hvar; lia|]. intros vi.
      apply Total_bind; [apply Hcell; lia|]. intros p.
      apply Total_bind; [apply Hcell; lia|]. intros c.
      apply Total_add_clause. }
    intros _. apply Total_bind; [apply Hcell; lia|]. intros c.
    apply Total_add_clause.
Qed.

Lemma define_cell_Total N M k st en x y t :
  Total (define_cell N M k st en x y t).
Proof.
  unfold define_cell. apply Total_bind; [apply new_var_Total|]. intros l.
  apply Total_bind.
  { apply Total_decide; intros _; [|apply Total_ret].
    apply Total_bind; [apply new_var_Total|]. intros tv. apply Total_ret. }
  intros t2. apply Total_bind; [apply new_var_Total|]. intros sv.
  apply Total_foldM. intros d t3 _. apply Total_if; intros _.
  - apply Total_bind; [apply new_var_Total|]. intros e. apply Total_ret.
  - apply Total_ret.
Qed.

Lemma define_variables_Total N M lines_spec :
  Total (define_variables N M lines_spec).
Proof.
  unfold define_variables. apply Total_foldM. intros [k [st en]] t _.
  apply Total_foldM. intros x t1 _. apply Total_foldM. intros y t2 _.
  apply define_cell_Total.
Qed.

(** On a well-formed problem the script reaches its output step. *)
Lemma encoder_Total p : well_formed p -> Total (encoder p).
Proof.
  intros (Hmode & HJ & Hends). unfold encoder, encoder_on.
  rewrite decide_True by done.
  eapply (Total_bind_post _ _
            (fun t => exists s1,
               tables_inv (p_N p) (p_M p)
                          (all_cells (p_N p) (p_M p) (p_lines_spec p)) t s1)).
  - apply define_variables_Total.
  - intros s t s' Hrun. exists s'. by eapply define_variables_inv.
  - intros t [s1 Hinv]. apply Total_bind; [|intros _; apply Total_ret].
    unfold apply_all_constraints.
    apply Total_bind; [apply enforce_unique_occupancy_Total|]. intros _.
    apply Total_bind;
      [by eapply enforce_edge_location_consistency_Total|]. intros _.
    apply Total_bind; [by eapply enforce_path_continuity_Total|]. intros _.
    apply Total_bind.
    { unfold enforce_turn_constraints. apply Total_for_each. intros ks _.
      apply Total_bind; [by eapply turn_items_loop_Total|].
      intros tvs. apply Total_decide; intros _; [|apply Total_ret].
      by apply add_at_most_k_constraint_Total. }
    intros _.
    apply Total_bind; [by eapply enforce_path_connectivity_Total|].
    intros _. apply enforce_popular_cell_constraint_Total.
Qed.

Lemma encode_Total p : well_formed p -> is_Some (encode p).
Proof.
  intros Hwf. unfold encode, run_encoder.
  destruct (encoder_Total p Hwf init_state) as [[t s] ->]. eauto.
Qed.

(** The stages of a run of the encoder. *)
Lemma run_encoder_inv p t s :
  run_encoder p = Some (t, s) ->
  exists s0 s1 s2 s3 s4 s5,
    tables_inv (p_N p) (p_M p)
               (all_cells (p_N p) (p_M p) (p_lines_spec p)) t s0 /\
    wf s0 /\
    enforce_unique_occupancy (cells_lines t) s0 = Some (tt, s1) /\
    enforce_edge_location_consistency (E_vars t) (L_vars t) s1
      = Some (tt, s2) /\
    enforce_path_continuity (p_lines_spec p) (L_vars t) (E_vars t)
                            (p_N p) (p_M p) s2 = Some (tt, s3) /\
    enforce_turn_constraints (p_lines_spec p) (T_vars t) (L_vars t)
                             (E_vars t) STRAIGHT_PAIRS (p_J p) s3
      = Some (tt, s4) /\
    enforce_path_connectivity (p_lines_spec p) (S_vars t) (E_vars t)
                              (L_vars t) (p_N p) (p_M p) s4 = Some (tt, s5) /\
    enforce_popular_cell_constraint (p_mode p) (p_popular p) (cells_lines t)
                                    s5 = Some (tt, s) /\
    ext s0 s1 /\ ext s1 s2 /\ ext s2 s3 /\ ext s3 s4 /\ ext s4 s5 /\
    ext s5 s.
Proof.
  unfold run_encoder, encoder, encoder_on. intros Hrun.
  destruct (decide (p_mode p = 1 \/ p_mode p = 2)); [|done].
  apply bind_inv in Hrun as (t0 & s0 & Hdef & Hrun).
  apply bind_inv in Hrun as ([] & s' & Hall & Hret).
  apply ret_inv in Hret as [-> ->].
  unfold apply_all_constraints in Hall.
  apply bind_inv in Hall as ([] & s1 & H1 & Hall).
  apply bind_inv in Hall as ([] & s2 & H2 & Hall).
  apply bind_inv in Hall as ([] & s3 & H3 & Hall).
  apply bind_inv in Hall as ([] & s4 & H4 & Hall).
  apply bind_inv in Hall as ([] & s5 & H5 & H6).
  exists s0, s1, s2, s3, s4, s5.
  split; [by eapply define_variables_inv|].
  split.
  { pose proof (define_variables_Mono _ _ _ _ _ _ Hdef) as (_ & _ & Hw).
    apply Hw, init_state_wf. }
  do 6 (split; [done|]).
  split; [by eapply enforce_unique_occupancy_Mono|].
  split; [by eapply enforce_edge_location_consistency_Mono|].
  split; [by eapply enforce_path_continuity_Mono|].
  split; [by eapply enforce_turn_constraints_Mono|].
  split; [by eapply enforce_path_connectivity_Mono|].
  by eapply enforce_popular_cell_constraint_Mono.
Qed.

(* ------------------------------------------------------------------ *)
(** ** Popular cells *)

Lemma popular_body_run mode popular cl s s' pc :
  enforce_popular_cell_constraint mode popular cl s = Some (tt, s') ->
  mode = 2 -> pc ∈ popular ->
  exists s1 s2,
    (let vids := default [] (Dict.get cl pc) in
     if decide (vids <> []) then add_clause vids
     else bind (add_clause [1]) (fun _ => add_clause [-1])) s1
    = Some (tt, s2) /\ ext s2 s'.
Proof.
  unfold enforce_popular_cell_constraint. intros Hrun -> Hpc.
  rewrite decide_False in Hrun.
  2:{ intros [?| ->]; [done|]. by apply elem_of_nil in Hpc. }
  eapply (for_each_elem _ _ _ _ _ pc) in Hrun
    as (s1 & s2 & Hbody & _ & Hext); [|intros; mono|done].
  by exists s1, s2.
Qed.

Lemma unit_clauses_unsat a s : [1] ∈ clauses s -> [-1] ∈ clauses s -> ~ sat a s.
Proof.
  intros H1 H2 Hsat.
  pose proof (sat_elem _ _ _ Hsat H1) as Hp.
  pose proof (sat_elem _ _ _ Hsat H2) as Hn.
  unfold clause_sat in Hp, Hn. simpl in Hp, Hn.
  rewrite orb_false_r in Hp, Hn.
  change (-1) with (- (1)) in Hn.
  rewrite lit_true_neg in Hn by lia. rewrite lit_true_pos in Hp by lia.
  rewrite Hp in Hn. done.
Qed.

Lemma popular_cell_clauses (p : problem) (t : tables) (s : state)
    (pc : cell) :
  run_encoder p = Some (t, s) ->
  p_mode p = 2 ->
  pc ∈ p_popular p ->
  let vids := default [] (Dict.get (cells_lines t) pc) in
  (forall v, v ∈ vids <->
             exists k, Dict.get (L_vars t) (k, pc.1, pc.2) = Some v) /\
  (vids <> [] ->
   vids ∈ clauses s /\
   forall a, sat a s ->
             exists k, holds a (L_vars t) (k, pc.1, pc.2) = true) /\
  (vids = [] ->
   [1] ∈ clauses s /\ [-1] ∈ clauses s /\ forall a, ~ sat a s).
Proof.
  intros Hrun Hmode Hpc vids.
  apply run_encoder_inv in Hrun
    as (s0 & s1 & s2 & s3 & s4 & s5 & Hinv & Hwf & _ & _ & _ & _ & _ & Hpop
        & _).
  destruct (popular_body_run _ _ _ _ _ _ Hpop Hmode Hpc)
    as (sa & sb & Hbody & Hext).
  fold vids in Hbody. simpl in Hbody.
  assert (Hspec : forall v, v ∈ vids <->
            exists k, Dict.get (L_vars t) (k, pc.1, pc.2) = Some v).
  { intros v. by eapply cells_lines_spec. }
  split; [exact Hspec|]. split.
  - intros Hne. rewrite decide_True in Hbody by done.
    assert (Hin : vids ∈ clauses s).
    { eapply ext_clause; [exact Hext|].
      apply add_clause_inv in Hbody as (-> & _).
      apply elem_of_app. right. apply list_elem_of_here. }
    split; [done|]. intros a Hsat.
    pose proof (sat_elem _ _ _ Hsat Hin) as Hc.
    unfold clause_sat in Hc. apply existsb_exists in Hc as (v & Hv & Hlit).
    apply list_elem_of_In in Hv. apply Hspec in Hv as [k Hk].
    exists k. unfold holds. rewrite Hk.
    rewrite lit_true_pos in Hlit; [done|].
    by eapply L_vars_pos.
  - intros Hnil. rewrite decide_False in Hbody by (by intros ?).
    apply bind_inv in Hbody as ([] & sm & Hc1 & Hc2).
    apply add_clause_inv in Hc1 as (Hc1 & _).
    apply add_clause_inv in Hc2 as (Hc2 & _).
    assert (H1 : [1] ∈ clauses s).
    { eapply ext_clause; [exact Hext|]. rewrite Hc2, Hc1.
      apply elem_of_app. left. apply elem_of_app. right.
      apply list_elem_of_here. }
    assert (H2 : [-1] ∈ clauses s).
    { eapply ext_clause; [exact Hext|]. rewrite Hc2.
      apply elem_of_app. right. apply list_elem_of_here. }
    split; [done|]. split; [done|]. intros a.
    by apply unit_clauses_unsat.
Qed.

(** C8.  In a scenario-2 run, for every popular cell: the candidate
    variables of the cell are exactly the occupied variables of all the lines
    at that cell; when there are some, their disjunction is one of the emitted
    clauses, so every satisfying assignment has a line that occupies the
    cell; when there are none, the contradictory unit clauses [1] and [-1]
    are emitted and no assignment satisfies the CNF. *)
Theorem popular_cell_coverage (p : problem) (t : tables) (s : state)
    (pc : cell) :
  run_encoder p = Some (t, s) ->
  p_mode p = 2 ->
  pc ∈ p_popular p ->
  let vids := default [] (Dict.get (cells_lines t) pc) in
  (forall v, v ∈ vids <->
             exists k, Dict.get (L_vars t) (k, pc.1, pc.2) = Some v) /\
  (vids <> [] ->
   vids ∈ clauses s /\
   forall a, sat a s ->
             exists k, holds a (L_vars t) (k, pc.1, pc.2) = true) /\
  (vids = [] ->
   [1] ∈ clauses s /\ [-1] ∈ clauses s /\ forall a, ~ sat a s).
Proof. apply popular_cell_clauses. Qed.

Lemma popular_cell_coverage_witness :
  [4] ∈ clauses (default (empty_tables, init_state)
                         (run_encoder popular_inside)).2.
Proof.
  pose proof (popular_cell_coverage popular_inside
                (default (empty_tables, init_state)
                         (run_encoder popular_inside)).1
                (default (empty_tables, init_state)
                         (run_encoder popular_inside)).2
                (0, 1) ltac:(vm_compute; reflexivity) eq_refl
                (list_elem_of_here _ _)) as (_ & Hsome & _).
  destruct Hsome as [Hin _]; [vm_compute; discriminate|].
  exact Hin.
Defined.

(* ------------------------------------------------------------------ *)
(** ** Malformed problem descriptions *)

Lemma bind_None {A B} (m : Enc A) (f : A -> Enc B) s :
  m s = None -> bind m f s = None.
Proof. unfold bind. by intros ->. Qed.

Lemma for_each_raise {A} (l : list A) (body : A -> Enc unit) x :
  x ∈ l -> (forall s, body x s = None) -> forall s, for_each l body s = None.
Proof.
  intros Hin Hx. induction l as [|y l IH]; intros s.
  - by apply elem_of_nil in Hin.
  - simpl. apply elem_of_cons in Hin as [<-|Hin].
    + by apply bind_None.
    + unfold bind. destruct (body y s) as [[[] s1]|]; [|done]. by apply IH.
Qed.

(** A line end outside the grid has no occupied variable, and the lookup of
    [enforce_path_continuity] raises. *)
Lemma enforce_path_continuity_raise N M lines_spec t s1 st en :
  tables_inv N M (all_cells N M lines_spec) t s1 ->
  (st, en) ∈ lines_spec ->
  in_grid N M st = false \/ in_grid N M en = false ->
  forall s,
    enforce_path_continuity lines_spec (L_vars t) (E_vars t) N M s = None.
Proof.
  intros Hinv Hin Hout.
  apply list_elem_of_lookup in Hin as [i Hi].
  assert (Hk : (Z.of_nat i, (st, en)) ∈ enumerate lines_spec)
    by (apply elem_of_enumerate; eauto).
  assert (Hnone : forall c : cell,
            in_grid N M c = false ->
            Dict.get (L_vars t) (Z.of_nat i, c.1, c.2) = None).
  { intros c Hc. destruct (Dict.get (L_vars t) _) eqn:Hg; [|done].
    assert (Hs : is_Some (Dict.get (L_vars t) (Z.of_nat i, c.1, c.2)))
      by eauto.
    apply (inv_L _ _ _ _ _ Hinv) in Hs.
    apply visited_by_all_cells in Hs as (_ & Hx & Hy).
    assert (in_grid N M c = true) by (by apply in_grid_spec). congruence. }
  unfold enforce_path_continuity.
  apply (for_each_raise _ _ (Z.of_nat i, (st, en))); [done|].
  intros s. destruct Hout as [Hst|Hen].
  - apply bind_None, bind_None. by rewrite (Hnone st Hst).
  - unfold bind at 1.
    destruct (bind (lift (Dict.get (L_vars t) (Z.of_nat i, st.1, st.2)))
                   (fun ls => add_clause [ls]) s) as [[[] s']|]; [|done].
    apply bind_None, bind_None. by rewrite (Hnone en Hen).
Qed.

Lemma run_encoder_line_outside p st en :
  (st, en) ∈ p_lines_spec p ->
  in_grid (p_N p) (p_M p) st = false \/ in_grid (p_N p) (p_M p) en = false ->
  run_encoder p = None.
Proof.
  intros Hin Hout. unfold run_encoder, encoder, encoder_on.
  destruct (decide (p_mode p = 1 \/ p_mode p = 2)); [|done].
  unfold bind at 1.
  destruct (define_variables (p_N p) (p_M p) (p_lines_spec p) init_state)
    as [[t s0]|] eqn:Hdef; [|done].
  apply define_variables_inv in Hdef.
  apply bind_None. unfold apply_all_constraints.
  unfold bind at 1.
  destruct (enforce_unique_occupancy (cells_lines t) s0) as [[[] s1]|];
    [|done].
  unfold bind at 1.
  destruct (enforce_edge_location_consistency (E_vars t) (L_vars t) s1)
    as [[[] s2]|]; [|done].
  apply bind_None. by eapply enforce_path_continuity_raise.
Qed.

Lemma run_encoder_allocates p t s :
  run_encoder p = Some (t, s) ->
  p_lines_spec p <> [] ->
  (forall st en, (st, en) ∈ p_lines_spec p ->
                 in_grid (p_N p) (p_M p) st = true) ->
  2 <= next_var s.
Proof.
  intros Hrun Hne Hends.
  pose proof (run_encoder_wf _ _ _ Hrun) as Hwf.
  apply run_encoder_inv in Hrun
    as (s0 & s1 & s2 & s3 & s4 & s5 & Hinv & _ & _ & _ & _ & _ & _ & _
        & E1 & E2 & E3 & E4 & E5 & E6).
  assert (Hext : ext s0 s) by (repeat (eapply ext_trans; [eassumption|]); done).
  destruct (p_lines_spec p) as [|[st en] ls] eqn:Hl; [done|].
  assert (Hk : (0, (st, en)) ∈ enumerate (p_lines_spec p)).
  { rewrite Hl. apply elem_of_enumerate. by exists 0%nat. }
  rewrite <- Hl in Hinv.
  pose proof (Hends st en (list_elem_of_here _ _)) as Hst.
  apply in_grid_spec in Hst as [Hx Hy].
  destruct (L_vars_present _ _ _ _ _ Hinv 0 st en st.1 st.2 Hk Hx Hy)
    as [v Hv].
  apply (inv_nL _ _ _ _ _ Hinv) in Hv.
  apply (ext_var _ _ _ _ Hext) in Hv. apply (wf_range _ Hwf) in Hv. lia.
Qed.

(** C4, as the code has it.  The encoder has no validation step.  For a
    scenario-2 description that is otherwise well-formed but has a popular
    cell outside the grid, it runs to its end: it allocates its variables
    and emits a CNF, which holds the unit clauses [1] and [-1] and is
    unsatisfiable.  For a description with a line end outside the grid, the
    script stops on a failed table lookup and emits nothing. *)
Theorem encode_without_validation (p : problem) :
  (forall pc,
     well_formed p -> p_mode p = 2 -> pc ∈ p_popular p ->
     in_grid (p_N p) (p_M p) pc = false ->
     exists out,
       encode p = Some out /\
       [1] ∈ out_clauses out /\ [-1] ∈ out_clauses out /\
       (forall a, cnf_sat a (out_clauses out) = false) /\
       (p_lines_spec p <> [] -> 1 <= out_num_vars out)) /\
  (forall st en,
     (st, en) ∈ p_lines_spec p ->
     in_grid (p_N p) (p_M p) st = false \/
     in_grid (p_N p) (p_M p) en = false ->
     encode p = None).
Proof.
  split.
  - intros pc Hwf Hmode Hpc Hout.
    destruct (encoder_Total p Hwf init_state) as [[t s] Hrun].
    fold (run_encoder p) in Hrun.
    exists (write_output p s). unfold encode. rewrite Hrun.
    split; [done|]. simpl.
    pose proof (popular_cell_clauses p t s pc Hrun Hmode Hpc)
      as (_ & _ & Hnone).
    assert (Hnil : default [] (Dict.get (cells_lines t) pc) = []).
    { destruct (decide (default [] (Dict.get (cells_lines t) pc) = []))
        as [|Hne]; [done|]. exfalso.
      pose proof Hrun as Hrun'.
      apply run_encoder_inv in Hrun' as (s0 & _ & _ & _ & _ & _ & Hinv & _).
      apply (cells_lines_nonempty _ _ _ _ _ Hinv) in Hne as [_ Hg].
      congruence. }
    destruct (Hnone Hnil) as (H1 & H2 & Hunsat).
    split; [done|]. split; [done|]. split.
    + intros a. specialize (Hunsat a). unfold sat in Hunsat.
      by destruct (cnf_sat a (clauses s)).
    + intros Hne.
      assert (2 <= next_var s); [|lia].
      eapply run_encoder_allocates; [done|done|].
      intros st en Hin. destruct Hwf as (_ & _ & Hends).
      by destruct (Hends st en Hin).
  - intros st en Hin Hout. unfold encode.
    by rewrite (run_encoder_line_outside p st en Hin Hout).
Qed.

Lemma encode_without_validation_witness :
  (exists out,
     encode popular_outside = Some out /\
     [1] ∈ out_clauses out /\ [-1] ∈ out_clauses out) /\
  encode (mkProblem 1 3 1 1 0 [((0, 0), (3, 0))] []) = None.
Proof.
  split.
  - destruct (proj1 (encode_without_validation popular_outside) (5, 5))
      as (out & Hout & H1 & H2 & _).
    + (split; [by right|]). (split; [done|]).
      intros st en Hin. apply list_elem_of_singleton in Hin.
      injection Hin as -> ->. (split; reflexivity).
    + reflexivity.
    + apply list_elem_of_here.
    + reflexivity.
    + (exists out; split; [exact Hout|split; [exact H1|exact H2]]).
  - apply (proj2 (encode_without_validation
                    (mkProblem 1 3 1 1 0 [((0, 0), (3, 0))] []))
                 (0, 0) (3, 0)).
    + apply list_elem_of_here.
    + right. reflexivity.
Defined.

(** C4, as the claim states it, fails: this description has its popular cell
    (5,5) outside the 1x2 grid, and the encoder allocates 6 variables and
    emits 19 clauses for it. *)
Lemma encode_malformed_not_rejected :
  in_grid (p_N popular_outside) (p_M popular_outside) (5, 5) = false /\
  exists out,
    encode popular_outside = Some out /\
    out_num_vars out = 6 /\ length (out_clauses out) = 19%nat.
Proof.
  split; [reflexivity|]. eexists. split; [vm_compute; reflexivity|].
  split; reflexivity.
Qed.

(* ------------------------------------------------------------------ *)
(** ** The output does not depend on how the set is stored *)

Lemma bind_ext {A B} (m1 m2 : Enc A) (f1 f2 : A -> Enc B) s :
  (forall s, m1 s = m2 s) -> (forall a s, f1 a s = f2 a s) ->
  bind m1 f1 s = bind m2 f2 s.
Proof.
  intros Hm Hf. unfold bind. rewrite Hm.
  destruct (m2 s) as [[a s1]|]; [apply Hf | done].
Qed.

Lemma for_each_ext {A} (l : list A) (f g : A -> Enc unit) s :
  (forall x s, f x s = g x s) -> for_each l f s = for_each l g s.
Proof.
  intros Hfg. revert s. induction l as [|x l IH]; intros s; [done|].
  simpl. apply bind_ext; [apply Hfg | intros _; apply IH].
Qed.

Section SetOrder.
Context (sp1 sp2 : list (Dir * Dir)).
Hypothesis Hperm : sp1 ≡ₚ sp2.

Lemma turn_pair_clause_order E k x y l tv pr s :
  turn_pair_clause sp1 E k x y l tv pr s
  = turn_pair_clause sp2 E k x y l tv pr s.
Proof.
  unfold turn_pair_clause. destruct pr as [D1 D2].
  assert (Hb : bool_decide ((D1, D2) ∈ sp1) = bool_decide ((D1, D2) ∈ sp2)).
  { apply bool_decide_ext. by rewrite Hperm. }
  by rewrite Hb.
Qed.

Lemma turn_items_loop_order T L E k s :
  turn_items_loop sp1 T L E k s = turn_items_loop sp2 T L E k s.
Proof.
  unfold turn_items_loop. apply foldM_ext.
  intros [[[line_k x] y] tv] acc s0.
  destruct (decide (line_k <> k)); [done|].
  apply bind_ext; [done|]. intros l s1.
  apply bind_ext; [done|]. intros _ s2.
  apply bind_ext; [|done]. intros s3.
  apply for_each_ext. intros pr s4. apply turn_pair_clause_order.
Qed.

Lemma enforce_turn_constraints_order ls T L E J s :
  enforce_turn_constraints ls T L E sp1 J s
  = enforce_turn_constraints ls T L E sp2 J s.
Proof.
  unfold enforce_turn_constraints. apply for_each_ext. intros ks s0.
  apply bind_ext; [|done]. intros s1. apply turn_items_loop_order.
Qed.

Lemma encoder_on_order p s : encoder_on sp1 p s = encoder_on sp2 p s.
Proof.
  unfold encoder_on. destruct (decide (p_mode p = 1 \/ p_mode p = 2)); [|done].
  apply bind_ext; [done|]. intros t s0.
  apply bind_ext; [|done]. intros s1. unfold apply_all_constraints.
  apply bind_ext; [done|]. intros _ s2.
  apply bind_ext; [done|]. intros _ s3.
  apply bind_ext; [done|]. intros _ s4.
  apply bind_ext; [|done]. intros s5. apply enforce_turn_constraints_order.
Qed.
End SetOrder.

(** C6.  Encoding is deterministic: whatever the order in which the runs
    store the set [STRAIGHT_PAIRS], two runs on the same problem description
    end the same way, and when they write their files the CNF text and the
    variable-map metadata are identical; the run modelled by [encode] is one
    of them. *)
Theorem encode_deterministic (p : problem) (sp1 sp2 : list (Dir * Dir)) :
  sp1 ≡ₚ STRAIGHT_PAIRS -> sp2 ≡ₚ STRAIGHT_PAIRS ->
  encode_on sp1 p = encode_on sp2 p /\
  encode_on sp1 p = encode p /\
  match encode_on sp1 p, encode_on sp2 p with
  | Some o1, Some o2 =>
      out_satinput o1 = out_satinput o2 /\ out_metadata o1 = out_metadata o2
  | None, None => True
  | _, _ => False
  end.
Proof.
  intros H1 H2.
  assert (Heq : forall sp, sp ≡ₚ STRAIGHT_PAIRS -> encode_on sp p = encode p).
  { intros sp Hsp. unfold encode, encode_on, run_encoder, encoder.
    by rewrite (encoder_on_order sp STRAIGHT_PAIRS Hsp). }
  rewrite (Heq sp1 H1), (Heq sp2 H2). split; [done|]. split; [done|].
  by destruct (encode p).
Qed.

Lemma encode_deterministic_witness :
  encode_on (reverse STRAIGHT_PAIRS) straight_line
  = encode_on STRAIGHT_PAIRS straight_line.
Proof.
  exact (proj1 (encode_deterministic straight_line (reverse STRAIGHT_PAIRS)
                  STRAIGHT_PAIRS (reverse_Permutation STRAIGHT_PAIRS)
                  (reflexivity STRAIGHT_PAIRS))).
Defined.

(* ------------------------------------------------------------------ *)
(** ** The turn budget *)

Lemma set_NoDup {K V} `{EqDecision K} (d : Dict.t K V) k v :
  NoDup (Dict.keys d) -> NoDup (Dict.keys (Dict.set d k v)).
Proof.
  intros Hnd. destruct (Dict.get d k) as [v0|] eqn:Hg.
  - rewrite keys_set_present; eauto.
  - rewrite keys_set_fresh by done. apply NoDup_app.
    split; [done|]. split; [|apply NoDup_singleton].
    intros k' Hin Hk'. apply list_elem_of_singleton in Hk' as ->.
    by apply get_None_keys in Hg.
Qed.

Lemma define_cell_T_NoDup N M k st en x y t s t' s' :
  define_cell N M k st en x y t s = Some (t', s') ->
  NoDup (Dict.keys (T_vars t)) -> NoDup (Dict.keys (T_vars t')).
Proof.
  unfold define_cell. intros Hrun Hnd.
  apply bind_inv in Hrun as (l & s1 & Hl & Hrun).
  apply bind_inv in Hrun as (t2 & s2 & Ht & Hrun).
  apply bind_inv in Hrun as (sv & s3 & Hs & Hrun).
  change (define_edges N M k x y DIRS_LIST
            (set_S t2 (k, x, y) sv) s3 = Some (t', s')) in Hrun.
  apply define_edges_spec in Hrun as (_ & -> & _). simpl.
  destruct (decide ((x, y) <> st /\ (x, y) <> en)).
  - apply bind_inv in Ht as (tv & s0 & _ & Hret).
    apply ret_inv in Hret as [-> ->]. simpl. by apply set_NoDup.
  - apply ret_inv in Ht as [-> ->]. done.
Qed.

Lemma define_variables_T_NoDup N M lines_spec s t s' :
  define_variables N M lines_spec s = Some (t, s') ->
  NoDup (Dict.keys (T_vars t)).
Proof.
  rewrite define_variables_flat. intros Hrun.
  eapply (foldM_progress _ (fun _ t _ => NoDup (Dict.keys (T_vars t))));
    [| |exact Hrun]; [|simpl; apply NoDup_nil_2].
  intros done it rest b s0 b' s0' _ Hnd Hstep. simpl in *.
  by eapply define_cell_T_NoDup.
Qed.

(** The loop over [T_vars.items()] collects the turn variables of the
    line. *)
Lemma turn_items_loop_result sp T L E k s tvs s' :
  turn_items_loop sp T L E k s = Some (tvs, s') ->
  tvs = turn_vars_of_line T k.
Proof.
  unfold turn_items_loop, turn_vars_of_line, Dict.items.
  assert (Hgen : forall items acc s,
            foldM (fun item turn_vars_for_line =>
                     let '(line_k, x, y, t_var) := item in
                     if decide (line_k <> k) then ret turn_vars_for_line
                     else
                       let turn_vars_for_line :=
                         turn_vars_for_line ++ [t_var] in
                       bind (lift (Dict.get L (k, x, y))) (fun l_var =>
                       bind (add_clause [- t_var; l_var]) (fun _ =>
                       bind (for_each (index_pairs DIRS_LIST)
                               (turn_pair_clause sp E k x y l_var t_var))
                            (fun _ => ret turn_vars_for_line))))
                  items acc s = Some (tvs, s') ->
            tvs = acc ++ map snd (filter (fun item => item.1.1.1 = k) items)).
  { induction items as [|[[[line_k x] y] tv] items IH]; intros acc s0 Hrun.
    - apply ret_inv in Hrun as [-> ->]. by rewrite app_nil_r.
    - simpl in Hrun. apply bind_inv in Hrun as (acc1 & s1 & Hstep & Hrest).
      apply IH in Hrest as ->. rewrite filter_cons. simpl.
      destruct (decide (line_k <> k)) as [Hne|Heq].
      + apply ret_inv in Hstep as [-> ->].
        by rewrite decide_False by done.
      + assert (line_k = k) as -> by (destruct (decide (line_k = k)); done).
        rewrite decide_True by done.
        apply bind_inv in Hstep as (l & s2 & _ & Hstep).
        apply bind_inv in Hstep as ([] & s3 & _ & Hstep).
        apply bind_inv in Hstep as ([] & s4 & _ & Hstep).
        apply ret_inv in Hstep as [-> ->].
        simpl. by rewrite <- app_assoc. }
  intros Hrun. by apply Hgen in Hrun.
Qed.

Lemma ext_wf s s' : ext s s' -> wf s -> wf s'.
Proof. intros (_ & _ & Hw). exact Hw. Qed.

Lemma turn_budget_holds p t s a k st en :
  run_encoder p = Some (t, s) ->
  0 <= p_J p ->
  (k, (st, en)) ∈ enumerate (p_lines_spec p) ->
  sat a s ->
  count_true a (turn_vars_of_line (T_vars t) k) <= p_J p.
Proof.
  intros Hrun HJ Hk Hsat.
  assert (Hnd : NoDup (Dict.keys (T_vars t))).
  { unfold run_encoder, encoder, encoder_on in Hrun.
    destruct (decide (p_mode p = 1 \/ p_mode p = 2)); [|done].
    apply bind_inv in Hrun as (t0 & s0 & Hdef & Hrun).
    apply bind_inv in Hrun as ([] & s1 & _ & Hret).
    apply ret_inv in Hret as [-> ->].
    by eapply define_variables_T_NoDup. }
  apply run_encoder_inv in Hrun
    as (s0 & s1 & s2 & s3 & s4 & s5 & Hinv & Hwf & _ & _ & _ & Hturn & _ & _
        & E1 & E2 & E3 & E4 & E5 & E6).
  eapply (for_each_elem _ _ _ _ _ (k, (st, en))) in Hturn
    as (sa & sb & Hbody & Hexta & Hextb); [|intros; mono|done].
  simpl in Hbody.
  apply bind_inv in Hbody as (tvs & sm & Hloop & Hrest).
  pose proof (turn_items_loop_Mono _ _ _ _ _ _ _ _ Hloop) as Hextm.
  apply turn_items_loop_result in Hloop as ->.
  destruct (decide (turn_vars_of_line (T_vars t) k <> [])) as [Hne|Hnil].
  - eapply add_at_most_k_constraint_sound; [| |done|exact Hrest|].
    + repeat (first [eassumption | eapply ext_wf; [eassumption|]]).
    + apply Forall_forall. intros v Hv. unfold turn_vars_of_line in Hv.
      apply list_elem_of_fmap in Hv as ([[[k' x] y] v'] & -> & Hin).
      apply list_elem_of_filter in Hin as [_ Hin].
      apply NoDup_keys_In_get in Hin; [|done].
      by eapply T_vars_pos.
    + eapply sat_ext; [|exact Hsat].
      eapply ext_trans; [exact Hextb|].
      eapply ext_trans; [exact E5|]. exact E6.
  - assert (turn_vars_of_line (T_vars t) k = []) as ->
      by (destruct (turn_vars_of_line (T_vars t) k); [done|by exfalso; apply Hnil]).
    unfold count_true. simpl. lia.
Qed.

(** C2.  For every problem with a turn budget J >= 0 on which the encoder
    runs, and every line k, a satisfying assignment of the emitted clauses
    makes at most J of the turn variables of line k true: the sequential
    counter bounds the list of turn variables it is given. *)
Theorem turn_budget_enforced (p : problem) (t : tables) (s : state)
    (a : assignment) (k : Z) (st en : cell) :
  run_encoder p = Some (t, s) ->
  0 <= p_J p ->
  (k, (st, en)) ∈ enumerate (p_lines_spec p) ->
  cnf_sat a (clauses s) = true ->
  count_true a (turn_vars_of_line (T_vars t) k) <= p_J p.
Proof. apply turn_budget_holds. Qed.

Lemma turn_budget_enforced_witness :
  count_true straight_assignment
             (turn_vars_of_line (T_vars (final_tables straight_line)) 0)
  <= p_J straight_line.
Proof.
  exact (turn_budget_enforced straight_line (final_tables straight_line)
           (final_state straight_line) straight_assignment 0 (0, 0) (2, 0)
           ltac:(vm_compute; reflexivity)
           ltac:(vm_compute; discriminate)
           ltac:(apply list_elem_of_here)
           ltac:(vm_compute; reflexivity)).
Defined.

(* ------------------------------------------------------------------ *)
(** ** The degree constraint *)

Lemma comb_sublist {A} (l sub : list A) :
  sub `sublist_of` l -> sub ∈ comb l (length sub).
Proof.
  induction 1 as [|x l1 l2 Hsub IH|x l1 l2 Hsub IH]; simpl.
  - apply list_elem_of_here.
  - apply elem_of_app. left. apply list_elem_of_fmap. by exists l1.
  - destruct l1 as [|y l1]; simpl in *.
    + apply list_elem_of_here.
    + apply elem_of_app. by right.
Qed.

Lemma comb_elem {A} (l sub : list A) r x :
  sub ∈ comb l r -> x ∈ sub -> x ∈ l.
Proof.
  revert sub r. induction l as [|y l IH]; intros sub r Hsub Hx.
  - destruct r; simpl in Hsub.
    + apply list_elem_of_singleton in Hsub as ->. done.
    + by apply elem_of_nil in Hsub.
  - destruct r; simpl in Hsub.
    + apply list_elem_of_singleton in Hsub as ->.
      by apply elem_of_nil in Hx.
    + apply elem_of_app in Hsub as [Hsub|Hsub].
      * apply list_elem_of_fmap in Hsub as (sub' & -> & Hsub').
        apply elem_of_cons in Hx as [->|Hx]; [apply list_elem_of_here|].
        apply list_elem_of_further. by eapply IH.
      * apply list_elem_of_further. by eapply IH.
Qed.

Lemma filter_complement_length {A} (P : A -> Prop) `{forall x, Decision (P x)}
    (l : list A) :
  (length (filter P l) + length (filter (fun x => ~ P x) l))%nat = length l.
Proof.
  induction l as [|x l IH]; [done|].
  rewrite !filter_cons. destruct (decide (P x)).
  - rewrite decide_False by tauto. simpl. lia.
  - rewrite decide_True by done. simpl. lia.
Qed.

(** A sublist of [r] elements of [l] that all satisfy [P], when [l] has at
    least that many. *)
Lemma comb_filter_take {A} (P : A -> Prop) `{forall x, Decision (P x)}
    (l : list A) (r : nat) :
  (r <= length (filter P l))%nat ->
  exists sub, sub ∈ comb l r /\ Forall P sub.
Proof.
  intros Hr. exists (take r (filter P l)). split.
  - replace r with (length (take r (filter P l))) at 2
      by (rewrite length_take; lia).
    apply comb_sublist. etransitivity; [apply sublist_take|].
    apply sublist_filter.
  - apply Forall_take. apply Forall_forall. intros x Hx.
    by apply list_elem_of_filter in Hx as [? _].
Qed.

Lemma clause_all_false a (c : clause) :
  Forall (fun lit => lit_true a lit = false) c -> clause_sat a c = false.
Proof.
  unfold clause_sat. induction 1 as [|lit c Hl _ IH]; simpl; [done|].
  by rewrite Hl, IH.
Qed.

(** From a run [m s = Some (a, s')] of a computation built from the
    combinators, [ext s s']. *)
Ltac mono_run H :=
  match type of H with
  | ?m ?s = Some (?a, ?s') =>
      let HM := fresh "HM" in
      assert (HM : Mono m) by mono; exact (HM _ _ _ H)
  end.

(** Soundness of [exactly_k_if_L]: when the guard variable is true, exactly
    [k] of the edge variables are. *)
Lemma exactly_k_if_L_sound a l_var e_vars k s u s' :
  exactly_k_if_L l_var e_vars k s = Some (u, s') ->
  sat a s' -> 1 <= l_var -> Forall (fun v => 1 <= v) e_vars -> 0 <= k ->
  a l_var = true ->
  count_true a e_vars = k.
Proof.
  unfold exactly_k_if_L. intros Hrun Hsat Hl Hes Hk Hal.
  apply bind_inv in Hrun as ([] & s1 & Hmost & Hleast).
  assert (Hext1 : ext s1 s') by mono_run Hleast.
  pose proof (count_true_le a e_vars) as Hle.
  assert (Hpos : forall sub r v, sub ∈ comb e_vars r -> v ∈ sub -> 1 <= v).
  { intros sub r v Hsub Hv.
    eapply (proj1 (Forall_forall _ _) Hes).
    eapply comb_elem; eauto. }
  assert (Hupper : count_true a e_vars <= k).
  { destruct (decide (Z.of_nat (length e_vars) > k)) as [Hn|Hn]; [|lia].
    destruct (decide (count_true a e_vars <= k)) as [|Hgt]; [done|].
    exfalso.
    apply bind_inv in Hmost as (subsets & s0 & Hc & Hloop).
    apply lift_inv in Hc as [Hc ->]. unfold combinations in Hc.
    rewrite decide_False in Hc by lia. injection Hc as <-.
    destruct (comb_filter_take (fun v => a v = true) e_vars
                               (Z.to_nat (k + 1))) as (sub & Hsub & Htrue).
    { unfold count_true in Hgt. lia. }
    eapply (for_each_elem _ _ _ _ _ sub) in Hloop
      as (sa & sb & Hbody & _ & Hextb); [|intros; mono|done].
    assert (Hcs : clause_sat a ([- l_var] ++ map Z.opp sub) = true).
    { eapply add_clause_sat; [exact Hbody| |exact Hsat].
      by eapply ext_trans. }
    rewrite clause_all_false in Hcs; [done|].
    apply Forall_app. split.
    - constructor; [|constructor]. by rewrite lit_true_neg, Hal.
    - apply Forall_fmap. apply Forall_forall. intros v Hv. simpl.
      rewrite lit_true_neg by (by eapply Hpos).
      by rewrite (proj1 (Forall_forall _ _) Htrue v Hv). }
  destruct (decide (k > 0)) as [Hk0|Hk0]; [|lia].
  destruct (decide (k <= count_true a e_vars)) as [|Hlt]; [lia|].
  exfalso.
  apply bind_inv in Hleast as (subsets & s0 & Hc & Hloop).
  apply lift_inv in Hc as [Hc ->]. unfold combinations in Hc.
  destruct (decide (Z.of_nat (length e_vars) - k + 1 < 0)); [done|].
  injection Hc as <-.
  destruct (comb_filter_take (fun v => ~ a v = true) e_vars
              (Z.to_nat (Z.of_nat (length e_vars) - k + 1)))
    as (sub & Hsub & Hfalse).
  { pose proof (filter_complement_length (fun v => a v = true) e_vars).
    unfold count_true in Hlt. lia. }
  eapply (for_each_elem _ _ _ _ _ sub) in Hloop
    as (sa & sb & Hbody & _ & Hextb); [|intros; mono|done].
  assert (Hcs : clause_sat a ([- l_var] ++ sub) = true).
  { eapply add_clause_sat; [exact Hbody|exact Hextb|exact Hsat]. }
  rewrite clause_all_false in Hcs; [done|].
  apply Forall_app. split.
  - constructor; [|constructor]. by rewrite lit_true_neg, Hal.
  - apply Forall_forall. intros v Hv.
    rewrite lit_true_pos by (by eapply Hpos).
    pose proof (proj1 (Forall_forall _ _) Hfalse v Hv) as Hnv. simpl in Hnv.
    by destruct (a v).
Qed.

Lemma count_true_cons a x l :
  count_true a (x :: l) = Z.b2z (a x) + count_true a l.
Proof.
  change (x :: l) with ([x] ++ l).
  rewrite count_true_app, count_true_single. by destruct (a x).
Qed.

Lemma count_incident a (E : Dict.t (Z * Z * Z * Dir) Z) k x y :
  count_true a (incident E k x y)
  = Z.b2z (holds a E (k, x, y, DirR)) + Z.b2z (holds a E (k, x, y, DirL))
    + Z.b2z (holds a E (k, x, y, DirU)) + Z.b2z (holds a E (k, x, y, DirD)).
Proof.
  unfold incident, holds, DIRS_LIST. simpl.
  destruct (Dict.get E (k, x, y, DirR)) as [eR|];
    destruct (Dict.get E (k, x, y, DirL)) as [eL|];
    destruct (Dict.get E (k, x, y, DirU)) as [eU|];
    destruct (Dict.get E (k, x, y, DirD)) as [eD|]; simpl;
    rewrite ?count_true_cons; change (count_true a []) with 0; simpl; lia.
Qed.

(** The degree constraint at a cell of line [k] that is neither its start
    nor its end: when the cell is occupied, exactly two of its edge variables
    are true. *)
Lemma continuity_degree_two p t s0 s s' a k st en x y l :
  tables_inv (p_N p) (p_M p)
             (all_cells (p_N p) (p_M p) (p_lines_spec p)) t s0 ->
  wf s0 ->
  enforce_path_continuity (p_lines_spec p) (L_vars t) (E_vars t)
                          (p_N p) (p_M p) s = Some (tt, s') ->
  sat a s' ->
  (k, (st, en)) ∈ enumerate (p_lines_spec p) ->
  0 <= x < p_N p -> 0 <= y < p_M p ->
  (x, y) <> st -> (x, y) <> en ->
  Dict.get (L_vars t) (k, x, y) = Some l ->
  a l = true ->
  count_true a (incident (E_vars t) k x y) = 2.
Proof.
  intros Hinv Hwf Hrun Hsat Hk Hx Hy Hst Hen Hl Hal.
  unfold enforce_path_continuity in Hrun.
  eapply (for_each_elem _ _ _ _ _ (k, (st, en))) in Hrun
    as (sa & sb & Hbody & _ & Hextb); [|intros [? [? ?]]; mono|done].
  apply bind_inv in Hbody as ([] & s1 & _ & Hbody).
  apply bind_inv in Hbody as ([] & s2 & _ & Hbody).
  eapply (for_each_elem _ _ _ _ _ x) in Hbody
    as (sc & sd & Hbody & _ & Hextd); [|intros; mono|by apply elem_of_range].
  eapply (for_each_elem _ _ _ _ _ y) in Hbody
    as (se & sf & Hbody & _ & Hextf); [|intros; mono|by apply elem_of_range].
  assert (Hext : ext sf s').
  { eapply ext_trans; [exact Hextf|]. by eapply ext_trans. }
  assert (Hlpos : 1 <= l) by (by eapply L_vars_pos).
  unfold continuity_cell in Hbody. rewrite Hl in Hbody. simpl in Hbody.
  replace (l =? 0) with false in Hbody by (symmetry; apply Z.eqb_neq; lia).
  simpl in Hbody.
  apply bind_inv in Hbody as (l' & s3 & Hret & Hbody).
  apply ret_inv in Hret as [-> ->].
  rewrite decide_False in Hbody by (intros [?|?]; done).
  apply bind_inv in Hbody as ([] & s4 & Hex & Hrest).
  eapply exactly_k_if_L_sound; [exact Hex| |done| |lia|done].
  - eapply sat_ext; [|exact Hsat].
    eapply ext_trans; [|exact Hext]. mono_run Hrest.
  - apply Forall_forall. intros v Hv. unfold incident in Hv.
    apply list_elem_of_omap in Hv as (d & _ & Hd).
    by eapply E_vars_pos.
Qed.

(** What the clauses of [enforce_turn_constraints] say about one turn
    variable. *)
Lemma turn_clauses_hold p t s0 s s' a k x y tv l :
  tables_inv (p_N p) (p_M p)
             (all_cells (p_N p) (p_M p) (p_lines_spec p)) t s0 ->
  wf s0 ->
  enforce_turn_constraints (p_lines_spec p) (T_vars t) (L_vars t) (E_vars t)
                           STRAIGHT_PAIRS (p_J p) s = Some (tt, s') ->
  sat a s' ->
  Dict.get (T_vars t) (k, x, y) = Some tv ->
  Dict.get (L_vars t) (k, x, y) = Some l ->
  (a tv = true -> a l = true) /\
  (forall D1 D2,
     (D1, D2) ∈ index_pairs DIRS_LIST ->
     a l = true ->
     holds a (E_vars t) (k, x, y, D1) = true ->
     holds a (E_vars t) (k, x, y, D2) = true ->
     a tv = negb (bool_decide ((D1, D2) ∈ STRAIGHT_PAIRS))).
Proof.
  intros Hinv Hwf Hrun Hsat Htv Hl.
  assert (His : is_Some (Dict.get (T_vars t) (k, x, y))) by eauto.
  apply (T_vars_key _ _ _ _ _ Hinv) in His as (st & en & Hk & _).
  assert (Htpos : 1 <= tv) by (by eapply T_vars_pos).
  assert (Hlpos : 1 <= l) by (by eapply L_vars_pos).
  unfold enforce_turn_constraints in Hrun.
  eapply (for_each_elem _ _ _ _ _ (k, (st, en))) in Hrun
    as (sa & sb & Hbody & _ & Hextb); [|intros; mono|done].
  simpl in Hbody.
  apply bind_inv in Hbody as (tvs & sm & Hloop & Hrest).
  assert (Hextm : ext sm s').
  { eapply ext_trans; [|exact Hextb]. mono_run Hrest. }
  unfold turn_items_loop in Hloop.
  eapply (foldM_elem _ _ _ _ _ _ ((k, x, y), tv)) in Hloop
    as (acc1 & s1 & acc2 & s2 & Hitem & _ & Hext2);
    [|intros [[[? ?] ?] ?] ?; mono|by apply get_Some_In].
  cbv beta iota in Hitem. rewrite decide_False in Hitem by (by intros ?).
  apply bind_inv in Hitem as (l' & s3 & Hget & Hitem).
  apply lift_inv in Hget as [Hget ->].
  assert (l' = l) as -> by congruence.
  apply bind_inv in Hitem as ([] & s4 & Hcl & Hitem).
  apply bind_inv in Hitem as ([] & s5 & Hpairs & Hret).
  apply ret_inv in Hret as [-> ->].
  assert (Hsat2 : sat a s5).
  { eapply sat_ext; [|exact Hsat]. by eapply ext_trans. }
  split.
  - apply clause_imp1; [|done|done].
    eapply add_clause_sat; [exact Hcl| |exact Hsat2].
    mono_run Hpairs.
  - intros D1 D2 Hin Hal H1 H2.
    eapply (for_each_elem _ _ _ _ _ (D1, D2)) in Hpairs
      as (sc & sd & Hpair & _ & Hextd); [|intros; mono|done].
    unfold turn_pair_clause in Hpair. unfold holds in H1, H2.
    destruct (Dict.get (E_vars t) (k, x, y, D1)) as [e1|] eqn:He1; [|done].
    destruct (Dict.get (E_vars t) (k, x, y, D2)) as [e2|] eqn:He2; [|done].
    assert (H1pos : 1 <= e1) by (by eapply E_vars_pos).
    assert (H2pos : 1 <= e2) by (by eapply E_vars_pos).
    simpl in Hpair.
    replace (e1 =? 0) with false in Hpair by (symmetry; apply Z.eqb_neq; lia).
    replace (e2 =? 0) with false in Hpair by (symmetry; apply Z.eqb_neq; lia).
    simpl in Hpair.
    apply bind_inv in Hpair as (v1 & s6 & Hr1 & Hpair).
    apply ret_inv in Hr1 as [-> ->].
    apply bind_inv in Hpair as (v2 & s6 & Hr2 & Hpair).
    apply ret_inv in Hr2 as [-> ->].
    assert (Hsatd : sat a sd) by (by eapply sat_ext).
    destruct (bool_decide ((D1, D2) ∈ STRAIGHT_PAIRS)) eqn:Hstr;
      simpl in Hpair |- *.
    + pose proof (add_clause_sat _ _ _ _ _ _ Hpair (ext_refl _) Hsatd) as Hc.
      unfold clause_sat in Hc. simpl in Hc.
      rewrite !lit_true_neg, Hal, H1, H2 in Hc by done. simpl in Hc.
      rewrite orb_false_r in Hc. by destruct (a tv).
    + pose proof (add_clause_sat _ _ _ _ _ _ Hpair (ext_refl _) Hsatd) as Hc.
      unfold clause_sat in Hc. simpl in Hc.
      rewrite !lit_true_neg, lit_true_pos, Hal, H1, H2 in Hc by done.
      simpl in Hc. by rewrite orb_false_r in Hc.
Qed.

Lemma turn_variable_facts p t s a k x y :
  run_encoder p = Some (t, s) ->
  sat a s ->
  (is_Some (Dict.get (T_vars t) (k, x, y)) <->
   exists st en,
     (k, (st, en)) ∈ enumerate (p_lines_spec p) /\
     (0 <= x < p_N p /\ 0 <= y < p_M p) /\
     (x, y) <> st /\ (x, y) <> en) /\
  (forall tv,
     Dict.get (T_vars t) (k, x, y) = Some tv ->
     (a tv = true <->
      holds a (L_vars t) (k, x, y) = true /\
      exists d1 d2,
        perpendicular d1 d2 /\
        holds a (E_vars t) (k, x, y, d1) = true /\
        holds a (E_vars t) (k, x, y, d2) = true) /\
     (forall d,
        holds a (L_vars t) (k, x, y) = true ->
        holds a (E_vars t) (k, x, y, d) = true ->
        holds a (E_vars t) (k, x, y, REV_DIRS d) = true ->
        a tv = false)).
Proof.
  intros Hrun Hsat.
  apply run_encoder_inv in Hrun
    as (s0 & s1 & s2 & s3 & s4 & s5 & Hinv & Hwf & _ & _ & Hcont & Hturn & _
        & _ & E1 & E2 & E3 & E4 & E5 & E6).
  split; [by eapply T_vars_key|].
  intros tv Htv.
  assert (His : is_Some (Dict.get (T_vars t) (k, x, y))) by eauto.
  apply (T_vars_key _ _ _ _ _ Hinv) in His
    as (st & en & Hk & [Hx Hy] & Hst & Hen).
  destruct (L_vars_present _ _ _ _ _ Hinv k st en x y Hk Hx Hy) as [l Hl].
  assert (Hsat4 : sat a s4).
  { eapply sat_ext; [|exact Hsat]. by eapply ext_trans. }
  assert (Hsat3 : sat a s3) by (by eapply sat_ext).
  destruct (turn_clauses_hold p t s0 s3 s4 a k x y tv l Hinv Hwf Hturn Hsat4
              Htv Hl) as [F1 F2].
  pose proof (continuity_degree_two p t s0 s2 s3 a k st en x y l Hinv Hwf
                Hcont Hsat3 Hk Hx Hy Hst Hen Hl) as Hdeg.
  rewrite count_incident in Hdeg.
  assert (HL : holds a (L_vars t) (k, x, y) = a l)
    by (unfold holds; by rewrite Hl).
  rewrite HL.
  assert (P_RL : (DirR, DirL) ∈ index_pairs DIRS_LIST)
    by (apply (bool_decide_unpack _); vm_compute; exact I).
  assert (P_RU : (DirR, DirU) ∈ index_pairs DIRS_LIST)
    by (apply (bool_decide_unpack _); vm_compute; exact I).
  assert (P_RD : (DirR, DirD) ∈ index_pairs DIRS_LIST)
    by (apply (bool_decide_unpack _); vm_compute; exact I).
  assert (P_LU : (DirL, DirU) ∈ index_pairs DIRS_LIST)
    by (apply (bool_decide_unpack _); vm_compute; exact I).
  assert (P_LD : (DirL, DirD) ∈ index_pairs DIRS_LIST)
    by (apply (bool_decide_unpack _); vm_compute; exact I).
  assert (P_UD : (DirU, DirD) ∈ index_pairs DIRS_LIST)
    by (apply (bool_decide_unpack _); vm_compute; exact I).
  pose proof (F2 _ _ P_RL) as F_RL. pose proof (F2 _ _ P_RU) as F_RU.
  pose proof (F2 _ _ P_RD) as F_RD. pose proof (F2 _ _ P_LU) as F_LU.
  pose proof (F2 _ _ P_LD) as F_LD. pose proof (F2 _ _ P_UD) as F_UD.
  change (bool_decide ((DirR, DirL) ∈ STRAIGHT_PAIRS)) with true in F_RL.
  change (bool_decide ((DirR, DirU) ∈ STRAIGHT_PAIRS)) with false in F_RU.
  change (bool_decide ((DirR, DirD) ∈ STRAIGHT_PAIRS)) with false in F_RD.
  change (bool_decide ((DirL, DirU) ∈ STRAIGHT_PAIRS)) with false in F_LU.
  change (bool_decide ((DirL, DirD) ∈ STRAIGHT_PAIRS)) with false in F_LD.
  change (bool_decide ((DirU, DirD) ∈ STRAIGHT_PAIRS)) with true in F_UD.
  simpl negb in *. clear F2.
  split; [split|].
  - intros Hav. pose proof (F1 Hav) as Hal. split; [done|].
    specialize (Hdeg Hal).
    destruct (holds a (E_vars t) (k, x, y, DirR)) eqn:HR;
      destruct (holds a (E_vars t) (k, x, y, DirL)) eqn:HLf;
      destruct (holds a (E_vars t) (k, x, y, DirU)) eqn:HU;
      destruct (holds a (E_vars t) (k, x, y, DirD)) eqn:HD;
      simpl in Hdeg; try lia.
    + rewrite F_RL in Hav by done. done.
    + exists DirR, DirU. by rewrite HR, HU.
    + exists DirR, DirD. by rewrite HR, HD.
    + exists DirL, DirU. by rewrite HLf, HU.
    + exists DirL, DirD. by rewrite HLf, HD.
    + rewrite F_UD in Hav by done. done.
  - intros (Hal & d1 & d2 & [Hne Hnr] & H1 & H2).
    destruct d1, d2; simpl in Hnr; try done; auto.
  - intros d Hal H1 H2. destruct d; simpl in H2; auto.
Qed.

(** C7.  In every satisfying assignment of the emitted clauses, for every
    line k and cell (x,y): a turn variable exists for the cell exactly when
    the cell is in the grid and is neither the start nor the end of line k;
    and that variable is true if and only if line k occupies the cell and two
    perpendicular edge variables of the cell are true, while two true
    collinear edge variables at an occupied cell make it false. *)
Theorem turn_variable_meaning (p : problem) (t : tables) (s : state)
    (a : assignment) (k x y : Z) :
  run_encoder p = Some (t, s) ->
  cnf_sat a (clauses s) = true ->
  (is_Some (Dict.get (T_vars t) (k, x, y)) <->
   exists st en,
     (k, (st, en)) ∈ enumerate (p_lines_spec p) /\
     (0 <= x < p_N p /\ 0 <= y < p_M p) /\
     (x, y) <> st /\ (x, y) <> en) /\
  (forall tv,
     Dict.get (T_vars t) (k, x, y) = Some tv ->
     (a tv = true <->
      holds a (L_vars t) (k, x, y) = true /\
      exists d1 d2,
        perpendicular d1 d2 /\
        holds a (E_vars t) (k, x, y, d1) = true /\
        holds a (E_vars t) (k, x, y, d2) = true) /\
     (forall d,
        holds a (L_vars t) (k, x, y) = true ->
        holds a (E_vars t) (k, x, y, d) = true ->
        holds a (E_vars t) (k, x, y, REV_DIRS d) = true ->
        a tv = false)).
Proof. apply turn_variable_facts. Qed.

Lemma turn_variable_meaning_witness :
  is_Some (Dict.get (T_vars (final_tables straight_line)) (0, 1, 0)) <->
  exists st en,
    (0, (st, en)) ∈ enumerate (p_lines_spec straight_line) /\
    (0 <= 1 < p_N straight_line /\ 0 <= 0 < p_M straight_line) /\
    (1, 0) <> st /\ (1, 0) <> en.
Proof.
  exact (proj1 (turn_variable_meaning straight_line
                  (final_tables straight_line) (final_state straight_line)
                  straight_assignment 0 1 0
                  ltac:(vm_compute; reflexivity)
                  ltac:(vm_compute; reflexivity))).
Defined.

(* ------------------------------------------------------------------ *)
(** ** Reachability is not enforced *)

(** From (0,0), the true edge variables of [cycle_assignment] lead to (1,0)
    and nowhere else. *)
Lemma cycle_reachable_cells c :
  reachable cycle_assignment (E_vars (final_tables cycle_problem)) 0 (0, 0) c ->
  c = (0, 0) \/ c = (1, 0).
Proof.
  induction 1 as [|c d _ IH Hedge]; [by left|].
  destruct IH as [-> | ->]; destruct d; vm_compute in Hedge;
    try discriminate Hedge; vm_compute; auto.
Qed.

(** C1, evaluated on the code.  The clauses emitted for [cycle_problem] are
    satisfied by [cycle_assignment], in which line 0 occupies the cell (1,2);
    yet that cell is not reachable from the start (0,0) of line 0 along true
    edge variables: the cells (0,1), (1,1), (1,2), (0,2) form a closed loop
    apart from the path. *)
Theorem disconnected_cycle_satisfies_cnf :
  run_encoder cycle_problem
  = Some (final_tables cycle_problem, final_state cycle_problem) /\
  cnf_sat cycle_assignment (clauses (final_state cycle_problem)) = true /\
  holds cycle_assignment (L_vars (final_tables cycle_problem)) (0, 1, 2)
  = true /\
  holds cycle_assignment (S_vars (final_tables cycle_problem)) (0, 1, 2)
  = true /\
  ~ reachable cycle_assignment (E_vars (final_tables cycle_problem)) 0
              (0, 0) (1, 2).
Proof.
  split; [vm_compute; reflexivity|].
  split; [vm_compute; reflexivity|].
  split; [vm_compute; reflexivity|].
  split; [vm_compute; reflexivity|].
  intros Hr. apply cycle_reachable_cells in Hr as [Hr|Hr]; discriminate Hr.
Qed.

(* ================================================================== *)
(** * Further properties of the encoder *)

(** ** Edges, ends and degrees *)

Lemma truthy_pos v : 1 <= v -> truthy (Some v) = true.
Proof.
  intros Hv. unfold truthy.
  replace (v =? 0) with false by (symmetry; apply Z.eqb_neq; lia). done.
Qed.

Lemma edge_consistency_holds p t s a k x y d :
  run_encoder p = Some (t, s) ->
  sat a s ->
  holds a (E_vars t) (k, x, y, d) = true ->
  holds a (L_vars t) (k, x, y) = true /\
  holds a (L_vars t) (k, (step x y d).1, (step x y d).2) = true /\
  holds a (E_vars t) (k, (step x y d).1, (step x y d).2, REV_DIRS d) = true.
Proof.
  intros Hrun Hsat Hedge.
  apply run_encoder_inv in Hrun
    as (s0 & s1 & s2 & s3 & s4 & s5 & Hinv & Hwf & _ & Hloc & _ & _ & _ & _
        & E1 & E2 & E3 & E4 & E5 & E6).
  assert (Hsat2 : sat a s2).
  { eapply sat_ext; [|exact Hsat].
    repeat (eapply ext_trans; [eassumption|]). apply ext_refl. }
  unfold holds in Hedge.
  destruct (Dict.get (E_vars t) (k, x, y, d)) as [e|] eqn:He; [|done].
  assert (Hepos : 1 <= e) by (by eapply E_vars_pos).
  unfold enforce_edge_location_consistency in Hloc.
  eapply (for_each_elem _ _ _ _ _ ((k, x, y, d), e)) in Hloc
    as (sa & sb & Hbody & _ & Hextb);
    [|intros [[[[? ?] ?] ?] ?]; mono|by apply get_Some_In].
  assert (Hsatb : sat a sb) by (by eapply sat_ext).
  cbv beta iota in Hbody.
  apply bind_inv in Hbody as (loc & s6 & Hgl & Hbody).
  apply lift_inv in Hgl as [Hgl ->].
  destruct (step x y d) as [nx ny] eqn:Hstep. simpl.
  apply bind_inv in Hbody as ([] & s7 & Hc1 & Hbody).
  apply bind_inv in Hbody as ([] & s8 & Hc2 & Hbody).
  apply bind_inv in Hc2 as (ln & s9 & Hgn & Hc2).
  apply lift_inv in Hgn as [Hgn ->].
  assert (Hext8 : ext s8 sb) by mono_run Hbody.
  assert (Hext7 : ext s7 sb).
  { eapply ext_trans; [|exact Hext8]. by eapply add_clause_ext. }
  assert (Hlocpos : 1 <= loc) by (by eapply L_vars_pos).
  assert (Hlnpos : 1 <= ln) by (by eapply L_vars_pos).
  split; [|split].
  - unfold holds. rewrite Hgl.
    eapply clause_imp1; [|exact Hepos|exact Hlocpos|exact Hedge].
    eapply add_clause_sat; [exact Hc1|exact Hext7|exact Hsatb].
  - unfold holds. rewrite Hgn.
    eapply clause_imp1; [|exact Hepos|exact Hlnpos|exact Hedge].
    eapply add_clause_sat; [exact Hc2|exact Hext8|exact Hsatb].
  - unfold holds.
    destruct (Dict.get (E_vars t) (k, nx, ny, REV_DIRS d)) as [r|] eqn:Hr.
    + assert (Hrpos : 1 <= r) by (by eapply E_vars_pos).
      rewrite (truthy_pos r Hrpos) in Hbody.
      apply bind_inv in Hbody as (r' & s10 & Hret & Hbody).
      apply ret_inv in Hret as [-> ->].
      apply bind_inv in Hbody as ([] & s11 & Hc3 & Hc4).
      eapply clause_imp1; [|exact Hepos|exact Hrpos|exact Hedge].
      eapply add_clause_sat; [exact Hc3| |exact Hsatb].
      by eapply add_clause_ext.
    + simpl in Hbody.
      pose proof (add_clause_sat _ _ _ _ _ _ Hbody (ext_refl _) Hsatb) as Hc.
      apply clause_neg1 in Hc; [|done]. congruence.
Qed.

(** X1.  In every satisfying assignment of the emitted clauses, a true edge
    variable of line k has both its cells occupied by line k, and the edge
    variable of the reverse step at the destination is true as well. *)
Theorem edge_variables_consistent (p : problem) (t : tables) (s : state)
    (a : assignment) (k x y : Z) (d : Dir) :
  run_encoder p = Some (t, s) ->
  cnf_sat a (clauses s) = true ->
  holds a (E_vars t) (k, x, y, d) = true ->
  holds a (L_vars t) (k, x, y) = true /\
  holds a (L_vars t) (k, (step x y d).1, (step x y d).2) = true /\
  holds a (E_vars t) (k, (step x y d).1, (step x y d).2, REV_DIRS d) = true.
Proof. apply edge_consistency_holds. Qed.

Lemma edge_variables_consistent_witness :
  holds straight_assignment (L_vars (final_tables straight_line)) (0, 0, 0)
  = true /\
  holds straight_assignment (L_vars (final_tables straight_line))
        (0, (step 0 0 DirR).1, (step 0 0 DirR).2) = true /\
  holds straight_assignment (E_vars (final_tables straight_line))
        (0, (step 0 0 DirR).1, (step 0 0 DirR).2, REV_DIRS DirR) = true.
Proof.
  exact (edge_variables_consistent straight_line
           (final_tables straight_line) (final_state straight_line)
           straight_assignment 0 0 0 DirR
           ltac:(vm_compute; reflexivity)
           ltac:(vm_compute; reflexivity)
           ltac:(vm_compute; reflexivity)).
Defined.

(** The degree constraint at any cell of the grid: when line [k] occupies
    the cell, one of its edge variables is true at an end of the line, two
    are anywhere else. *)
Lemma continuity_holds p t s a k st en :
  run_encoder p = Some (t, s) ->
  sat a s ->
  (k, (st, en)) ∈ enumerate (p_lines_spec p) ->
  holds a (L_vars t) (k, st.1, st.2) = true /\
  holds a (L_vars t) (k, en.1, en.2) = true /\
  forall x y,
    holds a (L_vars t) (k, x, y) = true ->
    count_true a (incident (E_vars t) k x y)
    = if decide ((x, y) = st \/ (x, y) = en) then 1 else 2.
Proof.
  intros Hrun Hsat Hk.
  apply run_encoder_inv in Hrun
    as (s0 & s1 & s2 & s3 & s4 & s5 & Hinv & Hwf & _ & _ & Hcont & _ & _ & _
        & E1 & E2 & E3 & E4 & E5 & E6).
  assert (Hsat3 : sat a s3).
  { eapply sat_ext; [|exact Hsat].
    repeat (eapply ext_trans; [eassumption|]). apply ext_refl. }
  unfold enforce_path_continuity in Hcont.
  eapply (for_each_elem _ _ _ _ _ (k, (st, en))) in Hcont
    as (sa & sb & Hbody & _ & Hextb); [|intros [? [? ?]]; mono|done].
  assert (Hsatb : sat a sb) by (by eapply sat_ext).
  apply bind_inv in Hbody as ([] & sc & Hst & Hbody).
  apply bind_inv in Hbody as ([] & sd & Hen & Hbody).
  assert (Hextd : ext sd sb) by mono_run Hbody.
  apply bind_inv in Hst as (ls & se & Hgs & Hcs).
  apply lift_inv in Hgs as [Hgs ->].
  apply bind_inv in Hen as (le & sf & Hge & Hce).
  apply lift_inv in Hge as [Hge ->].
  assert (Hunit : forall v, 1 <= v -> clause_sat a [v] = true -> a v = true).
  { intros v Hv Hc. unfold clause_sat in Hc. simpl in Hc.
    rewrite lit_true_pos, orb_false_r in Hc by done. done. }
  split; [|split].
  - unfold holds. rewrite Hgs. apply Hunit; [by eapply L_vars_pos|].
    eapply add_clause_sat; [exact Hcs| |exact Hsatb].
    eapply ext_trans; [|exact Hextd]. by eapply add_clause_ext.
  - unfold holds. rewrite Hge. apply Hunit; [by eapply L_vars_pos|].
    eapply add_clause_sat; [exact Hce|exact Hextd|exact Hsatb].
  - intros x y Hocc. unfold holds in Hocc.
    destruct (Dict.get (L_vars t) (k, x, y)) as [l|] eqn:Hl; [|done].
    assert (Hvis : is_Some (Dict.get (L_vars t) (k, x, y))) by eauto.
    apply (inv_L _ _ _ _ _ Hinv) in Hvis.
    apply visited_by_all_cells in Hvis as (_ & Hx & Hy).
    eapply (for_each_elem _ _ _ _ _ x) in Hbody
      as (sg & sh & Hbody & _ & Hexth); [|intros; mono|by apply elem_of_range].
    eapply (for_each_elem _ _ _ _ _ y) in Hbody
      as (si & sj & Hbody & _ & Hextj); [|intros; mono|by apply elem_of_range].
    assert (Hsatj : sat a sj).
    { eapply sat_ext; [|exact Hsatb]. by eapply ext_trans. }
    assert (Hlpos : 1 <= l) by (by eapply L_vars_pos).
    assert (Hepos : Forall (fun v => 1 <= v) (incident (E_vars t) k x y)).
    { apply Forall_forall. intros v Hv. unfold incident in Hv.
      apply list_elem_of_omap in Hv as (d & _ & Hd). by eapply E_vars_pos. }
    unfold continuity_cell in Hbody. rewrite Hl in Hbody.
    rewrite (truthy_pos l Hlpos) in Hbody. simpl in Hbody.
    apply bind_inv in Hbody as (l' & sk & Hret & Hbody).
    apply ret_inv in Hret as [-> ->].
    destruct (decide ((x, y) = st \/ (x, y) = en)).
    + eapply exactly_k_if_L_sound; [exact Hbody|exact Hsatj|done|done|lia|done].
    + apply bind_inv in Hbody as ([] & sl & Hex & Hrest).
      eapply exactly_k_if_L_sound; [exact Hex| |done|done|lia|done].
      eapply sat_ext; [|exact Hsatj]. mono_run Hrest.
Qed.

(** X2.  In every satisfying assignment of the emitted clauses, each line
    occupies its start and its end, and wherever it occupies a cell the
    number of true edge variables of the cell is 1 at an end of the line and
    2 at any other cell. *)
Theorem path_continuity_enforced (p : problem) (t : tables) (s : state)
    (a : assignment) (k : Z) (st en : cell) :
  run_encoder p = Some (t, s) ->
  cnf_sat a (clauses s) = true ->
  (k, (st, en)) ∈ enumerate (p_lines_spec p) ->
  holds a (L_vars t) (k, st.1, st.2) = true /\
  holds a (L_vars t) (k, en.1, en.2) = true /\
  forall x y,
    holds a (L_vars t) (k, x, y) = true ->
    count_true a (incident (E_vars t) k x y)
    = if decide ((x, y) = st \/ (x, y) = en) then 1 else 2.
Proof. apply continuity_holds. Qed.

Lemma path_continuity_enforced_witness :
  holds straight_assignment (L_vars (final_tables straight_line)) (0, 0, 0)
  = true /\
  holds straight_assignment (L_vars (final_tables straight_line)) (0, 2, 0)
  = true /\
  forall x y,
    holds straight_assignment (L_vars (final_tables straight_line)) (0, x, y)
    = true ->
    count_true straight_assignment
               (incident (E_vars (final_tables straight_line)) 0 x y)
    = if decide ((x, y) = (0, 0) \/ (x, y) = (2, 0)) then 1 else 2.
Proof.
  exact (path_continuity_enforced straight_line
           (final_tables straight_line) (final_state straight_line)
           straight_assignment 0 (0, 0) (2, 0)
           ltac:(vm_compute; reflexivity)
           ltac:(vm_compute; reflexivity)
           ltac:(apply list_elem_of_here)).
Defined.

(** ** Reach variables *)

Lemma connectivity_holds p t s a k st en :
  run_encoder p = Some (t, s) ->
  sat a s ->
  (k, (st, en)) ∈ enumerate (p_lines_spec p) ->
  (forall c, reachable a (E_vars t) k st c ->
             holds a (S_vars t) (k, c.1, c.2) = true) /\
  (forall x y, holds a (L_vars t) (k, x, y) = true ->
               holds a (S_vars t) (k, x, y) = true).
Proof.
  intros Hrun Hsat Hk.
  apply run_encoder_inv in Hrun
    as (s0 & s1 & s2 & s3 & s4 & s5 & Hinv & Hwf & _ & _ & _ & _ & Hconn & _
        & E1 & E2 & E3 & E4 & E5 & E6).
  assert (Hsat5 : sat a s5) by (by eapply sat_ext).
  unfold enforce_path_connectivity in Hconn.
  eapply (for_each_elem _ _ _ _ _ (k, (st, en))) in Hconn
    as (sa & sb & Hbody & _ & Hextb); [|intros [? [? ?]]; mono|done].
  assert (Hsatb : sat a sb) by (by eapply sat_ext).
  apply bind_inv in Hbody as ([] & sc & Hst & Hbody).
  apply bind_inv in Hbody as ([] & sd & Hsteps & Hocc).
  assert (Hextd : ext sd sb) by mono_run Hocc.
  assert (Hsatd : sat a sd) by (by eapply sat_ext).
  assert (Hextc : ext sc sd) by mono_run Hsteps.
  apply bind_inv in Hst as (s0v & se & Hg0 & Hc0).
  apply lift_inv in Hg0 as [Hg0 ->].
  split.
  - induction 1 as [|c d Hreach IH Hedge].
    + unfold holds. rewrite Hg0.
      assert (Hpos : 1 <= s0v) by (by eapply S_vars_pos).
      assert (Hc : clause_sat a [s0v] = true).
      { eapply add_clause_sat; [exact Hc0|exact Hextc|exact Hsatd]. }
      unfold clause_sat in Hc. simpl in Hc.
      by rewrite lit_true_pos, orb_false_r in Hc by done.
    + destruct c as [x y]. simpl in Hedge, IH |- *.
      unfold holds in Hedge, IH.
      destruct (Dict.get (E_vars t) (k, x, y, d)) as [e|] eqn:He; [|done].
      destruct (Dict.get (S_vars t) (k, x, y)) as [sv|] eqn:Hs; [|done].
      assert (Hkey : is_Some (Dict.get (E_vars t) (k, x, y, d))) by eauto.
      apply (E_vars_key _ _ _ _ _ Hinv) in Hkey as (_ & [Hx Hy] & _).
      eapply (for_each_elem _ _ _ _ _ x) in Hsteps
        as (sg & sh & Hsteps & _ & Hexth);
        [|intros; mono|by apply elem_of_range].
      eapply (for_each_elem _ _ _ _ _ y) in Hsteps
        as (si & sj & Hsteps & _ & Hextj);
        [|intros; mono|by apply elem_of_range].
      eapply (for_each_elem _ _ _ _ _ d) in Hsteps
        as (sk & sl & Hstep & _ & Hextl);
        [|intros; mono|apply elem_of_DIRS_LIST].
      assert (Hsatl : sat a sl).
      { eapply sat_ext; [|exact Hsatd].
        eapply ext_trans; [exact Hextl|]. by eapply ext_trans. }
      assert (Hepos : 1 <= e) by (by eapply E_vars_pos).
      assert (Hspos : 1 <= sv) by (by eapply S_vars_pos).
      unfold connectivity_step in Hstep. rewrite He in Hstep.
      rewrite (truthy_pos e Hepos) in Hstep.
      apply bind_inv in Hstep as (e' & sm & Hret & Hstep).
      apply ret_inv in Hret as [-> ->].
      destruct (step x y d) as [nx ny] eqn:Hnext. simpl.
      apply bind_inv in Hstep as (sv' & sn & Hgs & Hstep).
      apply lift_inv in Hgs as [Hgs ->].
      assert (sv' = sv) as -> by congruence.
      apply bind_inv in Hstep as (snv & so & Hgn & Hcl).
      apply lift_inv in Hgn as [Hgn ->].
      unfold holds. rewrite Hgn.
      eapply clause_imp2; [|exact Hspos|exact Hepos| |exact IH|exact Hedge].
      * eapply add_clause_sat; [exact Hcl|apply ext_refl|exact Hsatl].
      * by eapply S_vars_pos.
  - intros x y Hl. unfold holds in Hl.
    destruct (Dict.get (L_vars t) (k, x, y)) as [l|] eqn:Hg; [|done].
    assert (Hvis : is_Some (Dict.get (L_vars t) (k, x, y))) by eauto.
    apply (inv_L _ _ _ _ _ Hinv) in Hvis.
    apply visited_by_all_cells in Hvis as (_ & Hx & Hy).
    eapply (for_each_elem _ _ _ _ _ x) in Hocc
      as (sg & sh & Hocc & _ & Hexth); [|intros; mono|by apply elem_of_range].
    eapply (for_each_elem _ _ _ _ _ y) in Hocc
      as (si & sj & Hocc & _ & Hextj); [|intros; mono|by apply elem_of_range].
    assert (Hsatj : sat a sj).
    { eapply sat_ext; [|exact Hsatb]. by eapply ext_trans. }
    apply bind_inv in Hocc as (l' & sk & Hgl & Hocc).
    apply lift_inv in Hgl as [Hgl ->].
    assert (l' = l) as -> by congruence.
    apply bind_inv in Hocc as (sv & sl & Hgs & Hcl).
    apply lift_inv in Hgs as [Hgs ->].
    unfold holds. rewrite Hgs.
    eapply clause_imp1; [| | |exact Hl].
    + eapply add_clause_sat; [exact Hcl|apply ext_refl|exact Hsatj].
    + by eapply L_vars_pos.
    + by eapply S_vars_pos.
Qed.

(** X3.  In every satisfying assignment of the emitted clauses, the reach
    variable of line k is true at every cell that true edge variables of
    line k connect to the start of the line, and at every cell that line k
    occupies. *)
Theorem reach_variables_sound (p : problem) (t : tables) (s : state)
    (a : assignment) (k : Z) (st en : cell) :
  run_encoder p = Some (t, s) ->
  cnf_sat a (clauses s) = true ->
  (k, (st, en)) ∈ enumerate (p_lines_spec p) ->
  (forall c, reachable a (E_vars t) k st c ->
             holds a (S_vars t) (k, c.1, c.2) = true) /\
  (forall x y, holds a (L_vars t) (k, x, y) = true ->
               holds a (S_vars t) (k, x, y) = true).
Proof. apply connectivity_holds. Qed.

Lemma reach_variables_sound_witness :
  holds straight_assignment (S_vars (final_tables straight_line)) (0, 1, 0)
  = true.
Proof.
  exact (proj1 (reach_variables_sound straight_line
                  (final_tables straight_line) (final_state straight_line)
                  straight_assignment 0 (0, 0) (2, 0)
                  ltac:(vm_compute; reflexivity)
                  ltac:(vm_compute; reflexivity)
                  ltac:(apply list_elem_of_here))
               (1, 0)
               (reach_step straight_assignment
                  (E_vars (final_tables straight_line)) 0 (0, 0) (0, 0) DirR
                  (reach_start _ _ _ _)
                  ltac:(vm_compute; reflexivity))).
Defined.

(** ** Which keys the tables hold *)

Lemma enumerate_index {A} (l : list A) (k : Z) :
  (exists x, (k, x) ∈ enumerate l) <-> 0 <= k < Z.of_nat (length l).
Proof.
  split.
  - intros [x (i & -> & Hi)%elem_of_enumerate].
    apply lookup_lt_Some in Hi. lia.
  - intros Hk. destruct (lookup_lt_is_Some_2 l (Z.to_nat k)) as [x Hx]; [lia|].
    exists x. apply elem_of_enumerate. exists (Z.to_nat k). split; [lia|done].
Qed.

Lemma line_index (lines_spec : list (cell * cell)) (k : Z) :
  (exists st en, (k, (st, en)) ∈ enumerate lines_spec) <->
  0 <= k < Z.of_nat (length lines_spec).
Proof.
  rewrite <- enumerate_index. split.
  - intros (st & en & Hk). by exists (st, en).
  - intros ([st en] & Hk). by exists st, en.
Qed.

(** X4.  After the variable definitions, line k has an occupied variable and
    a reach variable at (x,y) exactly when k is a line index and (x,y) is a
    cell of the grid, and an edge variable for direction d exactly when, in
    addition, the step in direction d stays in the grid. *)
Theorem tables_cover_grid (p : problem) (t : tables) (s : state)
    (k x y : Z) :
  run_encoder p = Some (t, s) ->
  (is_Some (Dict.get (L_vars t) (k, x, y)) <->
   0 <= k < Z.of_nat (length (p_lines_spec p)) /\
   0 <= x < p_N p /\ 0 <= y < p_M p) /\
  (is_Some (Dict.get (S_vars t) (k, x, y)) <->
   0 <= k < Z.of_nat (length (p_lines_spec p)) /\
   0 <= x < p_N p /\ 0 <= y < p_M p) /\
  (forall d,
     is_Some (Dict.get (E_vars t) (k, x, y, d)) <->
     0 <= k < Z.of_nat (length (p_lines_spec p)) /\
     (0 <= x < p_N p /\ 0 <= y < p_M p) /\
     in_grid (p_N p) (p_M p) (step x y d) = true).
Proof.
  intros Hrun.
  apply run_encoder_inv in Hrun as (s0 & _ & _ & _ & _ & _ & Hinv & _).
  split; [|split].
  - rewrite (inv_L _ _ _ _ _ Hinv), visited_by_all_cells, line_index. done.
  - rewrite (inv_S _ _ _ _ _ Hinv), visited_by_all_cells, line_index. done.
  - intros d.
    rewrite (inv_E _ _ _ _ _ Hinv), visited_by_all_cells, line_index. tauto.
Qed.

Lemma tables_cover_grid_witness :
  is_Some (Dict.get (E_vars (final_tables straight_line)) (0, 1, 0, DirL)) <->
  0 <= 0 < Z.of_nat (length (p_lines_spec straight_line)) /\
  (0 <= 1 < p_N straight_line /\ 0 <= 0 < p_M straight_line) /\
  in_grid (p_N straight_line) (p_M straight_line) (step 1 0 DirL) = true.
Proof.
  exact (proj2 (proj2 (tables_cover_grid straight_line
                         (final_tables straight_line)
                         (final_state straight_line) 0 1 0
                         ltac:(vm_compute; reflexivity))) DirL).
Defined.

(** ** A negative bound *)

Lemma range_empty a b : b <= a -> range a b = [].
Proof.
  intros Hb. unfold range, seqZ.
  replace (Z.to_nat (b - a)) with 0%nat by lia. done.
Qed.

(** With a negative bound the rows of the counter matrix are empty, and the
    first lookup in it raises. *)
Lemma counter_negative_raises vars k prefix s :
  k < 0 -> add_at_most_k_constraint vars k prefix s = None.
Proof.
  intros Hk.
  destruct (add_at_most_k_constraint vars k prefix s) as [[u s']|] eqn:Hrun;
    [exfalso|done].
  unfold add_at_most_k_constraint in Hrun.
  rewrite decide_False in Hrun by lia.
  apply bind_inv in Hrun as (mtx & sa & Hm & Hrun).
  apply (mapM_inv _ (fun _ => True) (fun _ row => row = [])) in Hm
    as [_ Hrows]; [| |done].
  2:{ intros i s0 row s0' _ Hrow. split; [done|].
      rewrite range_empty in Hrow by lia.
      by apply ret_inv in Hrow as [-> _]. }
  apply Forall2_const_r in Hrows.
  apply bind_inv in Hrun as ([] & sb & Hinit & _).
  unfold _initialize_base_constraints in Hinit.
  apply bind_inv in Hinit as (x0 & sc & _ & Hinit).
  apply bind_inv in Hinit as (s00 & sd & Hcell & _).
  apply cell_of_inv in Hcell as (_ & _ & row & Hrow & Hin).
  rewrite (proj1 (Forall_forall _ _) Hrows row Hrow) in Hin.
  by apply elem_of_nil in Hin.
Qed.

(** X5.  Called with a negative bound, [add_at_most_k_constraint] raises,
    whatever the variables. *)
Theorem add_at_most_k_constraint_negative (variables : list Z) (k : Z)
    (prefix : string) (s : state) :
  k < 0 -> add_at_most_k_constraint variables k prefix s = None.
Proof. apply counter_negative_raises. Qed.

Lemma add_at_most_k_constraint_negative_witness :
  add_at_most_k_constraint [1; 2] (-1) "s_k0" init_state = None.
Proof.
  apply (add_at_most_k_constraint_negative [1; 2] (-1) "s_k0" init_state).
  lia.
Defined.

(** ** When the encoder runs to its end *)

Lemma turn_vars_of_line_nonempty (T : Dict.t (Z * Z * Z) Z) k :
  turn_vars_of_line T k <> [] <-> exists x y, is_Some (Dict.get T (k, x, y)).
Proof.
  unfold turn_vars_of_line. split.
  - intros Hne.
    destruct (filter (fun item => item.1.1.1 = k) (Dict.items T))
      as [|[[[k' x] y] v] l] eqn:Hf; [done|].
    assert (Hin : (k', x, y, v) ∈ filter (fun item : Z * Z * Z * Z =>
                                            item.1.1.1 = k) (Dict.items T))
      by (rewrite Hf; apply list_elem_of_here).
    apply list_elem_of_filter in Hin as [Hk Hin]. simpl in Hk. subst k'.
    exists x, y. by eapply elem_of_dict_is_Some.
  - intros (x & y & [v Hv]) Hnil.
    apply get_Some_In in Hv.
    assert (Hin : v ∈ map snd (filter (fun item : Z * Z * Z * Z =>
                                         item.1.1.1 = k) (Dict.items T))).
    { apply list_elem_of_fmap. exists (k, x, y, v). split; [done|].
      by apply list_elem_of_filter. }
    rewrite Hnil in Hin. by apply elem_of_nil in Hin.
Qed.

Lemma run_encoder_negative_budget p k st en x y :
  p_J p < 0 ->
  (k, (st, en)) ∈ enumerate (p_lines_spec p) ->
  0 <= x < p_N p -> 0 <= y < p_M p -> (x, y) <> st -> (x, y) <> en ->
  run_encoder p = None.
Proof.
  intros HJ Hk Hx Hy Hst Hen.
  destruct (run_encoder p) as [[t s]|] eqn:Hrun; [exfalso|done].
  apply run_encoder_inv in Hrun
    as (s0 & s1 & s2 & s3 & s4 & s5 & Hinv & Hwf & _ & _ & _ & Hturn & _).
  eapply (for_each_elem _ _ _ _ _ (k, (st, en))) in Hturn
    as (sa & sb & Hbody & _ & _); [|intros; mono|done].
  simpl in Hbody.
  apply bind_inv in Hbody as (tvs & sm & Hloop & Hrest).
  apply turn_items_loop_result in Hloop as ->.
  rewrite decide_True in Hrest.
  - by rewrite counter_negative_raises in Hrest.
  - apply turn_vars_of_line_nonempty. exists x, y.
    apply (T_vars_key _ _ _ _ _ Hinv). by exists st, en.
Qed.

Lemma encoder_runs p :
  (p_mode p = 1 \/ p_mode p = 2) ->
  (forall st en,
     (st, en) ∈ p_lines_spec p ->
     in_grid (p_N p) (p_M p) st = true /\ in_grid (p_N p) (p_M p) en = true) ->
  (p_J p < 0 ->
   forall st en x y,
     (st, en) ∈ p_lines_spec p -> 0 <= x < p_N p -> 0 <= y < p_M p ->
     (x, y) = st \/ (x, y) = en) ->
  Total (encoder p).
Proof.
  intros Hmode Hends Hneg. unfold encoder, encoder_on.
  rewrite decide_True by done.
  eapply (Total_bind_post _ _
            (fun t => exists s1,
               tables_inv (p_N p) (p_M p)
                          (all_cells (p_N p) (p_M p) (p_lines_spec p)) t s1)).
  - apply define_variables_Total.
  - intros s t s' Hrun. exists s'. by eapply define_variables_inv.
  - intros t [s1 Hinv]. apply Total_bind; [|intros _; apply Total_ret].
    unfold apply_all_constraints.
    apply Total_bind; [apply enforce_unique_occupancy_Total|]. intros _.
    apply Total_bind;
      [by eapply enforce_edge_location_consistency_Total|]. intros _.
    apply Total_bind; [by eapply enforce_path_continuity_Total|]. intros _.
    apply Total_bind.
    { unfold enforce_turn_constraints. apply Total_for_each. intros ks _.
      eapply (Total_bind_post _ _
                (fun tvs => tvs = turn_vars_of_line (T_vars t) ks.1)).
      - by eapply turn_items_loop_Total.
      - intros s tvs s' Hrun. by eapply turn_items_loop_result.
      - intros tvs ->. apply Total_decide; intros Hne; [|apply Total_ret].
        destruct (decide (0 <= p_J p)) as [HJ|HJ];
          [by apply add_at_most_k_constraint_Total|].
        exfalso. apply turn_vars_of_line_nonempty in Hne as (x & y & Hkey).
        apply (T_vars_key _ _ _ _ _ Hinv) in Hkey
          as (st & en & Hk & [Hx Hy] & Hst & Hen).
        apply elem_of_enumerate in Hk as (i & _ & Hi).
        apply list_elem_of_lookup_2 in Hi.
        destruct (Hneg ltac:(lia) st en x y Hi Hx Hy); done. }
    intros _.
    apply Total_bind; [by eapply enforce_path_connectivity_Total|].
    intros _. apply enforce_popular_cell_constraint_Total.
Qed.

(** X6.  The encoder runs to its output step exactly when the mode is 1 or
    2, both ends of every line are cells of the grid and, if the turn budget
    is negative, no line has a cell of the grid besides its two ends; in
    every other case the script stops on an exception and writes nothing. *)
Theorem encode_runs_iff (p : problem) :
  is_Some (encode p) <->
  (p_mode p = 1 \/ p_mode p = 2) /\
  (forall st en,
     (st, en) ∈ p_lines_spec p ->
     in_grid (p_N p) (p_M p) st = true /\ in_grid (p_N p) (p_M p) en = true) /\
  (p_J p < 0 ->
   forall st en x y,
     (st, en) ∈ p_lines_spec p -> 0 <= x < p_N p -> 0 <= y < p_M p ->
     (x, y) = st \/ (x, y) = en).
Proof.
  split.
  - intros Hsome.
    assert (Hrun : is_Some (run_encoder p)).
    { unfold encode in Hsome. destruct (run_encoder p); [eauto|].
      by destruct Hsome. }
    split; [|split].
    + unfold run_encoder, encoder, encoder_on in Hrun.
      destruct (decide (p_mode p = 1 \/ p_mode p = 2)); [done|].
      by destruct Hrun.
    + intros st en Hin.
      destruct (in_grid (p_N p) (p_M p) st) eqn:Hst;
        destruct (in_grid (p_N p) (p_M p) en) eqn:Hen; [done|..];
        exfalso;
        rewrite (run_encoder_line_outside p st en Hin) in Hrun;
        try (by destruct Hrun); rewrite ?Hst, ?Hen; auto.
    + intros HJ st en x y Hin Hx Hy.
      destruct (decide ((x, y) = st)) as [|Hst]; [by left|].
      destruct (decide ((x, y) = en)) as [|Hen]; [by right|].
      exfalso. apply list_elem_of_lookup in Hin as [i Hi].
      rewrite (run_encoder_negative_budget p (Z.of_nat i) st en x y) in Hrun;
        [by destruct Hrun|done| |done|done|done|done].
      apply elem_of_enumerate. eauto.
  - intros (Hmode & Hends & Hneg). unfold encode, run_encoder.
    destruct (encoder_runs p Hmode Hends Hneg init_state) as [[t s] ->].
    eauto.
Qed.

(** ** What the cardinality helpers mean *)

(** A loop that only adds clauses appends them, in order. *)
Lemma for_each_add_clause {A} (f : A -> clause) (l : list A) s :
  for_each l (fun x => add_clause (f x)) s
  = Some (tt, mkState (var_to_id s) (id_to_var s) (next_var s)
                      (clauses s ++ map f l)).
Proof.
  revert s. induction l as [|x l IH]; intros s; simpl.
  - rewrite app_nil_r. by destruct s.
  - unfold bind, add_clause at 1. rewrite IH. simpl.
    by rewrite <- app_assoc.
Qed.

Lemma for_each_add_clause_sat {A} a (f : A -> clause) (l : list A) s u s' :
  for_each l (fun x => add_clause (f x)) s = Some (u, s') ->
  (sat a s' <-> sat a s /\ forall x, x ∈ l -> clause_sat a (f x) = true).
Proof.
  rewrite for_each_add_clause. intros [= <- <-].
  unfold sat, cnf_sat. simpl. rewrite forallb_app, andb_true_iff.
  rewrite !forallb_forall. split; intros [Hs Hall]; (split; [done|]).
  - intros x Hx. apply Hall. apply in_map. by apply list_elem_of_In.
  - intros c Hc. apply in_map_iff in Hc as (x & <- & Hx).
    apply Hall. by apply list_elem_of_In.
Qed.

Lemma count_true_nil a : count_true a [] = 0.
Proof. done. Qed.

Lemma count_true_zero a l :
  count_true a l = 0 <-> forall v, v ∈ l -> a v = false.
Proof.
  induction l as [|x l IH].
  - split; [|done]. intros _ v Hv. by apply elem_of_nil in Hv.
  - rewrite count_true_cons. pose proof (count_true_le a l) as Hle. split.
    + intros Hz v Hv. apply elem_of_cons in Hv as [->|Hv].
      * destruct (a x); [simpl in Hz; lia | done].
      * apply IH; [|done]. destruct (a x); simpl in Hz; lia.
    + intros Hall. rewrite (Hall x (list_elem_of_here _ _)). simpl.
      apply IH. intros v Hv. apply Hall. by apply list_elem_of_further.
Qed.

Lemma count_true_all a l :
  (forall v, v ∈ l -> a v = true) -> count_true a l = Z.of_nat (length l).
Proof.
  induction l as [|x l IH]; intros Hall; [done|].
  rewrite count_true_cons, (Hall x (list_elem_of_here _ _)), IH; simpl.
  - lia.
  - intros v Hv. apply Hall. by apply list_elem_of_further.
Qed.

Lemma count_true_sublist a l1 l2 :
  l1 `sublist_of` l2 -> count_true a l1 <= count_true a l2.
Proof.
  induction 1 as [|x l1 l2 _ IH|x l1 l2 _ IH]; rewrite ?count_true_cons.
  - done.
  - lia.
  - destruct (a x); simpl; lia.
Qed.

Lemma count_true_negb a l :
  count_true a l + count_true (fun v => negb (a v)) l = Z.of_nat (length l).
Proof.
  induction l as [|x l IH]; [done|].
  rewrite !count_true_cons. destruct (a x); simpl length; simpl Z.b2z; lia.
Qed.

Lemma clause_not_both a x y :
  1 <= x -> 1 <= y ->
  (clause_sat a [- x; - y] = true <-> a x = false \/ a y = false).
Proof.
  intros Hx Hy. unfold clause_sat. simpl.
  rewrite !lit_true_neg by done.
  destruct (a x), (a y); simpl; intuition congruence.
Qed.

(** The clauses of [at_most_one] hold exactly when at most one entry of the
    list is true. *)
Lemma index_pairs_sat a l :
  Forall (fun v => 1 <= v) l ->
  (forall pr, pr ∈ index_pairs l -> clause_sat a [- pr.1; - pr.2] = true) <->
  count_true a l <= 1.
Proof.
  induction 1 as [|x l Hx Hl IH].
  - split; [rewrite count_true_nil; lia|].
    intros _ pr Hpr. by apply elem_of_nil in Hpr.
  - simpl index_pairs. rewrite count_true_cons.
    pose proof (count_true_le a l) as Hle. split.
    + intros Hall.
      assert (Hrest : count_true a l <= 1).
      { apply IH. intros pr Hpr. apply Hall. apply elem_of_app. by right. }
      destruct (a x) eqn:Hax; simpl; [|lia].
      assert (count_true a l = 0); [|lia].
      apply count_true_zero. intros v Hv.
      assert (Hc : clause_sat a [- x; - v] = true).
      { apply (Hall (x, v)). apply elem_of_app. left.
        apply list_elem_of_fmap. by exists v. }
      apply clause_not_both in Hc as [?|?]; [congruence|done|done|].
      by apply (proj1 (Forall_forall _ _) Hl).
    + intros Hcount pr Hpr. apply elem_of_app in Hpr as [Hpr|Hpr].
      * apply list_elem_of_fmap in Hpr as (v & -> & Hv). simpl.
        apply clause_not_both; [done|by apply (proj1 (Forall_forall _ _) Hl)|].
        destruct (a x) eqn:Hax; [right|by left].
        apply (proj1 (count_true_zero a l)); [|done].
        simpl in Hcount. lia.
      * apply IH; [|done]. destruct (a x); simpl in Hcount; lia.
Qed.

Lemma at_most_one_run l s :
  at_most_one l s
  = for_each (index_pairs l) (fun pr => add_clause [- pr.1; - pr.2]) s.
Proof.
  unfold at_most_one. apply for_each_ext. by intros [vi vj] s0.
Qed.

Lemma at_most_one_sat a l s u s' :
  Forall (fun v => 1 <= v) l ->
  at_most_one l s = Some (u, s') ->
  (sat a s' <-> sat a s /\ count_true a l <= 1).
Proof.
  intros Hl Hrun. rewrite at_most_one_run in Hrun.
  rewrite (for_each_add_clause_sat a _ _ _ _ _ Hrun).
  by rewrite index_pairs_sat.
Qed.

(** X7.  [at_most_one] never raises, and an assignment satisfies the clauses
    it adds exactly when at most one entry of the list is true. *)
Theorem at_most_one_meaning (a : assignment) (var_list : list Z)
    (s : state) :
  Forall (fun v => 1 <= v) var_list ->
  exists s',
    at_most_one var_list s = Some (tt, s') /\
    (sat a s' <-> sat a s /\ count_true a var_list <= 1).
Proof.
  intros Hl. destruct (at_most_one_Total var_list s) as [[[] s'] Hrun].
  exists s'. split; [done|]. by eapply at_most_one_sat.
Qed.

Lemma at_most_one_meaning_witness :
  exists s',
    at_most_one [1; 2; 3] init_state = Some (tt, s') /\
    (sat (fun v => bool_decide (v = 2)) s' <->
     sat (fun v => bool_decide (v = 2)) init_state /\
     count_true (fun v => bool_decide (v = 2)) [1; 2; 3] <= 1).
Proof.
  apply (at_most_one_meaning (fun v => bool_decide (v = 2)) [1; 2; 3]
           init_state).
  repeat constructor; lia.
Defined.

Lemma comb_spec {A} (l sub : list A) r :
  sub ∈ comb l r -> sub `sublist_of` l /\ length sub = r.
Proof.
  revert sub r. induction l as [|y l IH]; intros sub r Hsub.
  - destruct r; simpl in Hsub.
    + by apply list_elem_of_singleton in Hsub as ->.
    + by apply elem_of_nil in Hsub.
  - destruct r; simpl in Hsub.
    + apply list_elem_of_singleton in Hsub as ->.
      split; [apply sublist_nil_l | done].
    + apply elem_of_app in Hsub as [Hsub|Hsub].
      * apply list_elem_of_fmap in Hsub as (sub' & -> & Hsub').
        destruct (IH _ _ Hsub') as [Hs Hlen].
        split; [by apply sublist_skip | simpl; lia].
      * destruct (IH _ _ Hsub) as [Hs Hlen].
        split; [by apply sublist_cons | done].
Qed.

Lemma exactly_k_if_L_sat a l_var e_vars k s u s' :
  exactly_k_if_L l_var e_vars k s = Some (u, s') ->
  1 <= l_var -> Forall (fun v => 1 <= v) e_vars -> 0 <= k ->
  (sat a s' <-> sat a s /\ (a l_var = true -> count_true a e_vars = k)).
Proof.
  intros Hrun Hl Hes Hk. split.
  - intros Hsat. split.
    + eapply sat_ext; [|exact Hsat]. mono_run Hrun.
    + intros Hal. by eapply exactly_k_if_L_sound.
  - intros [Hsat Hcount].
    assert (Hpos : forall sub r v, sub ∈ comb e_vars r -> v ∈ sub -> 1 <= v).
    { intros sub r v Hsub Hv. eapply (proj1 (Forall_forall _ _) Hes).
      eapply comb_elem; eauto. }
    assert (Hguard : forall c, a l_var = false ->
                               clause_sat a ([- l_var] ++ c) = true).
    { intros c Hal. unfold clause_sat. simpl.
      by rewrite lit_true_neg, Hal by done. }
    unfold exactly_k_if_L in Hrun.
    apply bind_inv in Hrun as ([] & s1 & Hmost & Hleast).
    assert (Hsat1 : sat a s1).
    { destruct (decide (Z.of_nat (length e_vars) > k)) as [Hn|Hn].
      - apply bind_inv in Hmost as (subsets & s0 & Hc & Hloop).
        apply lift_inv in Hc as [Hc ->]. unfold combinations in Hc.
        rewrite decide_False in Hc by lia. injection Hc as <-.
        apply (for_each_add_clause_sat a
                 (fun subset => [- l_var] ++ map Z.opp subset) _ _ _ _ Hloop).
        split; [done|]. intros sub Hsub.
        destruct (a l_var) eqn:Hal; [|by apply Hguard].
        specialize (Hcount eq_refl).
        destruct (comb_spec _ _ _ Hsub) as [Hsl Hlen].
        destruct (decide (Forall (fun v => a v = true) sub)) as [Hall|Hex].
        + pose proof (count_true_sublist a _ _ Hsl) as Hle.
          rewrite (count_true_all a sub) in Hle; [lia|].
          by apply Forall_forall.
        + apply not_Forall_Exists in Hex; [|apply _].
          apply Exists_exists in Hex as (v & Hv & Hav).
          unfold clause_sat. apply existsb_exists. exists (- v). split.
          * apply in_or_app. right. apply in_map. by apply list_elem_of_In.
          * rewrite lit_true_neg by (by eapply Hpos).
            simpl in Hav. destruct (a v); [by exfalso; apply Hav | done].
      - by apply ret_inv in Hmost as [_ ->]. }
    destruct (decide (k > 0)) as [Hk0|Hk0].
    + apply bind_inv in Hleast as (subsets & s0 & Hc & Hloop).
      apply lift_inv in Hc as [Hc ->]. unfold combinations in Hc.
      destruct (decide (Z.of_nat (length e_vars) - k + 1 < 0)); [done|].
      injection Hc as <-.
      apply (for_each_add_clause_sat a
               (fun subset => [- l_var] ++ subset) _ _ _ _ Hloop).
      split; [done|]. intros sub Hsub.
      destruct (a l_var) eqn:Hal; [|by apply Hguard].
      specialize (Hcount eq_refl).
      destruct (comb_spec _ _ _ Hsub) as [Hsl Hlen].
      destruct (decide (Forall (fun v => a v = false) sub)) as [Hall|Hex].
      * pose proof (count_true_sublist (fun v => negb (a v)) _ _ Hsl) as Hle.
        rewrite (count_true_all _ sub) in Hle.
        2:{ intros v Hv. by rewrite (proj1 (Forall_forall _ _) Hall v Hv). }
        pose proof (count_true_negb a e_vars). lia.
      * apply not_Forall_Exists in Hex; [|apply _].
        apply Exists_exists in Hex as (v & Hv & Hav).
        unfold clause_sat. apply existsb_exists. exists v. split.
        -- apply in_or_app. right. by apply list_elem_of_In.
        -- rewrite lit_true_pos by (by eapply Hpos).
           simpl in Hav. destruct (a v); [done | by exfalso; apply Hav].
    + by apply ret_inv in Hleast as [_ ->].
Qed.

(** X8.  When [exactly_k_if_L] runs, an assignment satisfies the clauses it
    adds exactly when the guard variable is false or exactly k of the listed
    variables are true. *)
Theorem exactly_k_if_L_meaning (a : assignment) (l_var : Z)
    (e_vars : list Z) (k : Z) (s s' : state) :
  exactly_k_if_L l_var e_vars k s = Some (tt, s') ->
  1 <= l_var -> Forall (fun v => 1 <= v) e_vars -> 0 <= k ->
  (sat a s' <-> sat a s /\ (a l_var = true -> count_true a e_vars = k)).
Proof. apply exactly_k_if_L_sat. Qed.

Lemma exactly_k_if_L_meaning_witness :
  sat (fun v => bool_decide (v ∈ [1; 2; 4]))
      (mkState Dict.empty Dict.empty 1
         [[-1; -2; -3; -4]; [-1; 2; 3]; [-1; 2; 4]; [-1; 3; 4]]) <->
  sat (fun v => bool_decide (v ∈ [1; 2; 4])) init_state /\
  ((fun v => bool_decide (v ∈ [1; 2; 4])) 1 = true ->
   count_true (fun v => bool_decide (v ∈ [1; 2; 4])) [2; 3; 4] = 2).
Proof.
  apply (exactly_k_if_L_meaning (fun v => bool_decide (v ∈ [1; 2; 4])) 1
           [2; 3; 4] 2 init_state); [reflexivity|lia| |lia].
  repeat constructor; lia.
Defined.

(** ** One line per cell *)

Lemma string_app_cons c (s1 s2 : string) :
  String c s1 +:+ s2 = String c (s1 +:+ s2).
Proof. reflexivity. Qed.

Lemma string_length_app (s1 s2 : string) :
  String.length (s1 +:+ s2) = (String.length s1 + String.length s2)%nat.
Proof.
  induction s1 as [|c s1 IH]; [done|].
  rewrite string_app_cons. simpl. by rewrite IH.
Qed.

Lemma string_app_inj_r (s1 s2 r : string) : s1 +:+ r = s2 +:+ r -> s1 = s2.
Proof.
  revert s2. induction s1 as [|c s1 IH]; intros [|c2 s2] Heq.
  - done.
  - apply (f_equal String.length) in Heq.
    rewrite !string_length_app in Heq. simpl in Heq. lia.
  - apply (f_equal String.length) in Heq.
    rewrite !string_length_app in Heq. simpl in Heq. lia.
  - rewrite !string_app_cons in Heq. injection Heq as -> Heq.
    f_equal. by apply IH.
Qed.

(** Two lines have different occupied variables at the same cell. *)
Lemma lname_line_inj k1 k2 x y : lname k1 x y = lname k2 x y -> k1 = k2.
Proof.
  unfold lname. intros Heq. rewrite !string_app_cons in Heq.
  injection Heq as Heq. apply str_inj.
  apply (string_app_inj_r _ _ ("_" +:+ str x +:+ "_" +:+ str y)).
  exact Heq.
Qed.

Lemma count_true_two a l v1 v2 :
  v1 <> v2 -> v1 ∈ l -> v2 ∈ l -> a v1 = true -> a v2 = true ->
  2 <= count_true a l.
Proof.
  intros Hne H1 H2 Ha1 Ha2.
  assert (Hone : forall l' v, v ∈ l' -> a v = true -> 1 <= count_true a l').
  { intros l' v Hv Hav. pose proof (count_true_le a l') as Hle.
    destruct (decide (count_true a l' = 0)) as [Hz|]; [|lia].
    rewrite (proj1 (count_true_zero a l') Hz v Hv) in Hav. done. }
  induction l as [|x l IH]; [by apply elem_of_nil in H1|].
  rewrite count_true_cons.
  apply elem_of_cons in H1 as [->|H1]; apply elem_of_cons in H2 as [->|H2].
  - done.
  - rewrite Ha1. simpl. pose proof (Hone l v2 H2 Ha2). lia.
  - rewrite Ha2. simpl. pose proof (Hone l v1 H1 Ha1). lia.
  - specialize (IH H1 H2). destruct (a x); simpl; lia.
Qed.

Lemma unique_occupancy_holds p t s a k1 k2 x y :
  run_encoder p = Some (t, s) ->
  sat a s ->
  k1 <> k2 ->
  holds a (L_vars t) (k1, x, y) = true ->
  holds a (L_vars t) (k2, x, y) = false.
Proof.
  intros Hrun Hsat Hne H1.
  destruct (holds a (L_vars t) (k2, x, y)) eqn:H2; [exfalso|done].
  apply run_encoder_inv in Hrun
    as (s0 & s1 & s2 & s3 & s4 & s5 & Hinv & Hwf & Hocc & _ & _ & _ & _ & _
        & E1 & E2 & E3 & E4 & E5 & E6).
  assert (Hsat1 : sat a s1).
  { eapply sat_ext; [|exact Hsat].
    repeat (eapply ext_trans; [eassumption|]). apply ext_refl. }
  unfold holds in H1, H2.
  destruct (Dict.get (L_vars t) (k1, x, y)) as [v1|] eqn:Hg1; [|done].
  destruct (Dict.get (L_vars t) (k2, x, y)) as [v2|] eqn:Hg2; [|done].
  assert (Hv : v1 <> v2).
  { intros <-. apply Hne. apply (lname_line_inj k1 k2 x y).
    eapply (wf_inj _ Hwf); by eapply (inv_nL _ _ _ _ _ Hinv). }
  set (vids := default [] (Dict.get (cells_lines t) (x, y))).
  assert (Hin1 : v1 ∈ vids).
  { apply (cells_lines_spec _ _ _ _ _ Hinv (x, y)). by exists k1. }
  assert (Hin2 : v2 ∈ vids).
  { apply (cells_lines_spec _ _ _ _ _ Hinv (x, y)). by exists k2. }
  assert (Hpos : Forall (fun v => 1 <= v) vids).
  { apply Forall_forall. intros v Hvin.
    apply (cells_lines_spec _ _ _ _ _ Hinv (x, y)) in Hvin as [k Hk].
    by eapply L_vars_pos. }
  pose proof (count_true_two a vids v1 v2 Hv Hin1 Hin2 H1 H2) as Htwo.
  pose proof (count_true_le a vids) as Hle.
  assert (Hget : Dict.get (cells_lines t) (x, y) = Some vids).
  { unfold vids in *. destruct (Dict.get (cells_lines t) (x, y)); [done|].
    by apply elem_of_nil in Hin1. }
  apply get_Some_In in Hget.
  unfold enforce_unique_occupancy in Hocc.
  eapply (for_each_elem _ _ _ _ _ ((x, y), vids)) in Hocc
    as (sa & sb & Hbody & _ & Hextb); [|intros; mono|exact Hget].
  simpl in Hbody. rewrite decide_True in Hbody by lia.
  apply (at_most_one_sat a) in Hbody; [|done].
  assert (Hsatb : sat a sb) by (by eapply sat_ext).
  apply Hbody in Hsatb as [_ Hone]. lia.
Qed.

(** X9.  In every satisfying assignment of the emitted clauses, two
    different lines never occupy the same cell. *)
Theorem unique_occupancy_enforced (p : problem) (t : tables) (s : state)
    (a : assignment) (k1 k2 x y : Z) :
  run_encoder p = Some (t, s) ->
  cnf_sat a (clauses s) = true ->
  k1 <> k2 ->
  holds a (L_vars t) (k1, x, y) = true ->
  holds a (L_vars t) (k2, x, y) = false.
Proof. apply unique_occupancy_holds. Qed.

Lemma unique_occupancy_enforced_witness :
  holds two_lines_assignment (L_vars (final_tables two_lines)) (1, 0, 0)
  = false.
Proof.
  exact (unique_occupancy_enforced two_lines (final_tables two_lines)
           (final_state two_lines) two_lines_assignment 0 1 0 0
           ltac:(vm_compute; reflexivity)
           ltac:(vm_compute; reflexivity)
           ltac:(discriminate)
           ltac:(vm_compute; reflexivity)).
Defined.

(* ================================================================== *)
(** * Further properties of the decoder *)

(** X10.  The adjacency list of line k files under a cell exactly the steps
    of the true edge variables of line k that leave the cell, each with its
    destination. *)
Theorem adjacency_lists_true_edges (k : Z) (E_true : list edge) (c nb : cell)
    (d : Dir) :
  (nb, d) ∈ default [] (Dict.get (build_adjacency_list_for_line k E_true) c)
  <-> (k, c.1, c.2, d) ∈ E_true /\ nb = step c.1 c.2 d.
Proof. rewrite build_adjacency_get. apply elem_of_neighbours_of. Qed.

(** ** The search finds a path exactly when there is one *)

Lemma walk_last_is_Some c dirs : is_Some (last (walk c dirs)).
Proof.
  destruct (last (walk c dirs)) eqn:Hl; [eauto|].
  apply last_None in Hl. pose proof (walk_head c dirs) as Hh.
  rewrite Hl in Hh. by apply elem_of_nil in Hh.
Qed.

Lemma walk_snoc c dirs d lc :
  last (walk c dirs) = Some lc ->
  walk c (dirs ++ [d]) = walk c dirs ++ [step lc.1 lc.2 d].
Proof.
  revert c. induction dirs as [|d0 dirs IH]; intros c Hl; simpl in *.
  - by injection Hl as <-.
  - rewrite last_cons in Hl.
    destruct (walk_last_is_Some (step c.1 c.2 d0) dirs) as [z Hz].
    rewrite Hz in Hl. injection Hl as <-. by rewrite (IH _ Hz).
Qed.

Lemma path_edges_snoc k c dirs d lc :
  last (walk c dirs) = Some lc ->
  path_edges k c (dirs ++ [d]) = path_edges k c dirs ++ [(k, lc.1, lc.2, d)].
Proof.
  revert c. induction dirs as [|d0 dirs IH]; intros c Hl; simpl in *.
  - by injection Hl as <-.
  - rewrite last_cons in Hl.
    destruct (walk_last_is_Some (step c.1 c.2 d0) dirs) as [z Hz].
    rewrite Hz in Hl. injection Hl as <-. by rewrite (IH _ Hz).
Qed.

Section Search.
Variables (k : Z) (E_true : list edge) (start end_ : cell).

Lemma good_entry_mono v v' c p :
  (forall x, x ∈ v -> x ∈ v') ->
  good_entry k E_true start v c p -> good_entry k E_true start v' c p.
Proof. intros Hsub (H1 & H2 & H3 & H4). repeat split; auto. Qed.

Lemma bfs_visit_good cur path nbs st :
  good_entry k E_true start st.2 cur path ->
  good_queue k E_true start st ->
  (forall nb d, (nb, d) ∈ nbs ->
                (k, cur.1, cur.2, d) ∈ E_true /\ nb = step cur.1 cur.2 d) ->
  good_queue k E_true start (bfs_visit path nbs st).
Proof.
  revert st. induction nbs as [|[nb d] nbs IH]; intros [q v] Hcur Hq Hnbs;
    [done|].
  unfold bfs_visit. simpl fold_left.
  assert (Hrest : forall nb' d', (nb', d') ∈ nbs ->
            (k, cur.1, cur.2, d') ∈ E_true /\ nb' = step cur.1 cur.2 d').
  { intros nb' d' Hin. apply Hnbs. by apply list_elem_of_further. }
  destruct (decide (nb ∈ v)) as [Hv|Hv]; [by apply IH|].
  assert (Hsub : forall x, x ∈ v -> x ∈ v ++ [nb]).
  { intros x Hx. apply elem_of_app. by left. }
  apply IH; [| |done]; simpl in *.
  - by eapply good_entry_mono.
  - intros c p Hin. simpl in Hin. apply elem_of_app in Hin as [Hin|Hin].
    + eapply good_entry_mono; [exact Hsub|]. by apply Hq.
    + apply list_elem_of_singleton in Hin. injection Hin as -> ->.
      destruct Hcur as (Hlast & Hedges & Hvis & Hnd).
      destruct (Hnbs nb d (list_elem_of_here _ _)) as [He Hnb].
      split; [|split; [|split]].
      * rewrite (walk_snoc _ _ _ _ Hlast), last_snoc. by rewrite Hnb.
      * intros ed Hed. rewrite (path_edges_snoc _ _ _ _ _ Hlast) in Hed.
        apply elem_of_app in Hed as [Hed|Hed]; [by apply Hedges|].
        by apply list_elem_of_singleton in Hed as ->.
      * intros x Hx. rewrite (walk_snoc _ _ _ _ Hlast) in Hx.
        apply elem_of_app in Hx as [Hx|Hx].
        -- apply Hsub. by apply Hvis.
        -- apply list_elem_of_singleton in Hx as ->. rewrite <- Hnb.
           apply elem_of_app. right. apply list_elem_of_here.
      * rewrite (walk_snoc _ _ _ _ Hlast), <- Hnb. apply NoDup_app.
        split; [done|]. split; [|apply NoDup_singleton].
        intros x Hx Hx'. apply list_elem_of_singleton in Hx' as ->.
        apply Hv. by apply Hvis.
Qed.

Lemma bfs_loop_good fuel st p :
  good_queue k E_true start st ->
  bfs_loop fuel (build_adjacency_list_for_line k E_true) end_ st
  = Some (Some p) ->
  NoDup (walk start p) /\ last (walk start p) = Some end_ /\
  (forall ed, ed ∈ path_edges k start p -> ed ∈ E_true).
Proof.
  revert st. induction fuel as [|fuel IH]; intros [q v] Hq Hrun; [done|].
  rewrite bfs_loop_unfold in Hrun. cbn [fst snd] in Hrun.
  destruct q as [|[cur path] q]; [done|].
  assert (Hcur : good_entry k E_true start v cur path)
    by (apply Hq; apply list_elem_of_here).
  destruct (decide (cur = end_)) as [->|Hne].
  - injection Hrun as <-. by destruct Hcur as (? & ? & ? & ?).
  - rewrite build_adjacency_get in Hrun.
    apply IH in Hrun; [done|].
    apply (bfs_visit_good cur); [done| |].
    + intros c p' Hin. apply Hq. by apply list_elem_of_further.
    + intros nb d Hin. by apply elem_of_neighbours_of in Hin.
Qed.

(** What the search returns is a path. *)
Lemma perform_bfs_search_good p :
  perform_bfs_search (build_adjacency_list_for_line k E_true) start end_
  = Some p ->
  NoDup (walk start p) /\ last (walk start p) = Some end_ /\
  (forall ed, ed ∈ path_edges k start p -> ed ∈ E_true).
Proof.
  unfold perform_bfs_search. intros Hrun.
  destruct (bfs_loop _ _ _ _) as [r|] eqn:Hloop; [|done]. subst r.
  apply bfs_loop_good in Hloop; [done|].
  intros c p' Hin. apply list_elem_of_singleton in Hin.
  injection Hin as -> ->. simpl. split; [done|]. split; [|split].
  - intros ed Hed. by apply elem_of_nil in Hed.
  - done.
  - apply NoDup_singleton.
Qed.

Lemma bfs_visit_grows path nbs st :
  let st' := bfs_visit path nbs st in
  (forall e, e ∈ st.1 -> e ∈ st'.1) /\
  (forall c, c ∈ st.2 -> c ∈ st'.2) /\
  (forall nb d, (nb, d) ∈ nbs -> nb ∈ st'.2) /\
  (forall c, c ∈ st'.2 -> c ∈ st.2 \/ exists p, (c, p) ∈ st'.1).
Proof.
  revert st. induction nbs as [|[nb d] nbs IH]; intros [q v].
  - simpl. repeat split; auto. intros nb d Hin. by apply elem_of_nil in Hin.
  - unfold bfs_visit. simpl fold_left.
    destruct (decide (nb ∈ v)) as [Hv|Hv].
    + destruct (IH (q, v)) as (H1 & H2 & H3 & H4). simpl in *.
      repeat split; auto.
      intros nb' d' Hin. apply elem_of_cons in Hin as [[= -> ->]|Hin];
        [by apply H2 | by eapply H3].
    + destruct (IH (q ++ [(nb, path ++ [d])], v ++ [nb]))
        as (H1 & H2 & H3 & H4). simpl in *.
      split; [|split; [|split]].
      * intros e He. apply H1. apply elem_of_app. by left.
      * intros c Hc. apply H2. apply elem_of_app. by left.
      * intros nb' d' Hin. apply elem_of_cons in Hin as [[= -> ->]|Hin];
          [|by eapply H3].
        apply H2. apply elem_of_app. right. apply list_elem_of_here.
      * intros c Hc. apply H4 in Hc as [Hc|Hc]; [|by right].
        apply elem_of_app in Hc as [Hc|Hc]; [by left|].
        apply list_elem_of_singleton in Hc as ->. right.
        exists (path ++ [d]). apply H1. apply elem_of_app. right.
        apply list_elem_of_here.
Qed.

(** In a closed state with an empty queue, a walk along true edge variables
    stays among the visited cells. *)
Lemma closed_walk v dirs : forall c,
  closed k E_true start end_ ([], v) -> c ∈ v ->
  (forall ed, ed ∈ path_edges k c dirs -> ed ∈ E_true) ->
  forall x, x ∈ walk c dirs -> x ∈ v.
Proof.
  induction dirs as [|d dirs IH]; intros c Hcl Hc Hedges x Hx; simpl in *.
  - by apply list_elem_of_singleton in Hx as ->.
  - apply elem_of_cons in Hx as [->|Hx]; [done|].
    apply (IH (step c.1 c.2 d)); [done| | |done].
    + destruct Hcl as [_ Hcl]. destruct (Hcl c Hc) as [[p Hp]|[_ Hnb]].
      * by apply elem_of_nil in Hp.
      * apply (Hnb _ d). apply elem_of_neighbours_of.
        split; [|done]. apply Hedges. apply list_elem_of_here.
    + intros ed Hed. apply Hedges. by apply list_elem_of_further.
Qed.

Lemma bfs_loop_none fuel st dirs :
  closed k E_true start end_ st ->
  bfs_loop fuel (build_adjacency_list_for_line k E_true) end_ st
  = Some None ->
  (forall ed, ed ∈ path_edges k start dirs -> ed ∈ E_true) ->
  last (walk start dirs) <> Some end_.
Proof.
  revert st. induction fuel as [|fuel IH]; intros [q v] Hcl Hrun Hedges;
    [done|].
  rewrite bfs_loop_unfold in Hrun. cbn [fst snd] in Hrun.
  destruct q as [|[cur path] q].
  - intros Hlast.
    assert (Hin : end_ ∈ v).
    { apply (closed_walk v dirs start); [done|by destruct Hcl|done|].
      apply last_Some in Hlast as [l' ->].
      apply elem_of_app. right. apply list_elem_of_here. }
    destruct Hcl as [_ Hcl]. destruct (Hcl _ Hin) as [[p Hp]|[Hne _]];
      [by apply elem_of_nil in Hp | done].
  - destruct (decide (cur = end_)) as [->|Hne]; [done|].
    rewrite build_adjacency_get in Hrun.
    apply (IH _) in Hrun; [done| |done].
    destruct Hcl as [Hs Hcl].
    pose proof (bfs_visit_grows path (neighbours_of k E_true cur) (q, v))
      as (H1 & H2 & H3 & H4). simpl in *.
    split; [by apply H2|].
    intros c Hc. apply H4 in Hc as [Hc|Hc]; [|by left].
    destruct (Hcl c Hc) as [[p Hp]|[Hce Hnb]].
    + apply elem_of_cons in Hp as [[= -> ->]|Hp].
      * right. split; [done|]. intros nb d Hin. by eapply H3.
      * left. exists p. by apply H1.
    + right. split; [done|]. intros nb d Hin. apply H2. by eapply Hnb.
Qed.
End Search.

Lemma find_path_bfs_sound k s e E_true dirs :
  find_path_bfs k s e E_true = Some dirs ->
  NoDup (walk s dirs) /\ last (walk s dirs) = Some e /\
  (forall ed, ed ∈ path_edges k s dirs -> ed ∈ E_true).
Proof. apply perform_bfs_search_good. Qed.

Lemma find_path_bfs_complete k s e E_true dirs :
  last (walk s dirs) = Some e ->
  (forall ed, ed ∈ path_edges k s dirs -> ed ∈ E_true) ->
  is_Some (find_path_bfs k s e E_true).
Proof.
  intros Hlast Hedges. unfold find_path_bfs, perform_bfs_search.
  destruct (bfs_bound_enough (build_adjacency_list_for_line k E_true) e s)
    as [r Hr].
  rewrite Hr. destruct r as [p|]; [eauto|]. exfalso.
  eapply (bfs_loop_none k E_true s e); [|exact Hr|exact Hedges|exact Hlast].
  split; simpl; [apply list_elem_of_here|].
  intros c Hc. apply list_elem_of_singleton in Hc as ->. left.
  exists []. apply list_elem_of_here.
Qed.

(** X11.  A path returned for line k walks from the start to the end along
    true edge variables of line k, and visits no cell twice. *)
Theorem find_path_bfs_returns_simple_path (k : Z) (s e : cell)
    (E_true : list edge) (dirs : list Dir) :
  find_path_bfs k s e E_true = Some dirs ->
  NoDup (walk s dirs) /\ last (walk s dirs) = Some e /\
  (forall ed, ed ∈ path_edges k s dirs -> ed ∈ E_true).
Proof. apply find_path_bfs_sound. Qed.

Lemma find_path_bfs_returns_simple_path_witness :
  NoDup (walk (0, 0) [DirR; DirD]) /\
  last (walk (0, 0) [DirR; DirD]) = Some (1, 1) /\
  (forall ed, ed ∈ path_edges 0 (0, 0) [DirR; DirD] ->
              ed ∈ [(0, 0, 0, DirD); (0, 1, 0, DirD); (0, 0, 0, DirR);
                    (1, 0, 0, DirD)]).
Proof.
  apply (find_path_bfs_returns_simple_path 0 (0, 0) (1, 1)
           [(0, 0, 0, DirD); (0, 1, 0, DirD); (0, 0, 0, DirR);
            (1, 0, 0, DirD)]
           [DirR; DirD]).
  reflexivity.
Defined.

(** X12.  The search returns a path for line k exactly when some walk along
    true edge variables of line k leads from the start to the end; it
    returns [None] only when there is none. *)
Theorem find_path_bfs_finds_iff (k : Z) (s e : cell) (E_true : list edge) :
  is_Some (find_path_bfs k s e E_true) <->
  exists dirs,
    last (walk s dirs) = Some e /\
    (forall ed, ed ∈ path_edges k s dirs -> ed ∈ E_true).
Proof.
  split.
  - intros [dirs Hd]. exists dirs.
    by apply find_path_bfs_sound in Hd as (_ & ? & ?).
  - intros (dirs & Hlast & Hedges). by eapply find_path_bfs_complete.
Qed.

(** ** A line whose start is its end *)

Lemma find_path_bfs_trivial k c E_true : find_path_bfs k c c E_true = Some [].
Proof.
  unfold find_path_bfs. apply (perform_bfs_search_fuel _ _ 1).
  simpl. by rewrite decide_True.
Qed.

(** X13.  For a line whose start is its end the search returns the empty
    path, whatever the edge variables; so for a single such line the decoder
    writes the line ["0"], the very text that it writes for [UNSAT]. *)
Theorem trivial_line_reads_as_unsat (k : Z) (c : cell) (E_true : list edge) :
  find_path_bfs k c c E_true = Some [] /\
  path_line [] = "0" /\
  decode 1 [(c, c)] (SAT E_true) = decode 1 [(c, c)] UNSAT.
Proof.
  split; [apply find_path_bfs_trivial|]. split; [done|].
  unfold decode. simpl. by rewrite find_path_bfs_trivial.
Qed.

(* ================================================================== *)
(** * From a satisfying assignment to the decoded paths *)

(** ** Edges leave a closed set of cells in pairs *)

Lemma step_inj d (c c' : cell) :
  step c.1 c.2 d = step c'.1 c'.2 d -> c = c'.
Proof.
  destruct c as [x y], c' as [x' y'], d; unfold step; simpl;
    intros [= ? ?]; f_equal; lia.
Qed.

Lemma REV_DIRS_involutive d : REV_DIRS (REV_DIRS d) = d.
Proof. by destruct d. Qed.

Section Handshake.
Variable on : cell -> Dir -> bool.
Variable v : list cell.
Hypothesis Hnd : NoDup v.
Hypothesis Hsym : forall c d,
  c ∈ v -> on c d = true ->
  step c.1 c.2 d ∈ v /\ on (step c.1 c.2 d) (REV_DIRS d) = true.

(** As many cells have an edge in direction [d] as in the reverse
    direction. *)
Lemma out_count d :
  length (filter (fun c => on c d = true) v)
  = length (filter (fun c => on c (REV_DIRS d) = true) v).
Proof.
  rewrite <- (length_map (fun c : cell => step c.1 c.2 d)).
  apply Permutation_length. apply NoDup_Permutation.
  - apply NoDup_fmap_2; [|by apply NoDup_filter].
    intros c c'. apply step_inj.
  - by apply NoDup_filter.
  - intros c'. rewrite list_elem_of_fmap, list_elem_of_filter. split.
    + intros (c & -> & [Hon Hc]%list_elem_of_filter).
      destruct (Hsym c d Hc Hon) as [Hin Hrev]. done.
    + intros [Hon Hc'].
      destruct (Hsym c' (REV_DIRS d) Hc' Hon) as [Hin Hrev].
      rewrite REV_DIRS_involutive in Hrev.
      exists (step c'.1 c'.2 (REV_DIRS d)). split.
      * pose proof (step_rev (step c'.1 c'.2 (REV_DIRS d)) d) as Hr.
        pose proof (step_rev c' (REV_DIRS d)) as Hr'. simpl in Hr'.
        rewrite REV_DIRS_involutive in Hr'. by rewrite Hr'.
      * by apply list_elem_of_filter.
Qed.

Lemma degree_sum_even : exists n, degree_sum on v = 2 * n.
Proof.
  assert (Hsum : forall l,
    degree_sum on l
    = Z.of_nat (length (filter (fun c => on c DirR = true) l))
      + Z.of_nat (length (filter (fun c => on c DirL = true) l))
      + Z.of_nat (length (filter (fun c => on c DirU = true) l))
      + Z.of_nat (length (filter (fun c => on c DirD = true) l))).
  { induction l as [|c l IH]; [done|].
    simpl degree_sum. rewrite IH, !filter_cons. unfold degree.
    destruct (on c DirR), (on c DirL), (on c DirU), (on c DirD);
      repeat (first [rewrite decide_True by done
                    | rewrite decide_False by done]);
      simpl length; simpl Z.b2z; lia. }
  rewrite Hsum.
  pose proof (out_count DirR) as HR. pose proof (out_count DirU) as HU.
  simpl in HR, HU. rewrite <- HR, <- HU.
  exists (Z.of_nat (length (filter (fun c => on c DirR = true) v))
          + Z.of_nat (length (filter (fun c => on c DirU = true) v))).
  lia.
Qed.
End Handshake.

Lemma degree_sum_two on (v : list cell) :
  (forall c, c ∈ v -> degree on c = 2) ->
  degree_sum on v = 2 * Z.of_nat (length v).
Proof.
  induction v as [|c v IH]; intros Hall; [done|].
  simpl degree_sum. rewrite (Hall c (list_elem_of_here _ _)), IH.
  - simpl length. lia.
  - intros c' Hc'. apply Hall. by apply list_elem_of_further.
Qed.

(** A set of cells of degree 2, but for one of degree 1, has an odd sum. *)
Lemma degree_sum_odd on (v : list cell) st :
  NoDup v -> st ∈ v -> degree on st = 1 ->
  (forall c, c ∈ v -> c <> st -> degree on c = 2) ->
  degree_sum on v = 2 * Z.of_nat (length v) - 1.
Proof.
  induction v as [|c v IH]; intros Hnd Hst Hone Htwo;
    [by apply elem_of_nil in Hst|].
  apply NoDup_cons in Hnd as [Hc Hnd]. simpl degree_sum. simpl length.
  destruct (decide (c = st)) as [->|Hne].
  - rewrite Hone, degree_sum_two; [lia|].
    intros c' Hc'. apply Htwo; [by apply list_elem_of_further|].
    intros ->. done.
  - apply elem_of_cons in Hst as [->|Hst]; [done|].
    rewrite (Htwo c (list_elem_of_here _ _) Hne), IH; [lia|done|done|done|].
    intros c' Hc'. apply Htwo. by apply list_elem_of_further.
Qed.

(** ** Where a failed search ends *)

Section SearchEnd.
Variables (k : Z) (E_true : list edge) (start end_ : cell).

Lemma bfs_visit_reached cur path nbs st :
  cur ∈ st.2 ->
  reached k E_true start st.2 ->
  (forall c p, (c, p) ∈ st.1 -> c ∈ st.2) ->
  (forall nb d, (nb, d) ∈ nbs ->
                (k, cur.1, cur.2, d) ∈ E_true /\ nb = step cur.1 cur.2 d) ->
  reached k E_true start (bfs_visit path nbs st).2 /\
  (forall c p, (c, p) ∈ (bfs_visit path nbs st).1 ->
               c ∈ (bfs_visit path nbs st).2).
Proof.
  revert st. induction nbs as [|[nb d] nbs IH];
    intros [q v] Hcur Hreach Hq Hnbs; [done|].
  unfold bfs_visit. simpl fold_left.
  assert (Hrest : forall nb' d', (nb', d') ∈ nbs ->
            (k, cur.1, cur.2, d') ∈ E_true /\ nb' = step cur.1 cur.2 d').
  { intros nb' d' Hin. apply Hnbs. by apply list_elem_of_further. }
  destruct (decide (nb ∈ v)) as [Hv|Hv]; [by apply IH|].
  simpl in *. destruct Hreach as [Hnd Hfrom].
  destruct (Hnbs nb d (list_elem_of_here _ _)) as [He Hnb].
  apply IH; simpl; [| | |done].
  - apply elem_of_app. by left.
  - split.
    + apply NoDup_app. split; [done|]. split; [|apply NoDup_singleton].
      intros x Hx Hx'. by apply list_elem_of_singleton in Hx' as ->.
    + intros c Hc. apply elem_of_app in Hc as [Hc|Hc].
      * destruct (Hfrom c Hc) as [?|(c' & d' & Hc' & He' & ->)]; [by left|].
        right. exists c', d'. split; [|done]. apply elem_of_app. by left.
      * apply list_elem_of_singleton in Hc as ->. right.
        exists cur, d. split; [|done]. apply elem_of_app. by left.
  - intros c p Hin. apply elem_of_app in Hin as [Hin|Hin].
    + apply elem_of_app. left. by eapply Hq.
    + apply list_elem_of_singleton in Hin. injection Hin as -> ->.
      apply elem_of_app. right. apply list_elem_of_here.
Qed.

Lemma bfs_visit_closed cur path q v :
  closed k E_true start end_ ((cur, path) :: q, v) ->
  cur <> end_ ->
  closed k E_true start end_
         (bfs_visit path (neighbours_of k E_true cur) (q, v)).
Proof.
  intros [Hs Hcl] Hne.
  pose proof (bfs_visit_grows path (neighbours_of k E_true cur) (q, v))
    as (H1 & H2 & H3 & H4). simpl in *.
  split; [by apply H2|].
  intros c Hc. apply H4 in Hc as [Hc|Hc]; [|by left].
  destruct (Hcl c Hc) as [[p Hp]|[Hce Hnb]].
  - apply elem_of_cons in Hp as [[= -> ->]|Hp].
    + right. split; [done|]. intros nb d Hin. by eapply H3.
    + left. exists p. by apply H1.
  - right. split; [done|]. intros nb d Hin. apply H2. by eapply Hnb.
Qed.

Lemma bfs_loop_none_state fuel st :
  closed k E_true start end_ st ->
  reached k E_true start st.2 ->
  (forall c p, (c, p) ∈ st.1 -> c ∈ st.2) ->
  bfs_loop fuel (build_adjacency_list_for_line k E_true) end_ st
  = Some None ->
  exists v, closed k E_true start end_ ([], v) /\ reached k E_true start v.
Proof.
  revert st. induction fuel as [|fuel IH]; intros [q v] Hcl Hreach Hq Hrun;
    [done|].
  rewrite bfs_loop_unfold in Hrun. cbn [fst snd] in Hrun.
  destruct q as [|[cur path] q]; [by exists v|].
  destruct (decide (cur = end_)) as [->|Hne]; [done|].
  rewrite build_adjacency_get in Hrun. simpl in *.
  destruct (bfs_visit_reached cur path (neighbours_of k E_true cur) (q, v))
    as [Hreach' Hq']; simpl.
  - apply (Hq cur path). apply list_elem_of_here.
  - done.
  - intros c p Hin. apply (Hq c p). by apply list_elem_of_further.
  - intros nb d Hin. by apply elem_of_neighbours_of in Hin.
  - apply IH in Hrun; [done| |done|done]. by apply bfs_visit_closed.
Qed.
End SearchEnd.

(** When the search finds no path, the cells it visited are closed under the
    true edge variables of the line, hold the start and do not hold the
    end. *)
Lemma find_path_bfs_none_closed k s e E_true :
  find_path_bfs k s e E_true = None ->
  exists v, closed k E_true s e ([], v) /\ reached k E_true s v.
Proof.
  unfold find_path_bfs, perform_bfs_search. intros Hnone.
  destruct (bfs_bound_enough (build_adjacency_list_for_line k E_true) e s)
    as [r Hr].
  rewrite Hr in Hnone. subst r.
  eapply bfs_loop_none_state; [| | |exact Hr]; simpl.
  - split; simpl; [apply list_elem_of_here|].
    intros c Hc. apply list_elem_of_singleton in Hc as ->. left.
    exists []. apply list_elem_of_here.
  - split; [apply NoDup_singleton|].
    intros c Hc. apply list_elem_of_singleton in Hc as ->. by left.
  - intros c p Hin. apply list_elem_of_singleton in Hin.
    injection Hin as -> ->. apply list_elem_of_here.
Qed.

(** ** Every line of a satisfying assignment has its path *)

Lemma satisfying_assignment_connects p t s a k st en E_true :
  run_encoder p = Some (t, s) ->
  sat a s ->
  (k, (st, en)) ∈ enumerate (p_lines_spec p) ->
  (forall x y d,
     (k, x, y, d) ∈ E_true <-> holds a (E_vars t) (k, x, y, d) = true) ->
  is_Some (find_path_bfs k st en E_true).
Proof.
  intros Hrun Hsat Hk Htrue.
  destruct (find_path_bfs k st en E_true) as [dirs|] eqn:Hf; [eauto|].
  exfalso.
  apply find_path_bfs_none_closed in Hf as (v & [Hst Hcl] & [Hnd Hfrom]).
  simpl in Hst, Hcl.
  destruct (continuity_holds p t s a k st en Hrun Hsat Hk)
    as (Hocc_st & _ & Hdeg).
  set (on := fun (c : cell) d => holds a (E_vars t) (k, c.1, c.2, d)).
  assert (Hocc : forall c, c ∈ v -> holds a (L_vars t) (k, c.1, c.2) = true).
  { intros c Hc. destruct (Hfrom c Hc) as [->|(c' & d & Hc' & He & ->)];
      [done|].
    apply Htrue in He.
    by destruct (edge_consistency_holds p t s a k c'.1 c'.2 d Hrun Hsat He)
      as (_ & ? & _). }
  assert (Hnot_end : forall c, c ∈ v -> c <> en).
  { intros c Hc. destruct (Hcl c Hc) as [[? Hp]|[? _]];
      [by apply elem_of_nil in Hp | done]. }
  assert (Hdegree : forall c, c ∈ v ->
            degree on c = if decide (c = st) then 1 else 2).
  { intros [x y] Hc. unfold degree, on. simpl.
    rewrite <- count_incident, (Hdeg x y (Hocc _ Hc)).
    pose proof (Hnot_end _ Hc) as Hne.
    case_decide as Hor; case_decide as Heq; try done.
    - by destruct Hor.
    - exfalso. apply Hor. by left. }
  destruct (degree_sum_even on v Hnd) as [n Heven].
  { intros c d Hc Hon. unfold on in *.
    destruct (edge_consistency_holds p t s a k c.1 c.2 d Hrun Hsat Hon)
      as (_ & _ & Hrev).
    split; [|done].
    destruct (Hcl c Hc) as [[? Hp]|[_ Hnb]]; [by apply elem_of_nil in Hp|].
    apply (Hnb _ d). apply elem_of_neighbours_of. split; [|done].
    by apply Htrue. }
  rewrite (degree_sum_odd on v st) in Heven; [lia|done|done| |].
  - rewrite Hdegree by done. by rewrite decide_True.
  - intros c Hc Hne. rewrite Hdegree by done. by rewrite decide_False.
Qed.

Lemma elem_of_true_keys {K} `{EqDecision K} (a : assignment)
    (d : Dict.t K Z) (key : K) :
  key ∈ true_keys a d <-> holds a d key = true.
Proof.
  unfold true_keys. rewrite list_elem_of_filter. split; [by intros [? _]|].
  intros Hh. split; [done|]. unfold holds in Hh.
  destruct (Dict.get d key) as [v|] eqn:Hg; [|done].
  apply get_Some_In in Hg. unfold Dict.keys.
  apply list_elem_of_fmap. by exists (key, v).
Qed.

(** When every line has a path, the decoder writes the paths it found. *)
Lemma decode_found_paths K lines_spec E_true :
  Z.to_nat K = length lines_spec ->
  (forall (k : nat) st en,
     lines_spec !! k = Some (st, en) ->
     is_Some (find_path_bfs (Z.of_nat k) st en E_true)) ->
  decode K lines_spec (SAT E_true)
  = Some (mkDecoded (map path_line (found_paths lines_spec E_true)) 0).
Proof.
  intros HK Hall. simpl.
  destruct (decoding_loop_range K lines_spec E_true HK) as
    (b & out & -> & Hres).
  destruct b.
  - destruct Hres as [Hlen Hout]. do 2 f_equal.
    apply (list_eq_same_length _ _ (length lines_spec)); [|done|].
    + unfold found_paths. by rewrite length_map, length_imap.
    + intros i x y Hi Hx Hy.
      apply lookup_lt_is_Some in Hi as [[st en] Hk].
      destruct (Hout i st en Hk) as (p & Hp & Ho).
      unfold found_paths in Hy.
      rewrite list_lookup_fmap, list_lookup_imap, Hk in Hy. simpl in Hy.
      rewrite Hp in Hy. simpl in Hy. congruence.
  - destruct Hres as (k & st & en & Hk & Hnone).
    destruct (Hall k st en Hk) as [p Hp]. congruence.
Qed.

Lemma found_paths_lookup lines_spec E_true (k : nat) st en dirs :
  lines_spec !! k = Some (st, en) ->
  found_paths lines_spec E_true !! k = Some dirs ->
  is_Some (find_path_bfs (Z.of_nat k) st en E_true) ->
  find_path_bfs (Z.of_nat k) st en E_true = Some dirs.
Proof.
  intros Hk Hd [p Hp]. unfold found_paths in Hd.
  rewrite list_lookup_imap, Hk in Hd. simpl in Hd.
  rewrite Hp in Hd. simpl in Hd. congruence.
Qed.

(** Every cell of a walk along true edge variables is the start or the
    destination of one of them. *)
Lemma walk_cells k c dirs x :
  x ∈ walk c dirs ->
  x = c \/ exists x' d, (k, x'.1, x'.2, d) ∈ path_edges k c dirs /\
                        x = step x'.1 x'.2 d.
Proof.
  revert c. induction dirs as [|d0 dirs IH]; intros c Hx; simpl in *.
  - left. by apply list_elem_of_singleton in Hx.
  - apply elem_of_cons in Hx as [->|Hx]; [by left|]. right.
    destruct (IH _ Hx) as [->|(x' & d & He & ->)].
    + exists c, d0. split; [apply list_elem_of_here | done].
    + exists x', d. split; [by apply list_elem_of_further | done].
Qed.

(** The cells of a path found for a satisfying assignment are cells of the
    grid that the line occupies. *)
Lemma decoded_path_occupied p t s a k st en E_true dirs :
  run_encoder p = Some (t, s) ->
  sat a s ->
  (k, (st, en)) ∈ enumerate (p_lines_spec p) ->
  (forall x y d,
     (k, x, y, d) ∈ E_true <-> holds a (E_vars t) (k, x, y, d) = true) ->
  find_path_bfs k st en E_true = Some dirs ->
  forall c, c ∈ walk st dirs ->
    in_grid (p_N p) (p_M p) c = true /\
    holds a (L_vars t) (k, c.1, c.2) = true.
Proof.
  intros Hrun Hsat Hk Htrue Hfind c Hc.
  apply find_path_bfs_sound in Hfind as (_ & _ & Hedges).
  assert (Hocc : holds a (L_vars t) (k, c.1, c.2) = true).
  { destruct (walk_cells k _ _ _ Hc) as [->|(x' & d & He & ->)].
    - by destruct (continuity_holds p t s a k st en Hrun Hsat Hk) as [? _].
    - apply Hedges, Htrue in He.
      by destruct (edge_consistency_holds p t s a k x'.1 x'.2 d Hrun Hsat He)
        as (_ & ? & _). }
  split; [|done].
  apply run_encoder_inv in Hrun as (s0 & _ & _ & _ & _ & _ & Hinv & _).
  unfold holds in Hocc.
  destruct (Dict.get (L_vars t) (k, c.1, c.2)) as [l|] eqn:Hl; [|done].
  assert (Hsome : is_Some (Dict.get (L_vars t) (k, c.1, c.2))) by eauto.
  apply (inv_L _ _ _ _ _ Hinv), visited_by_all_cells in Hsome
    as (_ & Hx & Hy).
  by apply in_grid_spec.
Qed.

(** ** The turns of a decoded path *)

Lemma walk_cons c dirs : walk c dirs = c :: tail (walk c dirs).
Proof. by destruct dirs. Qed.

Lemma turns_turn_cells c dirs :
  turns dirs = Z.of_nat (length (turn_cells c dirs)).
Proof.
  revert c. induction dirs as [|d1 [|d2 rest] IH]; intros c; [done|done|].
  change (turns (d1 :: d2 :: rest))
    with ((if decide (d1 = d2) then 0 else 1) + turns (d2 :: rest)).
  change (turn_cells c (d1 :: d2 :: rest))
    with ((if decide (d1 = d2) then [] else [step c.1 c.2 d1])
          ++ turn_cells (step c.1 c.2 d1) (d2 :: rest)).
  rewrite (IH (step c.1 c.2 d1)), length_app.
  destruct (decide (d1 = d2)); simpl length; lia.
Qed.

Lemma turn_cells_sublist c dirs :
  turn_cells c dirs `sublist_of` tail (walk c dirs).
Proof.
  revert c. induction dirs as [|d1 [|d2 rest] IH]; intros c;
    [apply sublist_nil_l | apply sublist_nil_l |].
  change (turn_cells c (d1 :: d2 :: rest))
    with ((if decide (d1 = d2) then [] else [step c.1 c.2 d1])
          ++ turn_cells (step c.1 c.2 d1) (d2 :: rest)).
  change (tail (walk c (d1 :: d2 :: rest)))
    with (walk (step c.1 c.2 d1) (d2 :: rest)).
  rewrite (walk_cons (step c.1 c.2 d1)).
  destruct (decide (d1 = d2)); simpl app.
  - apply sublist_cons, IH.
  - apply sublist_skip, IH.
Qed.

(** At a cell where the walk turns, the walk arrives in one direction and
    leaves in another. *)
Lemma turn_cells_spec c dirs x :
  x ∈ turn_cells c dirs ->
  exists prev d1 d2,
    (prev, d1, x) ∈ path_steps c dirs /\
    (x, d2, step x.1 x.2 d2) ∈ path_steps c dirs /\ d1 <> d2.
Proof.
  revert c. induction dirs as [|d1 [|d2 rest] IH]; intros c Hx;
    [by apply elem_of_nil in Hx | by apply elem_of_nil in Hx |].
  change (turn_cells c (d1 :: d2 :: rest))
    with ((if decide (d1 = d2) then [] else [step c.1 c.2 d1])
          ++ turn_cells (step c.1 c.2 d1) (d2 :: rest)) in Hx.
  change (path_steps c (d1 :: d2 :: rest))
    with ((c, d1, step c.1 c.2 d1)
          :: path_steps (step c.1 c.2 d1) (d2 :: rest)).
  apply elem_of_app in Hx as [Hx|Hx].
  - destruct (decide (d1 = d2)) as [|Hne]; [by apply elem_of_nil in Hx|].
    apply list_elem_of_singleton in Hx as ->.
    exists c, d1, d2. split; [apply list_elem_of_here|]. split; [|done].
    apply list_elem_of_further. simpl. apply list_elem_of_here.
  - destruct (IH _ Hx) as (prev & e1 & e2 & H1 & H2 & Hne).
    exists prev, e1, e2. split; [by apply list_elem_of_further|].
    split; [by apply list_elem_of_further | done].
Qed.

Lemma path_steps_source c dirs x d n :
  (x, d, n) ∈ path_steps c dirs -> x ∈ walk c dirs /\ n = step x.1 x.2 d.
Proof.
  intros Hin. by apply path_steps_walk in Hin as (? & _ & ? & _).
Qed.

(** On a walk without repetition, no step leads back to where the previous
    one came from, and no step leaves the last cell. *)
Lemma path_steps_no_back c dirs x y d d' :
  NoDup (walk c dirs) ->
  (x, d, y) ∈ path_steps c dirs -> (y, d', x) ∈ path_steps c dirs -> False.
Proof.
  revert c. induction dirs as [|d0 dirs IH]; intros c Hnd H1 H2; simpl in *.
  - by apply elem_of_nil in H1.
  - apply NoDup_cons in Hnd as [Hc Hnd].
    apply elem_of_cons in H1 as [[= -> -> ->]|H1];
      apply elem_of_cons in H2 as [[= Heq _ _]|H2].
    + pose proof (walk_head (step c.1 c.2 d0) dirs) as Hh.
      rewrite Heq in Hh at 1. done.
    + apply path_steps_target in H2. by apply Hc, elem_of_tail.
    + subst y. apply path_steps_target in H1. by apply Hc, elem_of_tail.
    + by eapply IH.
Qed.

Lemma path_steps_not_last c dirs x d n :
  NoDup (walk c dirs) ->
  (x, d, n) ∈ path_steps c dirs -> last (walk c dirs) <> Some x.
Proof.
  revert c. induction dirs as [|d0 dirs IH]; intros c Hnd Hin; simpl in *.
  - by apply elem_of_nil in Hin.
  - apply NoDup_cons in Hnd as [Hc Hnd].
    rewrite last_cons.
    destruct (walk_last_is_Some (step c.1 c.2 d0) dirs) as [z Hz].
    rewrite Hz.
    apply elem_of_cons in Hin as [[= -> -> ->]|Hin].
    + intros [= ->]. apply Hc. apply last_Some in Hz as [l' ->].
      apply elem_of_app. right. apply list_elem_of_here.
    + rewrite <- Hz. by eapply IH.
Qed.

Lemma count_true_map_snd {A} a (l : list (A * Z)) :
  count_true a (map snd l)
  = Z.of_nat (length (filter (fun it : A * Z => a it.2 = true) l)).
Proof.
  induction l as [|[k v] l IH]; [done|].
  simpl map. rewrite count_true_cons, IH, filter_cons. cbn [snd].
  destruct (a v).
  - rewrite decide_True by done. rewrite length_cons. simpl Z.b2z. lia.
  - rewrite decide_False by done. simpl Z.b2z. lia.
Qed.

(** The turn variable of a cell where the decoded path turns is true. *)
Lemma turn_cell_true p t s a k st en dirs x :
  run_encoder p = Some (t, s) ->
  sat a s ->
  (k, (st, en)) ∈ enumerate (p_lines_spec p) ->
  NoDup (walk st dirs) ->
  last (walk st dirs) = Some en ->
  (forall ed, ed ∈ path_edges k st dirs -> holds a (E_vars t) ed = true) ->
  x ∈ turn_cells st dirs ->
  exists tv, Dict.get (T_vars t) (k, x.1, x.2) = Some tv /\ a tv = true.
Proof.
  intros Hrun Hsat Hk Hnd Hlast Hedges Hx.
  destruct (turn_cells_spec _ _ _ Hx) as (prev & d1 & d2 & H1 & H2 & Hne).
  pose proof (path_steps_edges k _ _ _ _ _ H1) as [He1 Hstep1].
  pose proof (path_steps_edges k _ _ _ _ _ H2) as [He2 _].
  apply Hedges in He1, He2.
  destruct (edge_consistency_holds p t s a k prev.1 prev.2 d1 Hrun Hsat He1)
    as (_ & Hocc & Hrev).
  rewrite <- Hstep1 in Hocc, Hrev.
  assert (Hst : x <> st).
  { intros ->. apply path_steps_target in H1.
    rewrite walk_cons in Hnd. apply NoDup_cons in Hnd as [Hc _]. done. }
  assert (Hen : x <> en).
  { intros ->. exact (path_steps_not_last _ _ _ _ _ Hnd H2 Hlast). }
  assert (Hback : d2 <> REV_DIRS d1).
  { intros ->. eapply (path_steps_no_back st dirs prev x); [done|exact H1|].
    pose proof (step_rev prev d1) as Hr. simpl in Hr.
    rewrite <- Hstep1 in Hr. rewrite Hr in H2. exact H2. }
  destruct (turn_variable_facts p t s a k x.1 x.2 Hrun Hsat) as [Hkey Hmean].
  assert (Hgrid : 0 <= x.1 < p_N p /\ 0 <= x.2 < p_M p).
  { pose proof Hrun as Hrun'.
    apply run_encoder_inv in Hrun' as (s0 & _ & _ & _ & _ & _ & Hinv & _).
    unfold holds in Hocc.
    destruct (Dict.get (L_vars t) (k, x.1, x.2)) as [l|] eqn:Hl; [|done].
    assert (Hsome : is_Some (Dict.get (L_vars t) (k, x.1, x.2))) by eauto.
    by apply (inv_L _ _ _ _ _ Hinv), visited_by_all_cells in Hsome
      as (_ & ? & ?). }
  destruct (proj2 Hkey) as [tv Htv].
  { exists st, en. split; [done|]. split; [done|].
    destruct x as [x1 x2]. simpl. done. }
  exists tv. split; [done|].
  apply (proj1 (Hmean tv Htv)). split; [done|].
  exists (REV_DIRS d1), d2. split; [|done].
  split; [by intros <-|].
  intros Heq. apply Hne. by destruct d1, d2.
Qed.

(** The decoded path of a line turns at most as often as the line has true
    turn variables. *)
Lemma decoded_path_turns p t s a k st en dirs :
  run_encoder p = Some (t, s) ->
  sat a s ->
  (k, (st, en)) ∈ enumerate (p_lines_spec p) ->
  NoDup (walk st dirs) ->
  last (walk st dirs) = Some en ->
  (forall ed, ed ∈ path_edges k st dirs -> holds a (E_vars t) ed = true) ->
  turns dirs <= count_true a (turn_vars_of_line (T_vars t) k).
Proof.
  intros Hrun Hsat Hk Hnd Hlast Hedges.
  rewrite (turns_turn_cells st). unfold turn_vars_of_line.
  rewrite count_true_map_snd.
  set (f := fun c : cell =>
              ((k, c.1, c.2), default 0 (Dict.get (T_vars t) (k, c.1, c.2)))).
  rewrite <- (length_map f).
  apply inj_le. apply submseteq_length. apply NoDup_submseteq.
  - apply NoDup_fmap_2.
    + intros [x y] [x' y']. unfold f. simpl. by intros [= -> ->].
    + eapply sublist_NoDup; [|apply turn_cells_sublist].
      rewrite walk_cons in Hnd. by apply NoDup_cons in Hnd as [_ ?].
  - intros it Hit. apply list_elem_of_fmap in Hit as (x & -> & Hx).
    destruct (turn_cell_true p t s a k st en dirs x Hrun Hsat Hk Hnd Hlast
                Hedges Hx) as (tv & Htv & Hav).
    unfold f. rewrite Htv. simpl.
    apply list_elem_of_filter. split; [done|].
    apply list_elem_of_filter. split; [done|].
    by apply get_Some_In.
Qed.

(** ** The decoder on a satisfying assignment *)

Lemma decode_satisfying p t s a K E_true :
  run_encoder p = Some (t, s) ->
  sat a s ->
  Z.to_nat K = length (p_lines_spec p) ->
  (forall k x y d,
     (k, x, y, d) ∈ E_true <-> holds a (E_vars t) (k, x, y, d) = true) ->
  decode K (p_lines_spec p) (SAT E_true)
  = Some (mkDecoded (map path_line (found_paths (p_lines_spec p) E_true)) 0) /\
  length (found_paths (p_lines_spec p) E_true) = length (p_lines_spec p) /\
  (forall (k : nat) st en dirs,
     p_lines_spec p !! k = Some (st, en) ->
     found_paths (p_lines_spec p) E_true !! k = Some dirs ->
     find_path_bfs (Z.of_nat k) st en E_true = Some dirs /\
     NoDup (walk st dirs) /\
     last (walk st dirs) = Some en /\
     forall c, c ∈ walk st dirs ->
       in_grid (p_N p) (p_M p) c = true /\
       holds a (L_vars t) (Z.of_nat k, c.1, c.2) = true) /\
  (forall (k1 k2 : nat) ln1 ln2 dirs1 dirs2 c,
     k1 <> k2 ->
     p_lines_spec p !! k1 = Some ln1 -> p_lines_spec p !! k2 = Some ln2 ->
     found_paths (p_lines_spec p) E_true !! k1 = Some dirs1 ->
     found_paths (p_lines_spec p) E_true !! k2 = Some dirs2 ->
     c ∈ walk ln1.1 dirs1 -> c ∉ walk ln2.1 dirs2).
Proof.
  intros Hrun Hsat HK Htrue.
  assert (Hline : forall (k : nat) st en,
            p_lines_spec p !! k = Some (st, en) ->
            (Z.of_nat k, (st, en)) ∈ enumerate (p_lines_spec p)).
  { intros k st en Hk. apply elem_of_enumerate. eauto. }
  assert (Hsome : forall (k : nat) st en,
            p_lines_spec p !! k = Some (st, en) ->
            is_Some (find_path_bfs (Z.of_nat k) st en E_true)).
  { intros k st en Hk.
    eapply satisfying_assignment_connects; [done|done|by apply Hline|].
    intros x y d. apply Htrue. }
  assert (Hpath : forall (k : nat) st en dirs,
     p_lines_spec p !! k = Some (st, en) ->
     found_paths (p_lines_spec p) E_true !! k = Some dirs ->
     find_path_bfs (Z.of_nat k) st en E_true = Some dirs /\
     NoDup (walk st dirs) /\
     last (walk st dirs) = Some en /\
     forall c, c ∈ walk st dirs ->
       in_grid (p_N p) (p_M p) c = true /\
       holds a (L_vars t) (Z.of_nat k, c.1, c.2) = true).
  { intros k st en dirs Hk Hd.
    pose proof (found_paths_lookup _ _ _ _ _ _ Hk Hd (Hsome _ _ _ Hk))
      as Hfind.
    split; [done|].
    destruct (find_path_bfs_sound _ _ _ _ _ Hfind) as (Hnd & Hlast & _).
    split; [done|]. split; [done|].
    eapply decoded_path_occupied; [done|done|by apply Hline| |done].
    intros x y d. apply Htrue. }
  split; [by apply decode_found_paths|].
  split; [unfold found_paths; by rewrite length_imap|].
  split; [done|].
  intros k1 k2 [st1 en1] [st2 en2] dirs1 dirs2 c Hne Hk1 Hk2 Hd1 Hd2 Hc1 Hc2.
  destruct (Hpath _ _ _ _ Hk1 Hd1) as (_ & _ & _ & Hocc1).
  destruct (Hpath _ _ _ _ Hk2 Hd2) as (_ & _ & _ & Hocc2).
  destruct (Hocc1 c Hc1) as [_ H1]. destruct (Hocc2 c Hc2) as [_ H2].
  rewrite (unique_occupancy_holds p t s a (Z.of_nat k1) (Z.of_nat k2)
             c.1 c.2 Hrun Hsat) in H2; [done|lia|done].
Qed.

(** X14.  Run on the true edge variables of any satisfying assignment of the
    emitted clauses, the decoder finds a path for every line and writes one
    line of direction tokens per line; the path of line k walks from its
    start to its end without meeting a cell twice, stays on cells of the grid
    that line k occupies in the assignment, and the paths of two different
    lines share no cell. *)
Theorem decode_satisfying_assignment (p : problem) (t : tables) (s : state)
    (a : assignment) (K : Z) (E_true : list edge) :
  run_encoder p = Some (t, s) ->
  cnf_sat a (clauses s) = true ->
  Z.to_nat K = length (p_lines_spec p) ->
  (forall k x y d,
     (k, x, y, d) ∈ E_true <-> holds a (E_vars t) (k, x, y, d) = true) ->
  decode K (p_lines_spec p) (SAT E_true)
  = Some (mkDecoded (map path_line (found_paths (p_lines_spec p) E_true)) 0) /\
  length (found_paths (p_lines_spec p) E_true) = length (p_lines_spec p) /\
  (forall (k : nat) st en dirs,
     p_lines_spec p !! k = Some (st, en) ->
     found_paths (p_lines_spec p) E_true !! k = Some dirs ->
     find_path_bfs (Z.of_nat k) st en E_true = Some dirs /\
     NoDup (walk st dirs) /\
     last (walk st dirs) = Some en /\
     forall c, c ∈ walk st dirs ->
       in_grid (p_N p) (p_M p) c = true /\
       holds a (L_vars t) (Z.of_nat k, c.1, c.2) = true) /\
  (forall (k1 k2 : nat) ln1 ln2 dirs1 dirs2 c,
     k1 <> k2 ->
     p_lines_spec p !! k1 = Some ln1 -> p_lines_spec p !! k2 = Some ln2 ->
     found_paths (p_lines_spec p) E_true !! k1 = Some dirs1 ->
     found_paths (p_lines_spec p) E_true !! k2 = Some dirs2 ->
     c ∈ walk ln1.1 dirs1 -> c ∉ walk ln2.1 dirs2).
Proof. apply decode_satisfying. Qed.

Lemma decode_satisfying_assignment_witness :
  decode 2 (p_lines_spec two_lines)
         (SAT (true_keys two_lines_assignment
                         (E_vars (final_tables two_lines))))
  = Some (mkDecoded
            (map path_line
               (found_paths (p_lines_spec two_lines)
                  (true_keys two_lines_assignment
                             (E_vars (final_tables two_lines))))) 0).
Proof.
  exact (proj1 (decode_satisfying_assignment two_lines
                  (final_tables two_lines) (final_state two_lines)
                  two_lines_assignment 2
                  (true_keys two_lines_assignment
                             (E_vars (final_tables two_lines)))
                  ltac:(vm_compute; reflexivity)
                  ltac:(vm_compute; reflexivity)
                  ltac:(reflexivity)
                  (fun k x y d =>
                     elem_of_true_keys two_lines_assignment
                       (E_vars (final_tables two_lines)) (k, x, y, d)))).
Defined.

Lemma decoded_turns_bounded p t s a k st en E_true dirs :
  run_encoder p = Some (t, s) ->
  sat a s ->
  0 <= p_J p ->
  (k, (st, en)) ∈ enumerate (p_lines_spec p) ->
  (forall x y d,
     (k, x, y, d) ∈ E_true <-> holds a (E_vars t) (k, x, y, d) = true) ->
  find_path_bfs k st en E_true = Some dirs ->
  turns dirs <= p_J p.
Proof.
  intros Hrun Hsat HJ Hk Htrue Hfind.
  destruct (find_path_bfs_sound _ _ _ _ _ Hfind) as (Hnd & Hlast & Hedges).
  etransitivity; [|by eapply turn_budget_holds].
  eapply decoded_path_turns; [done|done|done|done|done|].
  intros [[[k' x] y] d] Hed. pose proof (Hedges _ Hed) as Hin.
  assert (k' = k) as ->.
  { clear -Hed. revert st Hed. induction dirs as [|d0 dirs IH]; intros st Hed;
      simpl in Hed; [by apply elem_of_nil in Hed|].
    apply elem_of_cons in Hed as [[= -> _ _ _]|Hed]; [done | by eapply IH]. }
  by apply Htrue.
Qed.

(** X15.  The path that the decoder finds for line k in a satisfying
    assignment of the clauses emitted for a turn budget J >= 0 changes
    direction at most J times. *)
Theorem decoded_path_within_turn_budget (p : problem) (t : tables)
    (s : state) (a : assignment) (k : Z) (st en : cell)
    (E_true : list edge) (dirs : list Dir) :
  run_encoder p = Some (t, s) ->
  cnf_sat a (clauses s) = true ->
  0 <= p_J p ->
  (k, (st, en)) ∈ enumerate (p_lines_spec p) ->
  (forall x y d,
     (k, x, y, d) ∈ E_true <-> holds a (E_vars t) (k, x, y, d) = true) ->
  find_path_bfs k st en E_true = Some dirs ->
  turns dirs <= p_J p.
Proof. apply decoded_turns_bounded. Qed.

Lemma decoded_path_within_turn_budget_witness :
  turns [DirR; DirR] <= p_J straight_line.
Proof.
  exact (decoded_path_within_turn_budget straight_line
           (final_tables straight_line) (final_state straight_line)
           straight_assignment 0 (0, 0) (2, 0)
           (true_keys straight_assignment
                      (E_vars (final_tables straight_line)))
           [DirR; DirR]
           ltac:(vm_compute; reflexivity)
           ltac:(vm_compute; reflexivity)
           ltac:(vm_compute; discriminate)
           ltac:(apply list_elem_of_here)
           (fun x y d =>
              elem_of_true_keys straight_assignment
                (E_vars (final_tables straight_line)) (0, x, y, d))
           ltac:(vm_compute; reflexivity)).
Defined.

(* ================================================================== *)
(** * The emitted clauses are well-formed *)

Lemma known_range s v : wf s -> known s v -> 1 <= v < next_var s.
Proof. intros Hwf [name Hn]. by eapply wf_range. Qed.

Lemma known_ext s s' v : ext s s' -> known s v -> known s' v.
Proof. intros Hext [name Hn]. exists name. by eapply ext_var. Qed.

Lemma lit_pos s v : known s v -> lit_known s v.
Proof. by left. Qed.

Lemma lit_neg s v : known s v -> lit_known s (- v).
Proof. right. by rewrite Z.opp_involutive. Qed.

Lemma clause_of_known s c :
  wf s -> c <> [] -> Forall (lit_known s) c ->
  clause_ok (Z.max 2 (next_var s)) c.
Proof.
  intros Hwf Hne Hall. split; [done|].
  eapply Forall_impl; [exact Hall|]. intros l [Hl|Hl];
    apply (known_range _ _ Hwf) in Hl; lia.
Qed.

Lemma clause_ok_mono b b' c : b <= b' -> clause_ok b c -> clause_ok b' c.
Proof.
  intros Hb [Hne Hall]. split; [done|].
  eapply Forall_impl; [exact Hall|]. intros l Hl. simpl in Hl. lia.
Qed.

Lemma ext_next_var s s' : ext s s' -> wf s -> next_var s <= next_var s'.
Proof.
  intros Hext Hwf. pose proof (ext_wf _ _ Hext Hwf) as Hwf'.
  destruct (decide (next_var s <= next_var s')) as [|Hgt]; [done|].
  destruct (wf_dense _ Hwf (next_var s - 1)) as [name Hn].
  { pose proof (wf_next _ Hwf'). lia. }
  apply (ext_var _ _ _ _ Hext) in Hn. apply (wf_range _ Hwf') in Hn. lia.
Qed.

(** Splits a clause into its literals, each to be shown known. *)
Ltac lits :=
  repeat first [apply Forall_nil_2 | apply Forall_cons_2];
  try first [apply lit_neg | apply lit_pos].

Section Literals.
Variable b : state.

Lemma inv_lits_known s v : inv_lits b s -> known b v -> known s v.
Proof. intros (_ & Hext & _). by apply known_ext. Qed.

Lemma inv_lits_add_clause s c u s' :
  inv_lits b s -> clause_ok (Z.max 2 (next_var s)) c ->
  add_clause c s = Some (u, s') -> inv_lits b s'.
Proof.
  intros (Hwf & Hext & Hok) Hc Hrun.
  pose proof (add_clause_ext _ _ _ _ Hrun) as Hstep.
  apply add_clause_inv in Hrun as (Hcl & Hnv & _).
  split; [by eapply ext_wf|]. split; [by eapply ext_trans|].
  unfold lits_ok. rewrite Hcl, Hnv. apply Forall_app. split; [done|].
  by constructor.
Qed.

Lemma inv_lits_add_known s c u s' :
  inv_lits b s -> c <> [] -> Forall (lit_known s) c ->
  add_clause c s = Some (u, s') -> inv_lits b s'.
Proof.
  intros HJ Hne Hall. apply inv_lits_add_clause; [done|].
  apply clause_of_known; [by destruct HJ|done|done].
Qed.

Lemma inv_lits_for_each {A} (l : list A) (body : A -> Enc unit) s u s' :
  (forall x s1 u1 s2,
     x ∈ l -> inv_lits b s1 -> body x s1 = Some (u1, s2) -> inv_lits b s2) ->
  inv_lits b s -> for_each l body s = Some (u, s') -> inv_lits b s'.
Proof.
  revert s. induction l as [|x l IH]; intros s Hbody HJ Hrun; simpl in Hrun.
  - by apply ret_inv in Hrun as [_ ->].
  - apply bind_inv in Hrun as (u1 & s1 & H1 & H2).
    apply (IH s1); [|by eapply Hbody; [apply list_elem_of_here|..]|done].
    intros y sa ua sb Hy. apply Hbody. by apply list_elem_of_further.
Qed.

Lemma inv_lits_foldM {A B} (body : A -> B -> Enc B) (l : list A) acc s r s' :
  (forall x acc1 s1 acc2 s2,
     x ∈ l -> inv_lits b s1 -> body x acc1 s1 = Some (acc2, s2) ->
     inv_lits b s2) ->
  inv_lits b s -> foldM body l acc s = Some (r, s') -> inv_lits b s'.
Proof.
  revert acc s. induction l as [|x l IH]; intros acc s Hbody HJ Hrun;
    simpl in Hrun.
  - by apply ret_inv in Hrun as [_ ->].
  - apply bind_inv in Hrun as (acc1 & s1 & H1 & H2).
    apply (IH acc1 s1); [|by eapply Hbody; [apply list_elem_of_here|..]|done].
    intros y aa sa ab sb Hy. apply Hbody. by apply list_elem_of_further.
Qed.

Lemma inv_lits_new_var name s v s' :
  inv_lits b s -> new_var name s = Some (v, s') ->
  inv_lits b s' /\ known s' v.
Proof.
  intros (Hwf & Hext & Hok) Hrun.
  pose proof (new_var_ext _ _ _ _ Hrun) as Hstep.
  split; [|exists name; by eapply new_var_get].
  split; [by eapply ext_wf|]. split; [by eapply ext_trans|].
  pose proof (ext_next_var _ _ Hstep Hwf) as Hle.
  assert (Hcl : clauses s' = clauses s).
  { unfold new_var in Hrun.
    destruct (Dict.get (var_to_id s) name); by injection Hrun as <- <-. }
  unfold lits_ok. rewrite Hcl.
  eapply Forall_impl; [exact Hok|]. intros c. apply clause_ok_mono. lia.
Qed.

Lemma inv_lits_mapM {A B} (f : A -> Enc B) (R : B -> state -> Prop) l s r s' :
  (forall y s1 s2, R y s1 -> ext s1 s2 -> R y s2) ->
  (forall x, Mono (f x)) ->
  (forall x s1 y s2,
     inv_lits b s1 -> f x s1 = Some (y, s2) -> inv_lits b s2 /\ R y s2) ->
  inv_lits b s -> mapM f l s = Some (r, s') ->
  inv_lits b s' /\ Forall (fun y => R y s') r.
Proof.
  intros Hpers Hmono Hf. revert s r.
  induction l as [|x l IH]; intros s r HJ Hrun; simpl in Hrun.
  - apply ret_inv in Hrun as [-> ->]. by split.
  - apply bind_inv in Hrun as (y & s1 & Hy & Hrun).
    apply bind_inv in Hrun as (ys & s2 & Hys & Hrun).
    apply ret_inv in Hrun as [-> ->].
    destruct (Hf _ _ _ _ HJ Hy) as [HJ1 HR].
    destruct (IH _ _ HJ1 Hys) as [HJ2 Hall].
    split; [done|]. constructor; [|done].
    eapply Hpers; [exact HR|]. by eapply (Mono_mapM f l Hmono).
Qed.

Lemma index_pairs_elem {A} (l : list A) (x y : A) :
  (x, y) ∈ index_pairs l -> x ∈ l /\ y ∈ l.
Proof.
  induction l as [|z l IH]; simpl; intros Hin;
    [by apply elem_of_nil in Hin|].
  apply elem_of_app in Hin as [Hin|Hin].
  - apply list_elem_of_fmap in Hin as (w & [= -> ->] & Hw).
    split; [apply list_elem_of_here | by apply list_elem_of_further].
  - destruct (IH Hin). split; by apply list_elem_of_further.
Qed.

Lemma inv_lits_at_most_one l s u s' :
  inv_lits b s -> Forall (known b) l ->
  at_most_one l s = Some (u, s') -> inv_lits b s'.
Proof.
  intros HJ Hl Hrun. unfold at_most_one in Hrun.
  eapply inv_lits_for_each; [|exact HJ|exact Hrun].
  intros [vi vj] s1 u1 s2 Hin HJ1 Hc.
  destruct (index_pairs_elem _ _ _ Hin) as [Hvi Hvj].
  eapply inv_lits_add_known; [exact HJ1| | |exact Hc]; [done|].
  lits; (eapply inv_lits_known; [done|]);
    by eapply (proj1 (Forall_forall _ _) Hl).
Qed.

Lemma inv_lits_exactly_k l_var e_vars k s u s' :
  inv_lits b s -> known b l_var -> Forall (known b) e_vars ->
  exactly_k_if_L l_var e_vars k s = Some (u, s') -> inv_lits b s'.
Proof.
  intros HJ Hl Hes Hrun. unfold exactly_k_if_L in Hrun.
  apply bind_inv in Hrun as ([] & s1 & Hmost & Hleast).
  assert (Hsub : forall sub r v sa,
            inv_lits b sa -> sub ∈ comb e_vars r -> v ∈ sub -> known sa v).
  { intros sub r v sa HJa Hin Hv. eapply inv_lits_known; [done|].
    eapply (proj1 (Forall_forall _ _) Hes). by eapply comb_elem. }
  assert (HJ1 : inv_lits b s1).
  { destruct (decide (Z.of_nat (length e_vars) > k)).
    - apply bind_inv in Hmost as (subsets & sa & Hc & Hloop).
      apply lift_inv in Hc as [Hc ->]. unfold combinations in Hc.
      destruct (decide (k + 1 < 0)); [done|]. injection Hc as <-.
      eapply inv_lits_for_each; [|exact HJ|exact Hloop].
      intros sub sa ua sb Hin HJa Hadd.
      eapply inv_lits_add_known; [exact HJa| | |exact Hadd]; [done|].
      apply Forall_cons_2; [by apply lit_neg, (inv_lits_known sa)|].
      apply Forall_fmap, Forall_forall. intros v Hv. simpl.
      apply lit_neg. by eapply Hsub.
    - by apply ret_inv in Hmost as [_ ->]. }
  destruct (decide (k > 0)).
  - apply bind_inv in Hleast as (subsets & sa & Hc & Hloop).
    apply lift_inv in Hc as [Hc ->]. unfold combinations in Hc.
    destruct (decide (Z.of_nat (length e_vars) - k + 1 < 0)); [done|].
    injection Hc as <-.
    eapply inv_lits_for_each; [|exact HJ1|exact Hloop].
    intros sub sa ua sb Hin HJa Hadd.
    eapply inv_lits_add_known; [exact HJa| | |exact Hadd]; [done|].
    apply Forall_cons_2; [by apply lit_neg, (inv_lits_known sa)|].
    apply Forall_forall. intros v Hv. apply lit_pos. by eapply Hsub.
  - by apply ret_inv in Hleast as [_ ->].
Qed.
End Literals.

(** ** The tables list each key once *)

Lemma define_edges_NoDup N M k x y ds : forall t s t' s',
  define_edges N M k x y ds t s = Some (t', s') ->
  NoDup (Dict.keys (E_vars t)) -> NoDup (Dict.keys (E_vars t')).
Proof.
  induction ds as [|d ds IH]; intros t s t' s' Hrun Hnd; simpl in Hrun.
  - by apply ret_inv in Hrun as [-> ->].
  - apply bind_inv in Hrun as (t1 & s1 & Hstep & Hrest).
    apply (IH _ _ _ _ Hrest).
    destruct (in_grid N M (step x y d)).
    + apply bind_inv in Hstep as (e & s2 & _ & Hret).
      apply ret_inv in Hret as [-> ->]. simpl. by apply set_NoDup.
    + by apply ret_inv in Hstep as [-> ->].
Qed.

Lemma define_cell_NoDup N M k st en x y t s t' s' :
  define_cell N M k st en x y t s = Some (t', s') ->
  NoDup (Dict.keys (E_vars t)) /\ NoDup (Dict.keys (cells_lines t)) ->
  NoDup (Dict.keys (E_vars t')) /\ NoDup (Dict.keys (cells_lines t')).
Proof.
  unfold define_cell. intros Hrun [HndE Hndc].
  apply bind_inv in Hrun as (l & s1 & Hl & Hrun).
  apply bind_inv in Hrun as (t2 & s2 & Ht & Hrun).
  apply bind_inv in Hrun as (sv & s3 & Hs & Hrun).
  change (define_edges N M k x y DIRS_LIST
            (set_S t2 (k, x, y) sv) s3 = Some (t', s')) in Hrun.
  pose proof (define_edges_NoDup _ _ _ _ _ _ _ _ _ _ Hrun) as HE.
  apply define_edges_spec in Hrun as (_ & _ & _ & Hcl & _). rewrite Hcl.
  simpl in HE |- *.
  destruct (decide ((x, y) <> st /\ (x, y) <> en)).
  - apply bind_inv in Ht as (tv & s0 & _ & Hret).
    apply ret_inv in Hret as [-> ->]. simpl in *.
    split; [by apply HE | by apply set_NoDup].
  - apply ret_inv in Ht as [-> ->]. simpl in *.
    split; [by apply HE | by apply set_NoDup].
Qed.

Lemma define_variables_NoDup N M lines_spec s t s' :
  define_variables N M lines_spec s = Some (t, s') ->
  NoDup (Dict.keys (E_vars t)) /\ NoDup (Dict.keys (cells_lines t)).
Proof.
  rewrite define_variables_flat. intros Hrun.
  eapply (foldM_progress _
            (fun _ t _ => NoDup (Dict.keys (E_vars t)) /\
                          NoDup (Dict.keys (cells_lines t))));
    [| |exact Hrun]; [|simpl; split; apply NoDup_nil_2].
  intros done it rest b s0 b' s0' _ Hnd Hstep. simpl in *.
  by eapply define_cell_NoDup.
Qed.

(** ** Every stage emits well-formed clauses *)

Section StageLiterals.
Context (N M : Z) (lines_spec : list (cell * cell)) (t : tables) (b : state).
Hypothesis Hinv : tables_inv N M (all_cells N M lines_spec) t b.
Hypothesis HndE : NoDup (Dict.keys (E_vars t)).
Hypothesis HndT : NoDup (Dict.keys (T_vars t)).
Hypothesis Hndc : NoDup (Dict.keys (cells_lines t)).

Lemma L_known k x y v : Dict.get (L_vars t) (k, x, y) = Some v -> known b v.
Proof. intros Hg. eexists. by eapply (inv_nL _ _ _ _ _ Hinv). Qed.

Lemma S_known k x y v : Dict.get (S_vars t) (k, x, y) = Some v -> known b v.
Proof. intros Hg. eexists. by eapply (inv_nS _ _ _ _ _ Hinv). Qed.

Lemma T_known k x y v : Dict.get (T_vars t) (k, x, y) = Some v -> known b v.
Proof. intros Hg. eexists. by eapply (inv_nT _ _ _ _ _ Hinv). Qed.

Lemma E_known k x y d v :
  Dict.get (E_vars t) (k, x, y, d) = Some v -> known b v.
Proof. intros Hg. eexists. by eapply (inv_nE _ _ _ _ _ Hinv). Qed.

Lemma cells_lines_known c v :
  v ∈ default [] (Dict.get (cells_lines t) c) -> known b v.
Proof.
  intros (k & _ & Hg)%(inv_cl _ _ _ _ _ Hinv). by eexists.
Qed.

Lemma truthy_Some o : truthy o = true -> exists v, o = Some v.
Proof. destruct o; [eauto | done]. Qed.

Lemma inv_lits_unique_occupancy s u s' :
  inv_lits b s ->
  enforce_unique_occupancy (cells_lines t) s = Some (u, s') ->
  inv_lits b s'.
Proof.
  intros HJ Hrun. unfold enforce_unique_occupancy in Hrun.
  eapply inv_lits_for_each; [|exact HJ|exact Hrun].
  intros [c vids] s1 u1 s2 Hin HJ1 Hbody. simpl in Hbody.
  case_decide; [|by apply ret_inv in Hbody as [_ ->]].
  eapply inv_lits_at_most_one; [exact HJ1| |exact Hbody].
  apply Forall_forall. intros v Hv. apply (cells_lines_known c).
  unfold Dict.items in Hin.
  apply NoDup_keys_In_get in Hin; [|done]. by rewrite Hin.
Qed.

Lemma inv_lits_edge_location s u s' :
  inv_lits b s ->
  enforce_edge_location_consistency (E_vars t) (L_vars t) s = Some (u, s') ->
  inv_lits b s'.
Proof.
  intros HJ Hrun. unfold enforce_edge_location_consistency in Hrun.
  eapply inv_lits_for_each; [|exact HJ|exact Hrun].
  intros [[[[k x] y] d] evid] s1 u1 s2 Hin HJ1 Hbody.
  unfold Dict.items in Hin. apply NoDup_keys_In_get in Hin; [|done].
  pose proof (E_known _ _ _ _ _ Hin) as He.
  cbv beta iota in Hbody.
  apply bind_inv in Hbody as (loc & s3 & Hgl & Hbody).
  apply lift_inv in Hgl as [Hgl ->].
  destruct (step x y d) as [nx ny] eqn:Hstep.
  apply bind_inv in Hbody as ([] & s4 & Hc1 & Hbody).
  apply bind_inv in Hbody as ([] & s5 & Hc2 & Hbody).
  apply bind_inv in Hc2 as (ln & s6 & Hgn & Hc2).
  apply lift_inv in Hgn as [Hgn ->].
  assert (HJ4 : inv_lits b s4).
  { eapply inv_lits_add_known; [exact HJ1| | |exact Hc1]; [done|].
    lits; (eapply inv_lits_known; [done|]); [done | by eapply L_known]. }
  assert (HJ5 : inv_lits b s5).
  { eapply inv_lits_add_known; [exact HJ4| | |exact Hc2]; [done|].
    lits; (eapply inv_lits_known; [done|]); [done | by eapply L_known]. }
  destruct (truthy (Dict.get (E_vars t) (k, nx, ny, REV_DIRS d))) eqn:Htr.
  - apply truthy_Some in Htr as [r Hr]. rewrite Hr in Hbody.
    apply bind_inv in Hbody as (r' & s6 & Hret & Hbody).
    apply ret_inv in Hret as [-> ->].
    apply bind_inv in Hbody as ([] & s7 & Hc3 & Hc4).
    pose proof (E_known _ _ _ _ _ Hr) as Hrk.
    assert (HJ7 : inv_lits b s7).
    { eapply inv_lits_add_known; [exact HJ5| | |exact Hc3]; [done|].
      lits; by eapply inv_lits_known. }
    eapply inv_lits_add_known; [exact HJ7| | |exact Hc4]; [done|].
    lits; by eapply inv_lits_known.
  - eapply inv_lits_add_known; [exact HJ5| | |exact Hbody]; [done|].
    lits; by eapply inv_lits_known.
Qed.

Lemma incident_known k x y : Forall (known b) (incident (E_vars t) k x y).
Proof.
  apply Forall_forall. intros v Hv. unfold incident in Hv.
  apply list_elem_of_omap in Hv as (d & _ & Hd). by eapply E_known.
Qed.

Lemma inv_lits_continuity_cell k st en x y s u s' :
  inv_lits b s ->
  continuity_cell (L_vars t) (E_vars t) k st en x y s = Some (u, s') ->
  inv_lits b s'.
Proof.
  intros HJ Hrun. unfold continuity_cell in Hrun.
  destruct (truthy (Dict.get (L_vars t) (k, x, y))) eqn:Htr; simpl in Hrun;
    [|by apply ret_inv in Hrun as [_ ->]].
  apply truthy_Some in Htr as [l Hl]. rewrite Hl in Hrun.
  apply bind_inv in Hrun as (l' & s1 & Hret & Hrun).
  apply ret_inv in Hret as [-> ->].
  pose proof (L_known _ _ _ _ Hl) as Hlk.
  case_decide.
  - eapply inv_lits_exactly_k; [exact HJ|done|apply incident_known|exact Hrun].
  - apply bind_inv in Hrun as ([] & s2 & Hex & Hloop).
    assert (HJ2 : inv_lits b s2).
    { eapply inv_lits_exactly_k;
        [exact HJ|done|apply incident_known|exact Hex]. }
    eapply inv_lits_for_each; [|exact HJ2|exact Hloop].
    intros evid sa ua sb Hin HJa Hadd.
    eapply inv_lits_add_known; [exact HJa| | |exact Hadd]; [done|].
    lits; (eapply inv_lits_known; [done|]); [done|].
    by eapply (proj1 (Forall_forall _ _) (incident_known k x y)).
Qed.

Lemma inv_lits_path_continuity s u s' :
  inv_lits b s ->
  enforce_path_continuity lines_spec (L_vars t) (E_vars t) N M s
  = Some (u, s') ->
  inv_lits b s'.
Proof.
  intros HJ Hrun. unfold enforce_path_continuity in Hrun.
  eapply inv_lits_for_each; [|exact HJ|exact Hrun].
  intros [k [st en]] s1 u1 s2 Hin HJ1 Hbody.
  apply bind_inv in Hbody as ([] & s3 & Hst & Hbody).
  apply bind_inv in Hbody as ([] & s4 & Hen & Hbody).
  apply bind_inv in Hst as (ls & s5 & Hgs & Hcs).
  apply lift_inv in Hgs as [Hgs ->].
  apply bind_inv in Hen as (le & s6 & Hge & Hce).
  apply lift_inv in Hge as [Hge ->].
  assert (HJ3 : inv_lits b s3).
  { eapply inv_lits_add_known; [exact HJ1| | |exact Hcs]; [done|].
    lits. eapply inv_lits_known; [done|]. by eapply L_known. }
  assert (HJ4 : inv_lits b s4).
  { eapply inv_lits_add_known; [exact HJ3| | |exact Hce]; [done|].
    lits. eapply inv_lits_known; [done|]. by eapply L_known. }
  eapply inv_lits_for_each; [|exact HJ4|exact Hbody].
  intros x sa ua sb _ HJa Hrow.
  eapply inv_lits_for_each; [|exact HJa|exact Hrow].
  intros y sc uc sd _ HJc Hcell. by eapply inv_lits_continuity_cell.
Qed.

Lemma inv_lits_popular mode popular s u s' :
  inv_lits b s ->
  enforce_popular_cell_constraint mode popular (cells_lines t) s
  = Some (u, s') ->
  inv_lits b s'.
Proof.
  intros HJ Hrun. unfold enforce_popular_cell_constraint in Hrun.
  case_decide; [by apply ret_inv in Hrun as [_ ->]|].
  eapply inv_lits_for_each; [|exact HJ|exact Hrun].
  intros pc s1 u1 s2 _ HJ1 Hbody. simpl in Hbody.
  case_decide as Hne.
  - eapply inv_lits_add_known; [exact HJ1| | |exact Hbody]; [done|].
    apply Forall_forall. intros v Hv. apply lit_pos.
    eapply inv_lits_known; [done|]. by eapply cells_lines_known.
  - apply bind_inv in Hbody as ([] & s3 & Hc1 & Hc2).
    assert (HJ3 : inv_lits b s3).
    { eapply inv_lits_add_clause; [exact HJ1| |exact Hc1].
      split; [done|]. repeat constructor; lia. }
    eapply inv_lits_add_clause; [exact HJ3| |exact Hc2].
    split; [done|]. repeat constructor; lia.
Qed.

Lemma inv_lits_connectivity_step k x y d s u s' :
  inv_lits b s ->
  connectivity_step (S_vars t) (E_vars t) k x y d s = Some (u, s') ->
  inv_lits b s'.
Proof.
  intros HJ Hrun. unfold connectivity_step in Hrun.
  destruct (truthy (Dict.get (E_vars t) (k, x, y, d))) eqn:Htr;
    [|by apply ret_inv in Hrun as [_ ->]].
  apply truthy_Some in Htr as [e He]. rewrite He in Hrun.
  apply bind_inv in Hrun as (e' & s1 & Hret & Hrun).
  apply ret_inv in Hret as [-> ->].
  destruct (step x y d) as [nx ny] eqn:Hstep.
  apply bind_inv in Hrun as (sv & s2 & Hgs & Hrun).
  apply lift_inv in Hgs as [Hgs ->].
  apply bind_inv in Hrun as (sn & s3 & Hgn & Hrun).
  apply lift_inv in Hgn as [Hgn ->].
  eapply inv_lits_add_known; [exact HJ| | |exact Hrun]; [done|].
  lits; (eapply inv_lits_known; [done|]);
    [by eapply S_known | by eapply E_known | by eapply S_known].
Qed.

Lemma inv_lits_path_connectivity s u s' :
  inv_lits b s ->
  enforce_path_connectivity lines_spec (S_vars t) (E_vars t) (L_vars t) N M s
  = Some (u, s') ->
  inv_lits b s'.
Proof.
  intros HJ Hrun. unfold enforce_path_connectivity in Hrun.
  eapply inv_lits_for_each; [|exact HJ|exact Hrun].
  intros [k [st en]] s1 u1 s2 Hin HJ1 Hbody.
  apply bind_inv in Hbody as ([] & s3 & Hst & Hbody).
  apply bind_inv in Hbody as ([] & s4 & Hsteps & Hocc).
  apply bind_inv in Hst as (s0v & s5 & Hg0 & Hc0).
  apply lift_inv in Hg0 as [Hg0 ->].
  assert (HJ3 : inv_lits b s3).
  { eapply inv_lits_add_known; [exact HJ1| | |exact Hc0]; [done|].
    lits. eapply inv_lits_known; [done|]. by eapply S_known. }
  assert (HJ4 : inv_lits b s4).
  { eapply inv_lits_for_each; [|exact HJ3|exact Hsteps].
    intros x sa ua sb _ HJa Hrow.
    eapply inv_lits_for_each; [|exact HJa|exact Hrow].
    intros y sc uc sd _ HJc Hdirs.
    eapply inv_lits_for_each; [|exact HJc|exact Hdirs].
    intros d se ue sf _ HJe Hstep. by eapply inv_lits_connectivity_step. }
  eapply inv_lits_for_each; [|exact HJ4|exact Hocc].
  intros x sa ua sb _ HJa Hrow.
  eapply inv_lits_for_each; [|exact HJa|exact Hrow].
  intros y sc uc sd _ HJc Hcell.
  apply bind_inv in Hcell as (l & s6 & Hgl & Hcell).
  apply lift_inv in Hgl as [Hgl ->].
  apply bind_inv in Hcell as (sv & s7 & Hgs & Hcell).
  apply lift_inv in Hgs as [Hgs ->].
  eapply inv_lits_add_known; [exact HJc| | |exact Hcell]; [done|].
  lits; (eapply inv_lits_known; [done|]);
    [by eapply L_known | by eapply S_known].
Qed.
End StageLiterals.

Lemma inv_lits_rebase b s : inv_lits b s -> inv_lits s s.
Proof. intros (Hwf & _ & Hok). split; [done|]. split; [apply ext_refl|done]. Qed.

Lemma inv_lits_trans b b' s : ext b b' -> inv_lits b' s -> inv_lits b s.
Proof.
  intros Hext (Hwf & Hext' & Hok). split; [done|].
  split; [by eapply ext_trans | done].
Qed.

Section CounterLiterals.
Context (b : state) (vars : list Z) (mtx : list (list Z)).
Hypothesis Hvars : Forall (known b) vars.
Hypothesis Hmtx : Forall (Forall (known b)) mtx.

Lemma var_known i x : py_index vars i = Some x -> known b x.
Proof.
  intros Hx%py_index_elem. by eapply (proj1 (Forall_forall _ _) Hvars).
Qed.

Lemma cell_known i j s v s' :
  cell_of mtx i j s = Some (v, s') -> s' = s /\ known b v.
Proof.
  intros (-> & _ & row & Hrow & Hv)%cell_of_inv. split; [done|].
  eapply (proj1 (Forall_forall _ _)); [|exact Hv].
  by eapply (proj1 (Forall_forall _ _) Hmtx).
Qed.

Lemma inv_lits_initialize k s u s' :
  inv_lits b s ->
  _initialize_base_constraints vars mtx k s = Some (u, s') ->
  inv_lits b s'.
Proof.
  intros HJ Hrun. unfold _initialize_base_constraints in Hrun.
  apply bind_inv in Hrun as (x0 & s1 & Hx0 & Hrun).
  apply lift_inv in Hx0 as [Hx0%var_known ->].
  apply bind_inv in Hrun as (s00 & s2 & Hc & Hrun).
  apply cell_known in Hc as [-> Hc].
  apply bind_inv in Hrun as ([] & s3 & Hadd & Hloop).
  assert (HJ3 : inv_lits b s3).
  { eapply inv_lits_add_known; [exact HJ| | |exact Hadd]; [done|].
    lits; by eapply inv_lits_known. }
  eapply inv_lits_for_each; [|exact HJ3|exact Hloop].
  intros j sa ua sb _ HJa Hbody.
  apply bind_inv in Hbody as (s0j & s4 & Hc' & Hadd').
  apply cell_known in Hc' as [-> Hc'].
  eapply inv_lits_add_known; [exact HJa| | |exact Hadd']; [done|].
  lits; by eapply inv_lits_known.
Qed.

Lemma inv_lits_propagate i k s u s' :
  inv_lits b s ->
  _propagate_constraints i vars mtx k s = Some (u, s') ->
  inv_lits b s'.
Proof.
  intros HJ Hrun. unfold _propagate_constraints in Hrun.
  apply bind_inv in Hrun as ([] & s1 & Hkeep & Hrun).
  apply bind_inv in Hrun as ([] & s2 & Hfirst & Hsum).
  assert (HJ1 : inv_lits b s1).
  { eapply inv_lits_for_each; [|exact HJ|exact Hkeep].
    intros j sa ua sb _ HJa Hbody.
    apply bind_inv in Hbody as (pv & s3 & Hp & Hbody).
    apply cell_known in Hp as [-> Hp].
    apply bind_inv in Hbody as (cv & s4 & Hc & Hadd).
    apply cell_known in Hc as [-> Hc].
    eapply inv_lits_add_known; [exact HJa| | |exact Hadd]; [done|].
    lits; by eapply inv_lits_known. }
  assert (HJ2 : inv_lits b s2).
  { apply bind_inv in Hfirst as (vi & s3 & Hvi & Hfirst).
    apply lift_inv in Hvi as [Hvi%var_known ->].
    apply bind_inv in Hfirst as (cv & s4 & Hc & Hadd).
    apply cell_known in Hc as [-> Hc].
    eapply inv_lits_add_known; [exact HJ1| | |exact Hadd]; [done|].
    lits; by eapply inv_lits_known. }
  eapply inv_lits_for_each; [|exact HJ2|exact Hsum].
  intros j sa ua sb _ HJa Hbody.
  apply bind_inv in Hbody as (vi & s3 & Hvi & Hbody).
  apply lift_inv in Hvi as [Hvi%var_known ->].
  apply bind_inv in Hbody as (pv & s4 & Hp & Hbody).
  apply cell_known in Hp as [-> Hp].
  apply bind_inv in Hbody as (cv & s5 & Hc & Hadd).
  apply cell_known in Hc as [-> Hc].
  eapply inv_lits_add_known; [exact HJa| | |exact Hadd]; [done|].
  lits; by eapply inv_lits_known.
Qed.
End CounterLiterals.

Lemma inv_lits_at_most_k b vars k prefix s u s' :
  inv_lits b s -> Forall (known b) vars ->
  add_at_most_k_constraint vars k prefix s = Some (u, s') ->
  inv_lits b s'.
Proof.
  intros HJ Hvars Hrun. unfold add_at_most_k_constraint in Hrun.
  case_decide; [by apply ret_inv in Hrun as [_ ->]|].
  apply bind_inv in Hrun as (mtx & sa & Hm & Hrun).
  apply (inv_lits_mapM b _ (fun row st => Forall (known st) row)) in Hm
    as [HJa Hrows]; [| | | |exact HJ].
  2:{ intros row s1 s2 Hrow Hext. eapply Forall_impl; [exact Hrow|].
      intros v. by apply known_ext. }
  2:{ intros i. mono. }
  2:{ intros i s1 row s2 HJ1 Hrow.
      apply (inv_lits_mapM b _ (fun v st => known st v)) in Hrow
        as [HJ2 Hr]; [done| | | |exact HJ1].
      - intros v s3 s4 Hv Hext. by eapply known_ext.
      - intros j. mono.
      - intros j s3 v s4 HJ3 Hv. by eapply inv_lits_new_var. }
  assert (Hvars' : Forall (known sa) vars).
  { eapply Forall_impl; [exact Hvars|]. intros v.
    by apply (inv_lits_known b). }
  eapply (inv_lits_trans b sa); [by destruct HJa as (_ & ? & _)|].
  apply inv_lits_rebase in HJa.
  apply bind_inv in Hrun as ([] & sb & Hinit & Hrun).
  apply bind_inv in Hrun as ([] & sc & Hloop & Hfin).
  assert (HJb : inv_lits sa sb) by (by eapply inv_lits_initialize).
  assert (HJc : inv_lits sa sc).
  { eapply inv_lits_for_each; [|exact HJb|exact Hloop].
    intros i s1 u1 s2 _ HJ1 Hbody.
    exact (inv_lits_propagate sa vars mtx Hvars' Hrows i k s1 u1 s2 HJ1
             Hbody). }
  apply bind_inv in Hfin as (last & sd & Hc & Hadd).
  apply (cell_known sa mtx Hrows) in Hc as [-> Hc].
  eapply inv_lits_add_known; [exact HJc| | |exact Hadd]; [done|].
  lits; by eapply inv_lits_known.
Qed.

Section TurnLiterals.
Context (N M : Z) (lines_spec : list (cell * cell)) (t : tables) (b : state).
Hypothesis Hinv : tables_inv N M (all_cells N M lines_spec) t b.
Hypothesis HndT : NoDup (Dict.keys (T_vars t)).

Lemma inv_lits_turn_pair sp k x y l tv pr s u s' :
  inv_lits b s -> known b l -> known b tv ->
  turn_pair_clause sp (E_vars t) k x y l tv pr s = Some (u, s') ->
  inv_lits b s'.
Proof.
  intros HJ Hl Htv Hrun. unfold turn_pair_clause in Hrun.
  destruct pr as [D1 D2].
  destruct (truthy (Dict.get (E_vars t) (k, x, y, D1))) eqn:H1;
    [|by apply ret_inv in Hrun as [_ ->]].
  destruct (truthy (Dict.get (E_vars t) (k, x, y, D2))) eqn:H2;
    [|by apply ret_inv in Hrun as [_ ->]].
  apply truthy_Some in H1 as [e1 He1]. apply truthy_Some in H2 as [e2 He2].
  rewrite He1, He2 in Hrun. simpl in Hrun.
  apply bind_inv in Hrun as (v1 & s1 & Hr1 & Hrun).
  apply ret_inv in Hr1 as [-> ->].
  apply bind_inv in Hrun as (v2 & s2 & Hr2 & Hrun).
  apply ret_inv in Hr2 as [-> ->].
  pose proof (E_known _ _ _ _ _ Hinv _ _ _ _ _ He1) as Hk1.
  pose proof (E_known _ _ _ _ _ Hinv _ _ _ _ _ He2) as Hk2.
  destruct (negb (bool_decide ((D1, D2) ∈ sp)));
    (eapply inv_lits_add_known; [exact HJ| | |exact Hrun]; [done|]);
    lits; by eapply inv_lits_known.
Qed.

Lemma inv_lits_turn_items sp k s tvs s' :
  inv_lits b s ->
  turn_items_loop sp (T_vars t) (L_vars t) (E_vars t) k s = Some (tvs, s') ->
  inv_lits b s'.
Proof.
  intros HJ Hrun. unfold turn_items_loop in Hrun.
  eapply inv_lits_foldM; [|exact HJ|exact Hrun].
  intros [[[line_k x] y] tv] acc1 s1 acc2 s2 Hin HJ1 Hbody.
  unfold Dict.items in Hin. apply NoDup_keys_In_get in Hin; [|done].
  pose proof (T_known _ _ _ _ _ Hinv _ _ _ _ Hin) as Htv.
  cbv beta iota in Hbody.
  case_decide; [by apply ret_inv in Hbody as [_ ->]|].
  apply bind_inv in Hbody as (l & s3 & Hgl & Hbody).
  apply lift_inv in Hgl as [Hgl ->].
  pose proof (L_known _ _ _ _ _ Hinv _ _ _ _ Hgl) as Hl.
  apply bind_inv in Hbody as ([] & s4 & Hadd & Hbody).
  apply bind_inv in Hbody as ([] & s5 & Hpairs & Hret).
  apply ret_inv in Hret as [_ ->].
  assert (HJ4 : inv_lits b s4).
  { eapply inv_lits_add_known; [exact HJ1| | |exact Hadd]; [done|].
    lits; by eapply inv_lits_known. }
  eapply inv_lits_for_each; [|exact HJ4|exact Hpairs].
  intros pr sa ua sb _ HJa Hpair.
  exact (inv_lits_turn_pair _ _ _ _ _ _ _ _ _ _ HJa Hl Htv Hpair).
Qed.

Lemma turn_vars_known k : Forall (known b) (turn_vars_of_line (T_vars t) k).
Proof.
  apply Forall_forall. intros v Hv. unfold turn_vars_of_line in Hv.
  apply list_elem_of_fmap in Hv as ([[[k' x] y] v'] & -> & Hin).
  apply list_elem_of_filter in Hin as [_ Hin].
  unfold Dict.items in Hin. apply NoDup_keys_In_get in Hin; [|done].
  by eapply T_known.
Qed.

Lemma inv_lits_turn_constraints sp J s u s' :
  inv_lits b s ->
  enforce_turn_constraints lines_spec (T_vars t) (L_vars t) (E_vars t) sp J s
  = Some (u, s') ->
  inv_lits b s'.
Proof.
  intros HJ Hrun. unfold enforce_turn_constraints in Hrun.
  eapply inv_lits_for_each; [|exact HJ|exact Hrun].
  intros ks s1 u1 s2 _ HJ1 Hbody. simpl in Hbody.
  apply bind_inv in Hbody as (tvs & s3 & Hloop & Hrest).
  pose proof (inv_lits_turn_items _ _ _ _ _ HJ1 Hloop) as HJ3.
  apply turn_items_loop_result in Hloop as ->.
  case_decide; [|by apply ret_inv in Hrest as [_ ->]].
  eapply inv_lits_at_most_k; [exact HJ3|apply turn_vars_known|exact Hrest].
Qed.
End TurnLiterals.

Lemma inv_lits_define_cell b N M k st en x y t s t' s' :
  inv_lits b s -> define_cell N M k st en x y t s = Some (t', s') ->
  inv_lits b s'.
Proof.
  intros HJ Hrun. unfold define_cell in Hrun.
  apply bind_inv in Hrun as (l & s1 & Hl & Hrun).
  apply (inv_lits_new_var b) in Hl as [HJ1 _]; [|done].
  apply bind_inv in Hrun as (t2 & s2 & Ht & Hrun).
  assert (HJ2 : inv_lits b s2).
  { case_decide.
    - apply bind_inv in Ht as (tv & s3 & Htv & Hret).
      apply ret_inv in Hret as [_ ->].
      by apply (inv_lits_new_var b) in Htv as [? _].
    - by apply ret_inv in Ht as [_ ->]. }
  apply bind_inv in Hrun as (sv & s3 & Hs & Hrun).
  apply (inv_lits_new_var b) in Hs as [HJ3 _]; [|done].
  eapply inv_lits_foldM; [|exact HJ3|exact Hrun].
  intros d acc1 sa acc2 sb _ HJa Hbody. simpl in Hbody.
  destruct (in_grid N M (step x y d)).
  - apply bind_inv in Hbody as (e & sc & He & Hret).
    apply ret_inv in Hret as [_ ->].
    by apply (inv_lits_new_var b) in He as [? _].
  - by apply ret_inv in Hbody as [_ ->].
Qed.

Lemma init_state_lits : inv_lits init_state init_state.
Proof.
  split; [apply init_state_wf|]. split; [apply ext_refl|]. constructor.
Qed.

(** Every clause of a run is well-formed. *)
Lemma run_encoder_lits p t s : run_encoder p = Some (t, s) -> lits_ok s.
Proof.
  unfold run_encoder, encoder, encoder_on. intros Hrun.
  destruct (decide (p_mode p = 1 \/ p_mode p = 2)); [|done].
  apply bind_inv in Hrun as (t0 & s0 & Hdef & Hrun).
  apply bind_inv in Hrun as ([] & s' & Hall & Hret).
  apply ret_inv in Hret as [-> ->].
  pose proof (define_variables_inv _ _ _ _ _ _ Hdef) as Hinv.
  pose proof (define_variables_T_NoDup _ _ _ _ _ _ Hdef) as HndT.
  destruct (define_variables_NoDup _ _ _ _ _ _ Hdef) as [HndE Hndc].
  assert (HJ0 : inv_lits s0 s0).
  { apply (inv_lits_rebase init_state).
    rewrite define_variables_flat in Hdef.
    eapply inv_lits_foldM; [|exact init_state_lits|exact Hdef].
    intros it acc1 s1 acc2 s2 _ HJ1 Hcell.
    exact (inv_lits_define_cell _ _ _ _ _ _ _ _ _ _ _ _ HJ1 Hcell). }
  unfold apply_all_constraints in Hall.
  apply bind_inv in Hall as ([] & s1 & H1 & Hall).
  apply bind_inv in Hall as ([] & s2 & H2 & Hall).
  apply bind_inv in Hall as ([] & s3 & H3 & Hall).
  apply bind_inv in Hall as ([] & s4 & H4 & Hall).
  apply bind_inv in Hall as ([] & s5 & H5 & H6).
  eapply inv_lits_unique_occupancy in H1; [|exact Hinv|exact Hndc|exact HJ0].
  eapply inv_lits_edge_location in H2; [|exact Hinv|exact HndE|exact H1].
  eapply inv_lits_path_continuity in H3; [|exact Hinv|exact H2].
  eapply inv_lits_turn_constraints in H4; [|exact Hinv|exact HndT|exact H3].
  eapply inv_lits_path_connectivity in H5; [|exact Hinv|exact H4].
  eapply inv_lits_popular in H6; [|exact Hinv|exact H5].
  by destruct H6 as (_ & _ & ?).
Qed.

(** X16.  Every clause that the encoder writes is a well-formed DIMACS
    clause: it is not empty, none of its literals is 0, and each literal is a
    variable between 1 and the number of variables of the header, or the
    variable 1; and when the problem has a line, the header declares at least
    one variable, so that every literal is within the header's range. *)
Theorem emitted_cnf_well_formed (p : problem) (out : output) :
  encode p = Some out ->
  (forall c, c ∈ out_clauses out ->
     c <> [] /\
     forall l, l ∈ c ->
       l <> 0 /\ Z.abs l <= Z.max 1 (out_num_vars out)) /\
  (p_lines_spec p <> [] -> 1 <= out_num_vars out).
Proof.
  unfold encode. intros Hout.
  destruct (run_encoder p) as [[t s]|] eqn:Hrun; [|done].
  injection Hout as <-. simpl. split.
  - intros c Hc. pose proof (run_encoder_lits _ _ _ Hrun) as Hok.
    destruct (proj1 (Forall_forall _ _) Hok c Hc) as [Hne Hall].
    split; [done|]. intros l Hl.
    pose proof (proj1 (Forall_forall _ _) Hall l Hl) as Hb. simpl in Hb.
    lia.
  - intros Hne. assert (2 <= next_var s); [|lia].
    eapply run_encoder_allocates; [done|done|].
    intros st en Hin.
    destruct (in_grid (p_N p) (p_M p) st) eqn:Hst; [done|].
    rewrite (run_encoder_line_outside p st en Hin) in Hrun; [done|by left].
Qed.

Lemma emitted_cnf_well_formed_witness :
  1 <= out_num_vars (write_output straight_line (final_state straight_line)).
Proof.
  refine (proj2 (emitted_cnf_well_formed straight_line
                   (write_output straight_line (final_state straight_line))
                   _) _).
  - vm_compute. reflexivity.
  - discriminate.
Defined.

(* ================================================================== *)
(** * The names of the variables *)

Lemma uint_no_underscore d :
  has_char underscore (NilEmpty.string_of_uint d) = false.
Proof. induction d as [|d IH|d IH|d IH|d IH|d IH|d IH|d IH|d IH|d IH|d IH];
  simpl; rewrite ?IH; reflexivity. Qed.

(** The decimal text of an integer holds no underscore. *)
Lemma str_no_underscore z : has_char underscore (str z) = false.
Proof.
  unfold str, NilZero.string_of_int, NilZero.string_of_uint.
  destruct (Z.to_int z) as [d|d]; destruct d; simpl;
    rewrite ?uint_no_underscore; reflexivity.
Qed.

Lemma string_app_nil_l (s : string) : "" +:+ s = s.
Proof. reflexivity. Qed.

Lemma string_app_inj_l (p s1 s2 : string) : p +:+ s1 = p +:+ s2 -> s1 = s2.
Proof.
  induction p as [|c p IH]; [done|].
  rewrite !string_app_cons. intros [= Heq]. by apply IH.
Qed.

(** Two texts without underscore, each followed by an underscore, end at
    the same place. *)
Lemma split_underscore (s1 s2 r1 r2 : string) :
  s1 +:+ "_" +:+ r1 = s2 +:+ "_" +:+ r2 ->
  has_char underscore s1 = false -> has_char underscore s2 = false ->
  s1 = s2 /\ r1 = r2.
Proof.
  revert s2. induction s1 as [|c s1 IH]; intros [|c2 s2] Heq H1 H2.
  - change (String underscore r1 = String underscore r2) in Heq.
    by injection Heq as ->.
  - change (String underscore r1 = String c2 (s2 +:+ "_" +:+ r2)) in Heq.
    injection Heq as <- _. cbv in H2. discriminate H2.
  - change (String c (s1 +:+ "_" +:+ r1) = String underscore r2) in Heq.
    injection Heq as -> _. cbv in H1. discriminate H1.
  - rewrite 2!string_app_cons in Heq. injection Heq as -> Heq.
    simpl in H1, H2. apply orb_false_elim in H1 as [_ H1].
    apply orb_false_elim in H2 as [_ H2].
    destruct (IH _ Heq H1 H2) as [-> ->]. done.
Qed.

Lemma name3_inj (k x y k' x' y' : Z) :
  str k +:+ "_" +:+ str x +:+ "_" +:+ str y
  = str k' +:+ "_" +:+ str x' +:+ "_" +:+ str y' ->
  k = k' /\ x = x' /\ y = y'.
Proof.
  intros Heq.
  apply split_underscore in Heq as [Hk Heq]; [|apply str_no_underscore..].
  apply split_underscore in Heq as [Hx Hy]; [|apply str_no_underscore..].
  by apply str_inj in Hk, Hx, Hy.
Qed.

Lemma dir_token_inj d d' : dir_token d = dir_token d' -> d = d'.
Proof. by destruct d, d'. Qed.

Lemma name4_inj (k x y k' x' y' : Z) (d d' : Dir) :
  str k +:+ "_" +:+ str x +:+ "_" +:+ str y +:+ "_" +:+ dir_token d
  = str k' +:+ "_" +:+ str x' +:+ "_" +:+ str y' +:+ "_" +:+ dir_token d' ->
  k = k' /\ x = x' /\ y = y' /\ d = d'.
Proof.
  intros Heq.
  apply split_underscore in Heq as [Hk Heq]; [|apply str_no_underscore..].
  apply split_underscore in Heq as [Hx Heq]; [|apply str_no_underscore..].
  apply split_underscore in Heq as [Hy Hd]; [|apply str_no_underscore..].
  apply str_inj in Hk, Hx, Hy. by apply dir_token_inj in Hd.
Qed.

(** Different table entries have different names. *)
Lemma key_name_inj key1 key2 : key_name key1 = key_name key2 -> key1 = key2.
Proof.
  destruct key1 as [k x y|k x y|k x y|k x y d],
           key2 as [k' x' y'|k' x' y'|k' x' y'|k' x' y' d'];
    unfold key_name, lname, tname, sname, ename;
    rewrite !string_app_cons, !string_app_nil_l; intros Heq;
    try discriminate Heq; injection Heq as Heq.
  - by apply name3_inj in Heq as (-> & -> & ->).
  - by apply name3_inj in Heq as (-> & -> & ->).
  - by apply name3_inj in Heq as (-> & -> & ->).
  - by apply name4_inj in Heq as (-> & -> & -> & ->).
Qed.

Lemma aux_name_line (k i j : Z) :
  aux_name ("s_k" +:+ str k) i j
  = "s_k" +:+ str k +:+ "_" +:+ str i +:+ "_" +:+ str j.
Proof.
  unfold aux_name. by rewrite !string_app_cons, !string_app_nil_l.
Qed.

Lemma aux_name_inj (k i j k' i' j' : Z) :
  aux_name ("s_k" +:+ str k) i j = aux_name ("s_k" +:+ str k') i' j' ->
  k = k' /\ i = i' /\ j = j'.
Proof.
  rewrite !aux_name_line. intros Heq%string_app_inj_l. by apply name3_inj.
Qed.

Lemma key_name_not_aux key (k i j : Z) :
  key_name key <> aux_name ("s_k" +:+ str k) i j.
Proof.
  rewrite aux_name_line.
  destruct key; unfold key_name, lname, tname, sname, ename;
    rewrite !string_app_cons; discriminate.
Qed.

(** X17.  The names that the f-strings of the encoder give to its variables
    determine what they name: two entries of the tables L, T, S and E with
    the same name are the same entry, two counter variables of the turn
    counters with the same name have the same line and the same position,
    and no counter variable has the name of a table entry. *)
Theorem variable_names_injective :
  (forall key1 key2, key_name key1 = key_name key2 -> key1 = key2) /\
  (forall k i j k' i' j' : Z,
     aux_name ("s_k" +:+ str k) i j = aux_name ("s_k" +:+ str k') i' j' ->
     k = k' /\ i = i' /\ j = j') /\
  (forall key (k i j : Z),
     key_name key <> aux_name ("s_k" +:+ str k) i j).
Proof.
  split; [exact key_name_inj|]. split; [exact aux_name_inj|].
  exact key_name_not_aux.
Qed.

(** ** The ids of the table entries *)

Lemma table_id_name N M done t s0 key v :
  tables_inv N M done t s0 ->
  table_id t key = Some v ->
  Dict.get (var_to_id s0) (key_name key) = Some v.
Proof.
  intros Hinv Hid. destruct key; simpl in *.
  - by eapply inv_nL.
  - by eapply inv_nT.
  - by eapply inv_nS.
  - by eapply inv_nE.
Qed.

Lemma table_id_facts p t s key v :
  run_encoder p = Some (t, s) ->
  table_id t key = Some v ->
  Dict.get (var_to_id s) (key_name key) = Some v /\
  Dict.get (id_to_var s) (str v) = Some (key_name key) /\
  forall key', table_id t key' = Some v -> key' = key.
Proof.
  intros Hrun Hid.
  pose proof (run_encoder_wf _ _ _ Hrun) as Hwf.
  apply run_encoder_inv in Hrun
    as (s0 & s1 & s2 & s3 & s4 & s5 & Hinv & _ & _ & _ & _ & _ & _ & _
        & E1 & E2 & E3 & E4 & E5 & E6).
  assert (Hext : ext s0 s).
  { repeat (eapply ext_trans; [eassumption|]). apply ext_refl. }
  assert (Hname : forall key', table_id t key' = Some v ->
            Dict.get (var_to_id s) (key_name key') = Some v).
  { intros key' Hid'. eapply ext_var; [exact Hext|].
    by eapply table_id_name. }
  split; [by apply Hname|]. split.
  - apply (wf_inverse _ Hwf). exists v. split; [done | by apply Hname].
  - intros key' Hid'. apply key_name_inj.
    eapply (wf_inj _ Hwf); by apply Hname.
Qed.

(** X18.  After a run of the encoder, the id of an entry of the tables L, T,
    S or E is the id of its name in [var_to_id], the map [id_to_var] sends
    the decimal text of that id back to the name, and no other table entry
    has the same id. *)
Theorem table_ids_distinct (p : problem) (t : tables) (s : state)
    (key : var_key) (v : Z) :
  run_encoder p = Some (t, s) ->
  table_id t key = Some v ->
  Dict.get (var_to_id s) (key_name key) = Some v /\
  Dict.get (id_to_var s) (str v) = Some (key_name key) /\
  forall key', table_id t key' = Some v -> key' = key.
Proof. apply table_id_facts. Qed.

Lemma table_ids_distinct_witness :
  Dict.get (var_to_id (final_state straight_line))
           (key_name (KeyE 0 1 0 DirL)) = Some 8 /\
  Dict.get (id_to_var (final_state straight_line)) (str 8)
  = Some (key_name (KeyE 0 1 0 DirL)) /\
  forall key',
    table_id (final_tables straight_line) key' = Some 8 ->
    key' = KeyE 0 1 0 DirL.
Proof.
  exact (table_ids_distinct straight_line (final_tables straight_line)
           (final_state straight_line) (KeyE 0 1 0 DirL) 8
           ltac:(vm_compute; reflexivity)
           ltac:(vm_compute; reflexivity)).
Defined.

(* ================================================================== *)
(** * The written lines *)

Lemma path_line_nil : path_line [] = "0".
Proof. reflexivity. Qed.

Lemma path_line_cons d p :
  path_line (d :: p) = dir_token d +:+ " " +:+ path_line p.
Proof.
  unfold path_line, join. simpl.
  by destruct (map dir_token p ++ ["0"]) eqn:E;
    [destruct (map dir_token p)|].
Qed.

Lemma path_line_length p :
  String.length (path_line p) = (2 * length p + 1)%nat.
Proof.
  induction p as [|d p IH]; [done|].
  rewrite path_line_cons, !string_length_app, IH.
  destruct d; simpl; lia.
Qed.

Lemma path_line_inj p1 p2 : path_line p1 = path_line p2 -> p1 = p2.
Proof.
  revert p2. induction p1 as [|d1 p1 IH]; intros [|d2 p2] Heq.
  - done.
  - rewrite path_line_nil, path_line_cons in Heq. by destruct d2.
  - rewrite path_line_nil, path_line_cons in Heq. by destruct d1.
  - rewrite !path_line_cons in Heq.
    assert (d1 = d2) as -> by (by destruct d1, d2).
    apply string_app_inj_l, string_app_inj_l in Heq. by rewrite (IH _ Heq).
Qed.

(** X19.  The line written for a path determines the path: two paths are
    written as the same line only if they are the same sequence of
    directions, and the line of a path of [n] steps has [2 * n + 1]
    characters. *)
Theorem path_line_determines_path (p1 p2 : list Dir) :
  (path_line p1 = path_line p2 <-> p1 = p2) /\
  String.length (path_line p1) = (2 * length p1 + 1)%nat.
Proof.
  split; [|apply path_line_length].
  split; [apply path_line_inj | by intros ->].
Qed.
